(** * ivadomed/prepare_dataset.py: heatmap synthesis and mid-slice averaging

    A shallow embedding of the numerical core of [prepare_dataset.py]:
    [normalize], [label2maskmap_gt], [gkern], [heatmap_generation],
    [multivariate_gaussian], [get_midslice_average] and [extract_all].

    numpy's float64 values are idealised as the real numbers [R]: [np.exp],
    [np.sqrt], [np.pi] and [scipy.stats.norm.cdf] are the mathematical
    functions.  Where numpy would go on with [nan] or [inf] under a
    RuntimeWarning (a division by zero, the mean of an empty slice, the square
    root of a negative number) the model stops with [Raise NonFinite]; the
    Python exceptions the code can raise are the other constructors of
    [error].  [add_zero_padding], [mask2label] and [images_normalization]
    are embedded as well; [mask2label] works on the array read from the
    label file, whose values are integer label codes.

    Float64 departs from the reals, and in three places the departure
    changes what the code returns.  Far from the label the density underflows
    to zero: [multivariate_gaussian_underflow] and
    [label2maskmap_gt_underflow] are the two functions with the rounding to
    zero and to infinity at the ends of the float64 range.  The product of
    the largest density and its reciprocal can be rounded below 1: module
    [Float64] computes the entry at the label in binary64 arithmetic.  With
    [std=True], [images_normalization] divides what the subtraction of the
    mean leaves by the standard deviation plus [1e-100]; on a constant image
    that is a rounding residue over [1e-100], which the reals do not show, so
    the properties of [images_normalization] are stated for [std=False]. *)

From Stdlib Require Import String.
From Stdlib Require Import Reals List ZArith Lia Lra Psatz Bool Arith.
From Stdlib Require Import Sorted Permutation.
From Stdlib Require PrimFloat.
Import ListNotations.

Open Scope R_scope.

(** ** Results and errors *)

Inductive error : Type :=
| IndexError    (* a list or tuple indexed out of range *)
| ValueError    (* max, min or convolution of a zero-size array *)
| LinAlgError   (* np.linalg.inv on a singular matrix *)
| NonFinite.    (* numpy produced nan or inf *)

Inductive result (A : Type) : Type :=
| Ok (a : A)
| Raise (e : error).

Arguments Ok {A} a.
Arguments Raise {A} e.

Definition bind {A B : Type} (r : result A) (k : A -> result B) : result B :=
  match r with
  | Ok a => k a
  | Raise e => Raise e
  end.

Notation "x <- e ;; k" := (bind e (fun x => k))
  (at level 61, e at next level, right associativity).

(** ** Arrays *)

Definition array1 := list R.
Definition array2 := list (list R).
Definition array3 := list (list (list R)).

(** [a[i]] for a non-negative literal index. *)
Definition index {A : Type} (l : list A) (i : nat) : result A :=
  match nth_error l i with
  | Some v => Ok v
  | None => Raise IndexError
  end.

(** Entry [(i, j)] of a 2-D array, [0] outside of it (used in statements and
    for the zero padding of the convolution). *)
Definition get (a : array2) (i j : nat) : R := nth j (nth i a []) 0.

Definition shape2 (a : array2) (h w : nat) : Prop :=
  length a = h /\ forall row, In row a -> length row = w.

(** [arr.max()] and [arr.min()] of a flattened array; numpy raises ValueError
    on a zero-size array. *)
Definition list_max (l : list R) : result R :=
  match l with
  | [] => Raise ValueError
  | x :: t => Ok (fold_left Rmax t x)
  end.

Definition list_min (l : list R) : result R :=
  match l with
  | [] => Raise ValueError
  | x :: t => Ok (fold_left Rmin t x)
  end.

Definition arr_max (a : array2) : result R := list_max (concat a).
Definition arr_min (a : array2) : result R := list_min (concat a).

Definition arr_sum (a : array2) : R := fold_right Rplus 0 (concat a).

Definition arr_map (f : R -> R) (a : array2) : array2 := map (map f) a.

(** Float division: a zero divisor gives nan or inf. *)
Definition np_div (a b : R) : result R :=
  if Req_dec_T b 0 then Raise NonFinite else Ok (a / b).

(** [np.sqrt]: nan on a negative argument. *)
Definition np_sqrt (x : R) : result R :=
  if Rlt_dec x 0 then Raise NonFinite else Ok (sqrt x).

(** [arr / s] for a scalar [s]: nothing is divided in a zero-size array. *)
Definition arr_div (a : array2) (s : R) : result array2 :=
  match concat a with
  | [] => Ok a
  | _ :: _ => if Req_dec_T s 0 then Raise NonFinite else Ok (arr_map (fun v => v / s) a)
  end.

(** ** normalize (lines 12-15) *)

Definition normalize (arr : array2) : result array2 :=
  ma <- arr_max arr ;;
  mi <- arr_min arr ;;
  if Req_dec_T (ma - mi) 0 then Raise NonFinite
  else Ok (arr_map (fun v => (v - mi) / (ma - mi)) arr).

(** ** multivariate_gaussian (lines 106-123)

    The repository calls it with a 2-component mean and a 2x2 covariance
    only; vectors are pairs and matrices pairs of rows. *)

Definition vec2 := (R * R)%type.
Definition mat2 := (vec2 * vec2)%type.

Definition det (S : mat2) : R :=
  let '((a, b), (c, d)) := S in a * d - b * c.

(** [np.linalg.inv] raises LinAlgError on a singular matrix. *)
Definition inv (S : mat2) : result mat2 :=
  let '((a, b), (c, d)) := S in
  if Req_dec_T (det S) 0 then Raise LinAlgError
  else Ok ((d / det S, - b / det S), (- c / det S, a / det S)).

Definition vsub (p q : vec2) : vec2 := (fst p - fst q, snd p - snd q).

(** [np.einsum('...k,kl,...l->...', u, A, v)] at one grid point. *)
Definition einsum (u : vec2) (A : mat2) (v : vec2) : R :=
  let '((a, b), (c, d)) := A in
  fst u * a * fst v + fst u * b * snd v + snd u * c * fst v + snd u * d * snd v.

Definition multivariate_gaussian (pos : list (list vec2)) (mu : vec2) (Sigma : mat2)
  : result array2 :=
  let n := 2%nat in
  let Sigma_det := det Sigma in
  Sigma_inv <- inv Sigma ;;
  N <- np_sqrt ((2 * PI) ^ n * Sigma_det) ;;
  let fac := fun p => einsum (vsub p mu) Sigma_inv (vsub p mu) in
  Ok (map (map (fun p => exp (- fac p / 2) / N)) pos).

(** ** label2maskmap_gt (lines 19-77) *)

(** [np.linspace(start, stop, num)]. *)
Definition linspace (start stop : R) (num : nat) : array1 :=
  map (fun i => start + INR i * ((stop - start) / INR (num - 1))) (seq 0 num).

(** [np.meshgrid(X, Y)] packed into [pos]: [pos[r][c] = (X[c], Y[r])]. *)
Definition meshgrid_pos (X Y : array1) : list (list vec2) :=
  map (fun y => map (fun x => (x, y)) X) Y.

(** A float cast to an integer type truncates towards zero. *)
Definition Rtrunc (r : R) : Z :=
  if Rle_dec 0 r then Int_part r else (- Int_part (- r))%Z.

(** [dtype=np.uint8]. *)
Definition to_uint8 (r : R) : Z := (Rtrunc r mod 256)%Z.

Inductive heatmap : Type :=
| FloatMap (a : array2)              (* float64 *)
| ByteMap (a : list (list Z)).       (* uint8 *)

Definition label2maskmap_gt (data : list R) (shape : list nat)
  (c_dx c_dy radius : R) (normalize : bool) : result heatmap :=
  M <- index shape 2 ;;
  N <- index shape 1 ;;
  data <- (if (length data <=? 2)%nat
           then d0 <- index data 0 ;; d1 <- index data 1 ;; Ok [0; d0; d1]
           else Ok data) ;;
  x <- index data 2 ;;
  y <- index data 1 ;;
  let x := x + c_dx in
  let y := y + c_dy in
  let X := linspace 0 (INR M - 1) M in
  let Y := linspace 0 (INR N - 1) N in
  let pos := meshgrid_pos X Y in
  let mu := (x, y) in
  let Sigma := ((radius, 0), (0, radius)) in
  Z <- multivariate_gaussian pos mu Sigma ;;
  if normalize then
    m <- arr_max Z ;;
    s <- np_div 1 m ;;
    Ok (FloatMap (arr_map (fun v => v * s) Z))
  else
    m <- arr_max Z ;;
    s <- np_div 1 m ;;
    let Z := arr_map (fun v => v * s) Z in
    Ok (ByteMap (map (map (fun v => to_uint8 (v * 255))) Z)).

(** ** multivariate_gaussian and label2maskmap_gt within the float64 range

    A float64 result of magnitude [2^-1075] or less is rounded to zero, and
    one of magnitude [2^1024 - 2^970] or more to infinity.  Far from the
    label this decides what the two functions return, so they are given a
    second time with these two roundings: the value of [np.exp], the
    quotient by [N] and the product with the scale go through [underflow],
    the reciprocal of the maximum goes through [overflow].  Rounding inside
    the range stays idealised, and so does an overflow of [np.exp], which
    needs a covariance that is not positive definite. *)

Definition underflow (x : R) : R :=
  if Rle_dec (Rabs x) (/ 2 ^ 1075) then 0 else x.

Definition overflow (x : R) : result R :=
  if Rlt_dec (Rabs x) (2 ^ 1024 - 2 ^ 970) then Ok x else Raise NonFinite.

Definition multivariate_gaussian_underflow
  (pos : list (list vec2)) (mu : vec2) (Sigma : mat2) : result array2 :=
  let n := 2%nat in
  let Sigma_det := det Sigma in
  Sigma_inv <- inv Sigma ;;
  N <- np_sqrt ((2 * PI) ^ n * Sigma_det) ;;
  let fac := fun p => einsum (vsub p mu) Sigma_inv (vsub p mu) in
  Ok (map (map (fun p => underflow (underflow (exp (- fac p / 2)) / N))) pos).

Definition label2maskmap_gt_underflow (data : list R) (shape : list nat)
  (c_dx c_dy radius : R) (normalize : bool) : result heatmap :=
  M <- index shape 2 ;;
  N <- index shape 1 ;;
  data <- (if (length data <=? 2)%nat
           then d0 <- index data 0 ;; d1 <- index data 1 ;; Ok [0; d0; d1]
           else Ok data) ;;
  x <- index data 2 ;;
  y <- index data 1 ;;
  let x := x + c_dx in
  let y := y + c_dy in
  let X := linspace 0 (INR M - 1) M in
  let Y := linspace 0 (INR N - 1) N in
  let pos := meshgrid_pos X Y in
  let mu := (x, y) in
  let Sigma := ((radius, 0), (0, radius)) in
  Z <- multivariate_gaussian_underflow pos mu Sigma ;;
  if normalize then
    m <- arr_max Z ;;
    s <- (q <- np_div 1 m ;; overflow q) ;;
    Ok (FloatMap (arr_map (fun v => underflow (v * s)) Z))
  else
    m <- arr_max Z ;;
    s <- (q <- np_div 1 m ;; overflow q) ;;
    let Z := arr_map (fun v => underflow (v * s)) Z in
    Ok (ByteMap (map (map (fun v => to_uint8 (v * 255))) Z)).

(** ** The entry of label2maskmap_gt at the label, in float64 arithmetic

    At the pixel of the label [pos - mu] is zero, [fac] is [0.0] and
    [np.exp(-fac / 2)] is [1.0].  What lines 116-119 and 66-70 compute from
    there for this pixel, whose density is the largest, is products, a square
    root and quotients; they are taken here as float64 takes them, rounded to
    the nearest binary64 number.  [np.pi] is the float64 nearest to pi,
    [(2 * np.pi) ** 2] the float64 nearest to the square of [2 * np.pi],
    which the product is, and the determinant of [[radius, 0], [0, radius]]
    is the product of the two diagonal entries. *)
Module Float64.
Import PrimFloat.
Local Open Scope float_scope.

Definition np_pi : float := 0x1.921fb54442d18p+1.

(** [N = np.sqrt((2 * np.pi) ** n * Sigma_det)] for [n = 2]. *)
Definition N (radius : float) : float :=
  sqrt ((2 * np_pi) * (2 * np_pi) * (radius * radius)).

(** [np.exp(-fac / 2) / N] at the label. *)
Definition peak_density (radius : float) : float := 1 / N radius.

(** [Z *= (1 / np.max(Z))] at the label. *)
Definition scaled_peak (radius : float) : float :=
  let m := peak_density radius in m * (1 / m).

(** [Z * 255] at the label, before the cast to [np.uint8] drops the
    fraction. *)
Definition byte_peak (radius : float) : float := scaled_peak radius * 255.

(** [Z /= np.max(Z)] at the label, for comparison. *)
Definition divided_peak (radius : float) : float :=
  let m := peak_density radius in m / m.
End Float64.

(** ** gkern (lines 80-86) *)

(** The density of the standard normal distribution and its distribution
    function, [scipy.stats.norm.cdf]: one half plus the integral of the
    density from [0] to [x]. *)
Definition norm_pdf (t : R) : R := exp (- (t * t) / 2) / sqrt (2 * PI).

Definition norm_pdf_integrable (a b : R) : Riemann_integrable norm_pdf a b.
Proof.
  assert (C : forall x, continuity_pt norm_pdf x).
  { intro x. unfold norm_pdf. reg. }
  destruct (Rle_dec a b) as [Hab | Hab].
  - apply continuity_implies_RiemannInt; [exact Hab | intros; apply C].
  - apply RiemannInt_P1, continuity_implies_RiemannInt; [lra | intros; apply C].
Qed.

Definition norm_cdf (x : R) : R := 1 / 2 + RiemannInt (norm_pdf_integrable 0 x).

(** [np.diff]: [a[1:] - a[:-1]]. *)
Fixpoint diff (l : array1) : array1 :=
  match l with
  | x :: t => match t with
              | y :: _ => (y - x) :: diff t
              | [] => []
              end
  | [] => []
  end.

(** [np.outer]. *)
Definition outer (a b : array1) : array2 :=
  map (fun x => map (fun y => x * y) b) a.

Definition gkern (kernlen : nat) : result array2 :=
  let x := linspace 0 1 (kernlen + 1) in
  let kern1d := diff (map norm_cdf x) in
  let kern2d := outer kern1d kern1d in
  q <- arr_div kern2d (arr_sum kern2d) ;;
  normalize q.

(** ** heatmap_generation (lines 89-103) *)

Definition rsum (l : list R) : R := fold_right Rplus 0 l.

(** The full discrete convolution of two non-empty 2-D arrays: [out[i][j]] is
    the sum over the image of [image[a][b] * kernel[i-a][j-b]], the kernel
    being zero outside of its support; the output has [H + kh - 1] rows and
    [W + kw - 1] columns. *)
Definition kernel_at (kernel : array2) (i a j b : nat) : R :=
  if (a <=? i)%nat && (b <=? j)%nat then get kernel (i - a) (j - b) else 0.

Definition full_convolution (image kernel : array2) : array2 :=
  let H := length image in
  let W := length (hd [] image) in
  let kh := length kernel in
  let kw := length (hd [] kernel) in
  map (fun i =>
    map (fun j =>
      rsum (map (fun a =>
        rsum (map (fun b => get image a b * kernel_at kernel i a j b) (seq 0 W)))
        (seq 0 H)))
      (seq 0 (W + kw - 1)))
    (seq 0 (H + kh - 1)).

(** [scipy.signal.convolve(image, kernel)], mode [full]; scipy raises
    ValueError on a zero-size input (the kernel that [heatmap_generation]
    passes is never one). *)
Definition convolve (image kernel : array2) : result array2 :=
  match concat image, concat kernel with
  | _ :: _, _ :: _ => Ok (full_convolution image kernel)
  | _, _ => Raise ValueError
  end.

Definition heatmap_generation (image : array2) (kernel_size : nat) : result array2 :=
  kernel <- gkern kernel_size ;;
  map <- convolve image kernel ;;
  normalize map.

(** ** get_midslice_average (lines 180-204)

    [arr] is the array read from [path_im]. *)

(** A Python slice [l[a:b]] with integer bounds: a negative bound counts from
    the end, and both are clamped to the list. *)
Definition slice_bound (i n : Z) : Z :=
  if (i <? 0)%Z then Z.max (i + n) 0 else Z.min i n.

Definition py_slice {A : Type} (l : list A) (a b : Z) : list A :=
  let n := Z.of_nat (length l) in
  let a' := slice_bound a n in
  let b' := slice_bound b n in
  firstn (Z.to_nat (b' - a')) (skipn (Z.to_nat a') l).

(** The two [if]s of lines 198-202, on [arr.shape[0]] and [ind]. *)
Definition numb_of_slice (extent ind : Z) : Z :=
  let numb_of_slice := 3%Z in
  let numb_of_slice :=
    if (ind + 3 <? extent)%Z then (extent - ind)%Z else numb_of_slice in
  let numb_of_slice :=
    if (ind - numb_of_slice <? 0)%Z then ind else numb_of_slice in
  numb_of_slice.

Fixpoint zip_with {A B C : Type} (f : A -> B -> C) (l : list A) (m : list B) : list C :=
  match l, m with
  | x :: l', y :: m' => f x y :: zip_with f l' m'
  | _, _ => []
  end.

(** [np.mean(sub, 0)]: nan when no slice is averaged. *)
Definition mean_axis0 (sub : array3) : result array2 :=
  match sub with
  | [] => Raise NonFinite
  | s0 :: rest =>
      Ok (arr_map (fun v => v / INR (length sub))
            (fold_left (zip_with (zip_with Rplus)) rest s0))
  end.

Definition get_midslice_average (arr : array3) (ind : Z) : result array2 :=
  let n := numb_of_slice (Z.of_nat (length arr)) ind in
  mean_axis0 (py_slice arr (ind - n) (ind + n)).

(** ** extract_all (lines 222-238) *)

Definition zeros (h w : nat) : array2 := repeat (repeat 0 w) h.

(** [mask[w, h]] read as a float. *)
Definition heatmap_get (m : heatmap) (w h : nat) : R :=
  match m with
  | FloatMap a => get a w h
  | ByteMap a => IZR (nth h (nth w a []) 0%Z)
  end.

(** The body of the loop over the points: [label2maskmap_gt] with its default
    arguments ([c_dx=0], [c_dy=0], [radius=10], [normalize=False]), then the
    two loops over [w] and [h]. *)
Definition extract_step (shape_tmp : list nat) (s0 s1 : nat)
  (final : array2) (x : list R) : result array2 :=
  train_lbs_tmp_mask <- label2maskmap_gt x shape_tmp 0 0 10 false ;;
  Ok (map (fun w =>
        map (fun h => Rmax (get final w h) (heatmap_get train_lbs_tmp_mask w h))
          (seq 0 s1))
        (seq 0 s0)).

Fixpoint for_each {A S : Type} (body : S -> A -> result S) (l : list A) (s : S)
  : result S :=
  match l with
  | [] => Ok s
  | x :: l' => s' <- body s x ;; for_each body l' s'
  end.

Definition extract_all (list_coord_label : list (list R)) (shape_im : list nat)
  : result array3 :=
  s0 <- index shape_im 0 ;;
  s1 <- index shape_im 1 ;;
  let shape_tmp := [1%nat; s0; s1] in
  let final := zeros s0 s1 in
  final <- for_each (extract_step shape_tmp s0 s1) list_coord_label final ;;
  Ok [final].

(** ** add_zero_padding (lines 126-146) *)

(** The argument [img_list]: a list of 2-D images, or anything else, which
    the code wraps into a list of one. *)
Inductive img_arg : Type :=
| OneImage (img : array2)
| ImageList (l : list array2).

Definition as_list (img_list : img_arg) : list array2 :=
  match img_list with
  | OneImage img => [img]
  | ImageList l => l
  end.

(** [img.shape[0]] and [img.shape[1]] of a 2-D image (an image without rows
    is taken to have no columns). *)
Definition rows (img : array2) : nat := length img.
Definition cols (img : array2) : nat := length (hd [] img).

(** One turn of the loop: [img_tmp = np.zeros((x_val, y_val, 1))], then
    [img_tmp[0:img.shape[0], 0:img.shape[1], 0] = img].  The slices are
    clamped to [img_tmp]; numpy raises ValueError unless [img] has the shape
    of the clamped target or broadcasts to it (an extent of 1 against an
    empty target). *)
Definition pad_image (x_val y_val : nat) (img : array2) : result array3 :=
  let h := Nat.min (rows img) x_val in
  let w := Nat.min (cols img) y_val in
  if ((rows img =? h)%nat || (rows img =? 1)%nat)
     && ((cols img =? w)%nat || (cols img =? 1)%nat)
  then Ok (map (fun i =>
             map (fun j => [if (i <? h)%nat && (j <? w)%nat then get img i j else 0])
               (seq 0 y_val))
             (seq 0 x_val))
  else Raise ValueError.

Fixpoint map_result {A B : Type} (f : A -> result B) (l : list A) : result (list B) :=
  match l with
  | [] => Ok []
  | x :: l' => y <- f x ;; ys <- map_result f l' ;; Ok (y :: ys)
  end.

Definition add_zero_padding (img_list : img_arg) (x_val y_val : nat)
  : result (list array3) :=
  map_result (pad_image x_val y_val) (as_list img_list).

(** ** mask2label (lines 149-177)

    [arr] is the array read from [path_label]; a point is the Python list
    [[x, y, z, arr[x, y, z]]]. *)

Definition volume := list (list (list Z)).

Definition enumerate {A : Type} (l : list A) : list (nat * A) :=
  combine (seq 0 (length l)) l.

(** [arr[x, y, z]]. *)
Definition voxel (arr : volume) (x y z : nat) : Z :=
  nth z (nth y (nth x arr []) []) 0%Z.

(** [arr.nonzero()]: the indices of the non-zero voxels, in row-major order. *)
Definition nonzero (arr : volume) : list (nat * nat * nat) :=
  flat_map (fun xp =>
    flat_map (fun yr =>
      flat_map (fun zv =>
        if (snd zv =? 0)%Z then [] else [(fst xp, fst yr, fst zv)])
        (enumerate (snd yr)))
      (enumerate (snd xp)))
    (enumerate arr).

(** [x[3]], the key of the sort. *)
Definition label_value (p : list Z) : Z := nth 3 p 0%Z.

(** [list.sort(key=...)] is a stable sort: a point is put in front of the
    first point of the sorted rest whose key is not smaller. *)
Fixpoint insert_by_value (p : list Z) (l : list (list Z)) : list (list Z) :=
  match l with
  | [] => [p]
  | q :: l' =>
      if (label_value p <=? label_value q)%Z then p :: l
      else q :: insert_by_value p l'
  end.

Definition sort_by_value (l : list (list Z)) : list (list Z) :=
  fold_right insert_by_value [] l.

(** What one turn of the loop appends for the voxel [(x, y, z)]. *)
Definition selected (arr : volume) (aim : string) (xyz : nat * nat * nat)
  : list (list Z) :=
  let '(x, y, z) := xyz in
  let v := voxel arr x y z in
  let point := [Z.of_nat x; Z.of_nat y; Z.of_nat z; v] in
  if String.eqb aim "full" then
    if (v <? 30)%Z && negb (v =? 1)%Z then [point] else []
  else if String.eqb aim "c2" then
    if (v =? 3)%Z then [point] else []
  else [].

Definition mask2label (arr : volume) (aim : string) : list (list Z) :=
  let list_label_image := flat_map (selected arr aim) (nonzero arr) in
  sort_by_value list_label_image.

(** ** images_normalization (lines 207-219) *)

(** [np.mean] and [np.std] of a whole array. *)
Definition np_mean (a : array2) : R := arr_sum a / INR (length (concat a)).

Definition np_std (a : array2) : R :=
  sqrt (np_mean (arr_map (fun v => Rabs (v - np_mean a) ^ 2) a)).

(** One turn of the loop.  Nothing is computed for a zero-size image, which
    comes back as it is; [img_std + epsilon] is never zero. *)
Definition normalize_image (std : bool) (img0 : array2) : array2 :=
  let img := arr_map (fun v => v - np_mean img0) img0 in
  if std then
    let img_std := np_std img in
    let epsilon := 1 / 10 ^ 100 in
    arr_map (fun v => v / (img_std + epsilon)) img
  else img.

Definition images_normalization (img_list : img_arg) (std : bool) : list array2 :=
  map (normalize_image std) (as_list img_list).

(** ** Statement vocabulary *)

(** The covariance [np.array([[radius, 0], [0, radius]])]. *)
Definition isotropic (radius : R) : mat2 := ((radius, 0), (0, radius)).

(** Entry [(i, j)] of a grid, when there is one. *)
Definition grid_at {A : Type} (g : list (list A)) (i j : nat) : option A :=
  match nth_error g i with
  | Some row => nth_error row j
  | None => None
  end.

Definition sqdist (p q : vec2) : R :=
  (fst p - fst q) * (fst p - fst q) + (snd p - snd q) * (snd p - snd q).

(** Euclidean distance. *)
Definition dist (p q : vec2) : R := sqrt (sqdist p q).

(** What [multivariate_gaussian] computes at [p] for [isotropic radius]. *)
Definition density (radius : R) (mu p : vec2) : R :=
  exp (- (sqdist p mu / radius) / 2) / (2 * PI * Rabs radius).

(** The mean [(x, y)] that [label2maskmap_gt] reads from [data], before the
    shift: [(data[2], data[1])], after a [0] is put in front of a point of
    two components. *)
Definition point_xy (data : list R) : vec2 :=
  if (length data <=? 2)%nat then (nth 1 data 0, nth 0 data 0)
  else (nth 2 data 0, nth 1 data 0).

(** The grid [pos] of an [N] x [M] image: [pos[r][c] = (c, r)]. *)
Definition pixel_grid (N M : nat) : list (list vec2) :=
  map (fun r => map (fun c => (INR c, INR r)) (seq 0 M)) (seq 0 N).

(** The peak scaling at the end of [label2maskmap_gt], for both values of
    [normalize]. *)
Definition peak_scaling (Z : array2) (normalize : bool) : result heatmap :=
  if normalize then
    m <- arr_max Z ;;
    s <- np_div 1 m ;;
    Ok (FloatMap (arr_map (fun v => v * s) Z))
  else
    m <- arr_max Z ;;
    s <- np_div 1 m ;;
    let Z := arr_map (fun v => v * s) Z in
    Ok (ByteMap (map (map (fun v => to_uint8 (v * 255))) Z)).

(** What [multivariate_gaussian_underflow] computes at [p] for
    [isotropic radius]. *)
Definition density_underflow (radius : R) (mu p : vec2) : R :=
  underflow (underflow (exp (- (sqdist p mu / radius) / 2)) / (2 * PI * Rabs radius)).

(** The peak scaling at the end of [label2maskmap_gt_underflow]. *)
Definition peak_scaling_underflow (Z : array2) (normalize : bool) : result heatmap :=
  if normalize then
    m <- arr_max Z ;;
    s <- (q <- np_div 1 m ;; overflow q) ;;
    Ok (FloatMap (arr_map (fun v => underflow (v * s)) Z))
  else
    m <- arr_max Z ;;
    s <- (q <- np_div 1 m ;; overflow q) ;;
    let Z := arr_map (fun v => underflow (v * s)) Z in
    Ok (ByteMap (map (map (fun v => to_uint8 (v * 255))) Z)).

(** A radius whose square and whose product with [2 * pi] are well inside the
    float64 range. *)
Definition moderate (radius : R) : Prop := / 2 ^ 500 <= radius <= 2 ^ 500.

(** The window of [get_midslice_average] as the specification words it, for
    comparison with [numb_of_slice]: half-width 3, shrunk to
    [extent - index] if [index + 3] exceeds the extent, then to [index] if
    [index - window < 0]. *)
Definition numb_of_slice_spec (extent ind : Z) : Z :=
  let window := 3%Z in
  let window := if (extent <? ind + 3)%Z then (extent - ind)%Z else window in
  let window := if (ind - window <? 0)%Z then ind else window in
  window.

Definition get_midslice_average_spec (arr : array3) (ind : Z) : result array2 :=
  let n := numb_of_slice_spec (Z.of_nat (length arr)) ind in
  mean_axis0 (py_slice arr (ind - n) (ind + n)).

(** A volume of ten 1x1 slices, the first of value 10, the others 0. *)
Definition ten_slices : array3 := [[10]] :: repeat [[0]] 9.

(** The [h] x [w] array with entry [F i j] at [(i, j)]. *)
Definition tabulate2 {A : Type} (h w : nat) (F : nat -> nat -> A) : list (list A) :=
  map (fun i => map (fun j => F i j) (seq 0 w)) (seq 0 h).

(** Entry [i] of [kern1d] in [gkern k]: the probability of the [i]-th of the
    [k] equal parts of the interval from 0 to 1. *)
Definition bin (k i : nat) : R :=
  norm_cdf (INR (S i) / INR k) - norm_cdf (INR i / INR k).

(** The kernel [gkern k] returns for [k >= 2]. *)
Definition gkern_value (k : nat) : array2 :=
  tabulate2 k k (fun i j =>
    (bin k i * bin k j - bin k (k - 1) * bin k (k - 1))
    / (bin k 0 * bin k 0 - bin k (k - 1) * bin k (k - 1))).


(** The binary [H] x [W] image of a single point label at [(pi, pj)]. *)
Definition point_image (H W pi pj : nat) : array2 :=
  tabulate2 H W (fun a b => if (a =? pi)%nat && (b =? pj)%nat then 1 else 0).

(** The heatmap of one point in [extract_all], an 8-bit array, and its entry
    [(w, h)] read as a float. *)
Definition point_mask (s0 s1 : nat) (x : list R) : list (list Z) :=
  match label2maskmap_gt x [1%nat; s0; s1] 0 0 10 false with
  | Ok (ByteMap a) => a
  | _ => []
  end.

Definition mask_at (s0 s1 : nat) (x : list R) (w h : nat) : R :=
  IZR (nth h (nth w (point_mask s0 s1 x) []) 0%Z).

(** Entry [[i, j, 0]] of a padded image. *)
Definition cell (a : array3) (i j : nat) : R := nth 0 (nth j (nth i a []) []) 0.

(** A padded image has [x_val] rows of [y_val] cells of one value. *)
Definition padded_shape (a : array3) (x_val y_val : nat) : Prop :=
  length a = x_val /\
  forall row, In row a ->
    length row = y_val /\ forall c, In c row -> length c = 1%nat.

(** A label point of [mask2label] as the list of floats [extract_all] and
    [label2maskmap_gt] read. *)
Definition point_data (p : list Z) : list R := map IZR p.

(** The selection of [mask2label]: ['full'] keeps the values below 30 other
    than 1, ['c2'] the value 3, any other [aim] nothing. *)
Definition keeps (aim : string) (v : Z) : Prop :=
  (aim = "full"%string /\ (v < 30)%Z /\ v <> 1%Z) \/ (aim = "c2"%string /\ v = 3%Z).

(** What [pad_image] returns for an image that fits. *)
Definition padded (x_val y_val : nat) (img : array2) : array3 :=
  tabulate2 x_val y_val (fun i j =>
    [if (i <? rows img)%nat && (j <? cols img)%nat then get img i j else 0]).

(** The order of the sort of [mask2label]. *)
Definition value_le (p q : list Z) : Prop := (label_value p <= label_value q)%Z.

(** * Proofs *)

(** ** Results *)

Lemma bind_Ok {A B : Type} (r : result A) (k : A -> result B) (b : B) :
  bind r k = Ok b -> exists a, r = Ok a /\ k a = Ok b.
Proof.
  destruct r as [a | e]; simpl; intro H; [exists a; auto | discriminate].
Qed.

(** ** Maximum and minimum of a list *)

Lemma fold_left_Rmax_ge (t : list R) (x : R) :
  x <= fold_left Rmax t x /\ forall v, In v t -> v <= fold_left Rmax t x.
Proof.
  revert x; induction t as [| y t IH]; intro x; simpl.
  - split; [lra | tauto].
  - destruct (IH (Rmax x y)) as [H1 H2]. split.
    + pose proof (Rmax_l x y); lra.
    + intros v [-> | Hv]; [pose proof (Rmax_r x v); lra | auto].
Qed.

Lemma fold_left_Rmax_in (t : list R) (x : R) :
  fold_left Rmax t x = x \/ In (fold_left Rmax t x) t.
Proof.
  revert x; induction t as [| y t IH]; intro x; simpl; [auto |].
  destruct (IH (Rmax x y)) as [H | H]; [| auto].
  rewrite H. unfold Rmax. destruct (Rle_dec x y); auto.
Qed.

Lemma fold_left_Rmin_le (t : list R) (x : R) :
  fold_left Rmin t x <= x /\ forall v, In v t -> fold_left Rmin t x <= v.
Proof.
  revert x; induction t as [| y t IH]; intro x; simpl.
  - split; [lra | tauto].
  - destruct (IH (Rmin x y)) as [H1 H2]. split.
    + pose proof (Rmin_l x y); lra.
    + intros v [-> | Hv]; [pose proof (Rmin_r x v); lra | auto].
Qed.

Lemma fold_left_Rmin_in (t : list R) (x : R) :
  fold_left Rmin t x = x \/ In (fold_left Rmin t x) t.
Proof.
  revert x; induction t as [| y t IH]; intro x; simpl; [auto |].
  destruct (IH (Rmin x y)) as [H | H]; [| auto].
  rewrite H. unfold Rmin. destruct (Rle_dec x y); auto.
Qed.

Lemma list_max_spec (l : list R) (m : R) :
  list_max l = Ok m <-> In m l /\ forall v, In v l -> v <= m.
Proof.
  destruct l as [| x t]; simpl.
  - split; [discriminate | tauto].
  - pose proof (fold_left_Rmax_ge t x) as [Hx Ht].
    pose proof (fold_left_Rmax_in t x) as Hin.
    split.
    + intro H; injection H as <-. split.
      * destruct Hin as [E | E]; [left; symmetry; exact E | right; exact E].
      * intros v [<- | Hv]; auto.
    + intros [Hm Hub]. f_equal. apply Rle_antisym.
      * destruct Hin as [-> | Hin]; [apply Hub; auto | apply Hub; auto].
      * destruct Hm as [<- | Hm]; auto.
Qed.

Lemma list_min_spec (l : list R) (m : R) :
  list_min l = Ok m <-> In m l /\ forall v, In v l -> m <= v.
Proof.
  destruct l as [| x t]; simpl.
  - split; [discriminate | tauto].
  - pose proof (fold_left_Rmin_le t x) as [Hx Ht].
    pose proof (fold_left_Rmin_in t x) as Hin.
    split.
    + intro H; injection H as <-. split.
      * destruct Hin as [E | E]; [left; symmetry; exact E | right; exact E].
      * intros v [<- | Hv]; auto.
    + intros [Hm Hlb]. f_equal. apply Rle_antisym.
      * destruct Hm as [<- | Hm]; auto.
      * destruct Hin as [-> | Hin]; [apply Hlb; auto | apply Hlb; auto].
Qed.

Lemma list_max_nonempty (l : list R) :
  l <> [] -> exists m, list_max l = Ok m.
Proof. destruct l; [congruence | simpl; eauto]. Qed.

Lemma list_min_nonempty (l : list R) :
  l <> [] -> exists m, list_min l = Ok m.
Proof. destruct l; [congruence | simpl; eauto]. Qed.

(** ** Grids *)

Lemma grid_at_In {A : Type} (g : list (list A)) (i j : nat) (p : A) :
  grid_at g i j = Some p -> In p (concat g).
Proof.
  unfold grid_at. destruct (nth_error g i) as [row |] eqn:E; [| discriminate].
  intro H. apply in_concat. exists row. split; eauto using nth_error_In.
Qed.


Lemma grid_at_map {A B : Type} (f : A -> B) (g : list (list A)) (i j : nat) :
  grid_at (map (map f) g) i j = option_map f (grid_at g i j).
Proof.
  unfold grid_at. rewrite nth_error_map.
  destruct (nth_error g i) as [row |]; simpl; [apply nth_error_map | reflexivity].
Qed.

Lemma grid_at_get (a : array2) (i j : nat) (v : R) :
  grid_at a i j = Some v -> get a i j = v.
Proof.
  unfold grid_at, get. destruct (nth_error a i) as [row |] eqn:E; [| discriminate].
  intro H. rewrite (nth_error_nth _ _ _ E). now apply nth_error_nth.
Qed.

Lemma In_concat_map {A B : Type} (f : A -> B) (g : list (list A)) (v : B) :
  In v (concat (map (map f) g)) <-> exists p, In p (concat g) /\ v = f p.
Proof.
  split.
  - intro H. apply in_concat in H as (row & Hrow & Hv).
    apply in_map_iff in Hrow as (row0 & <- & Hrow0).
    apply in_map_iff in Hv as (p & <- & Hp).
    exists p. split; [apply in_concat; eauto | reflexivity].
  - intros (p & Hp & ->). apply in_concat in Hp as (row & Hrow & Hp).
    apply in_concat. exists (map f row). split; apply in_map; assumption.
Qed.

(** ** multivariate_gaussian on an isotropic covariance *)

Lemma isotropic_norm (radius : R) :
  sqrt ((2 * PI) ^ 2 * det (isotropic radius)) = 2 * PI * Rabs radius.
Proof.
  unfold isotropic, det.
  replace ((2 * PI) ^ 2 * (radius * radius - 0 * 0)) with (Rsqr (2 * PI * radius))
    by (unfold Rsqr; ring).
  rewrite sqrt_Rsqr_abs, Rabs_mult. f_equal.
  apply Rabs_pos_eq. pose proof PI_RGT_0; lra.
Qed.

Lemma isotropic_norm_pos (radius : R) :
  radius <> 0 -> 0 < 2 * PI * Rabs radius.
Proof.
  intro H. pose proof PI_RGT_0. pose proof (Rabs_pos_lt radius H). nra.
Qed.

Lemma multivariate_gaussian_isotropic (pos : list (list vec2)) (mu : vec2) (radius : R) :
  radius <> 0 ->
  multivariate_gaussian pos mu (isotropic radius)
  = Ok (map (map (density radius mu)) pos).
Proof.
  intro Hr. unfold multivariate_gaussian.
  assert (Hd : det (isotropic radius) <> 0) by (unfold isotropic, det; nra).
  unfold inv. unfold isotropic at 1. cbv iota beta.
  destruct (Req_dec_T (det (isotropic radius)) 0) as [E | _]; [contradiction |].
  cbn [bind]. unfold np_sqrt.
  destruct (Rlt_dec ((2 * PI) ^ 2 * det (isotropic radius)) 0) as [Hneg | _].
  { exfalso. unfold isotropic, det in Hneg. pose proof PI_RGT_0. nra. }
  cbn [bind]. f_equal. apply map_ext; intro row. apply map_ext; intro p.
  rewrite isotropic_norm. unfold density. f_equal. f_equal.
  unfold einsum, vsub, sqdist, isotropic, det in *. cbn [fst snd].
  field. auto.
Qed.

Lemma multivariate_gaussian_singular (pos : list (list vec2)) (mu : vec2) :
  multivariate_gaussian pos mu (isotropic 0) = Raise LinAlgError.
Proof.
  unfold multivariate_gaussian, inv. unfold isotropic at 1. cbv iota beta.
  destruct (Req_dec_T (det (isotropic 0)) 0) as [_ | H]; [reflexivity |].
  exfalso. apply H. unfold isotropic, det. ring.
Qed.

Lemma density_pos (radius : R) (mu p : vec2) :
  radius <> 0 -> 0 < density radius mu p.
Proof.
  intro H. unfold density. apply Rdiv_lt_0_compat;
    [apply exp_pos | now apply isotropic_norm_pos].
Qed.

Lemma sqdist_nonneg (p q : vec2) : 0 <= sqdist p q.
Proof.
  unfold sqdist.
  pose proof (Rle_0_sqr (fst p - fst q)); pose proof (Rle_0_sqr (snd p - snd q)).
  unfold Rsqr in *. lra.
Qed.

Lemma sqdist_self (p : vec2) : sqdist p p = 0.
Proof. unfold sqdist. ring. Qed.

Lemma dist_le_sqdist (p q mu : vec2) :
  dist p mu <= dist q mu -> sqdist p mu <= sqdist q mu.
Proof.
  unfold dist. intro H.
  destruct (Rle_dec (sqdist p mu) (sqdist q mu)) as [|Hn]; [assumption |].
  exfalso. apply Rnot_le_lt in Hn.
  assert (sqrt (sqdist q mu) < sqrt (sqdist p mu)); [| lra].
  apply sqrt_lt_1_alt. split; [apply sqdist_nonneg | assumption].
Qed.

Lemma density_decreasing (radius : R) (mu p q : vec2) :
  0 < radius -> sqdist p mu < sqdist q mu ->
  density radius mu q < density radius mu p.
Proof.
  intros Hr Hpq. unfold density.
  assert (HN : 0 < / (2 * PI * Rabs radius)).
  { apply Rinv_0_lt_compat, isotropic_norm_pos; lra. }
  unfold Rdiv at 1 3. apply Rmult_lt_compat_r; [exact HN |].
  apply exp_increasing.
  assert (sqdist p mu / radius < sqdist q mu / radius).
  { unfold Rdiv. apply Rmult_lt_compat_r; [apply Rinv_0_lt_compat; lra | lra]. }
  lra.
Qed.

Lemma density_le_mean (radius : R) (mu p : vec2) :
  0 < radius -> density radius mu p <= density radius mu mu.
Proof.
  intro Hr. pose proof (sqdist_nonneg p mu) as H.
  destruct H as [H | H].
  - left. apply density_decreasing; [exact Hr | now rewrite sqdist_self].
  - right. unfold density. rewrite <- H, sqdist_self. reflexivity.
Qed.

(** ** The grid of label2maskmap_gt *)

Lemma linspace_pixels (M : nat) : linspace 0 (INR M - 1) M = map INR (seq 0 M).
Proof.
  unfold linspace. apply map_ext_in. intros i Hi. apply in_seq in Hi.
  destruct M as [| [| M']]; [lia | |].
  - assert (i = 0%nat) as -> by lia. simpl. ring.
  - replace (S (S M') - 1)%nat with (S M') by lia.
    rewrite (S_INR (S M')).
    assert (0 < INR (S M')) by (apply lt_0_INR; lia).
    field. lra.
Qed.

Lemma meshgrid_pixels (N M : nat) :
  meshgrid_pos (linspace 0 (INR M - 1) M) (linspace 0 (INR N - 1) N) = pixel_grid N M.
Proof.
  unfold meshgrid_pos, pixel_grid. rewrite !linspace_pixels, map_map.
  apply map_ext; intro r. now rewrite map_map.
Qed.

Lemma grid_at_pixel (N M r c : nat) :
  (r < N)%nat -> (c < M)%nat -> grid_at (pixel_grid N M) r c = Some (INR c, INR r).
Proof.
  intros Hr Hc. unfold grid_at, pixel_grid.
  rewrite nth_error_map, nth_error_seq.
  destruct (Nat.ltb_spec r N) as [_ | ?]; [| lia]. simpl.
  rewrite nth_error_map, nth_error_seq.
  destruct (Nat.ltb_spec c M) as [_ | ?]; [| lia]. reflexivity.
Qed.

Lemma pixel_grid_nonempty (N M : nat) :
  (1 <= N)%nat -> (1 <= M)%nat -> concat (pixel_grid N M) <> [].
Proof.
  intros HN HM E.
  pose proof (grid_at_In _ _ _ _ (grid_at_pixel N M 0 0 HN HM)) as H.
  rewrite E in H. exact H.
Qed.

Lemma index_raise {A : Type} (l : list A) (i : nat) (e : error) :
  index l i = Raise e -> e = IndexError.
Proof. unfold index. destruct (nth_error l i); congruence. Qed.

Lemma index_nth (l : list R) (i : nat) :
  (i < length l)%nat -> index l i = Ok (nth i l 0).
Proof.
  intro H. unfold index.
  destruct (nth_error l i) as [v |] eqn:E.
  - now rewrite (nth_error_nth _ _ _ E).
  - apply nth_error_None in E. lia.
Qed.

Lemma label2maskmap_gt_unfold (data : list R) (shape : list nat)
  (c_dx c_dy radius : R) (normalize : bool) (N M : nat) :
  (2 <= length data)%nat -> index shape 2 = Ok M -> index shape 1 = Ok N ->
  radius <> 0 ->
  label2maskmap_gt data shape c_dx c_dy radius normalize
  = peak_scaling
      (map (map (density radius (fst (point_xy data) + c_dx, snd (point_xy data) + c_dy)))
         (pixel_grid N M))
      normalize.
Proof.
  intros Hlen HM HN Hr. unfold label2maskmap_gt, point_xy.
  rewrite HM, HN. cbn [bind].
  destruct (Nat.leb_spec (length data) 2) as [Hle | Hgt].
  - rewrite (index_nth data 0), (index_nth data 1) by lia. cbn [bind].
    change (index [0; nth 0 data 0; nth 1 data 0] 2) with (Ok (nth 1 data 0)).
    change (index [0; nth 0 data 0; nth 1 data 0] 1) with (Ok (nth 0 data 0)).
    cbn [bind fst snd].
    rewrite meshgrid_pixels.
    change ((radius, 0), (0, radius)) with (isotropic radius).
    rewrite multivariate_gaussian_isotropic by assumption. reflexivity.
  - cbn [bind]. rewrite (index_nth data 2), (index_nth data 1) by lia.
    cbn [bind fst snd].
    rewrite meshgrid_pixels.
    change ((radius, 0), (0, radius)) with (isotropic radius).
    rewrite multivariate_gaussian_isotropic by assumption. reflexivity.
Qed.

(** ** Peak scaling *)

Lemma arr_max_map_mono (f : R -> R) (a : array2) (m : R) :
  (forall u v, u <= v -> f u <= f v) ->
  arr_max a = Ok m -> arr_max (arr_map f a) = Ok (f m).
Proof.
  unfold arr_max, arr_map. intros Hf H.
  apply list_max_spec in H as [Hin Hub]. apply list_max_spec. split.
  - apply In_concat_map. eauto.
  - intros v Hv. apply In_concat_map in Hv as (u & Hu & ->). auto.
Qed.

Lemma arr_max_positive (a : array2) :
  concat a <> [] -> (forall v, In v (concat a) -> 0 < v) ->
  exists m, arr_max a = Ok m /\ 0 < m.
Proof.
  intros Hne Hpos. destruct (list_max_nonempty _ Hne) as [m Hm].
  exists m. split; [exact Hm |]. apply list_max_spec in Hm as [Hin _]. auto.
Qed.

Lemma np_div_ok (a b : R) : b <> 0 -> np_div a b = Ok (a / b).
Proof. intro H. unfold np_div. destruct (Req_dec_T b 0); [contradiction | reflexivity]. Qed.

Lemma Rtrunc_IZR (z : Z) : (0 <= z)%Z -> Rtrunc (IZR z) = z.
Proof.
  intro H. unfold Rtrunc. destruct (Rle_dec 0 (IZR z)) as [_ | Hn].
  - symmetry. apply Int_part_spec. lra.
  - exfalso. apply Hn. now apply IZR_le.
Qed.

Lemma Rtrunc_bounds (r : R) (n : Z) :
  0 <= r <= IZR n -> (0 <= Rtrunc r <= n)%Z.
Proof.
  intros [H0 Hn]. unfold Rtrunc. destruct (Rle_dec 0 r) as [_ | ?]; [| contradiction].
  destruct (base_Int_part r) as [Hle Hgt]. split.
  - assert (H : IZR (-1) < IZR (Int_part r)) by lra.
    apply lt_IZR in H. lia.
  - apply le_IZR. lra.
Qed.

Lemma to_uint8_monotone_range (v : R) :
  0 <= v <= 1 -> (0 <= to_uint8 (v * 255) <= 255)%Z.
Proof.
  intro H. unfold to_uint8.
  assert (Hb : (0 <= Rtrunc (v * 255) <= 255)%Z) by (apply Rtrunc_bounds; lra).
  rewrite Z.mod_small; lia.
Qed.

Lemma to_uint8_255 : to_uint8 (1 * 255) = 255%Z.
Proof.
  unfold to_uint8. replace (1 * 255) with (IZR 255) by (simpl; ring).
  rewrite Rtrunc_IZR by lia. reflexivity.
Qed.

(** What [peak_scaling] returns on an array of positive values. *)
Lemma peak_scaling_positive (Z : array2) :
  concat Z <> [] -> (forall v, In v (concat Z) -> 0 < v) ->
  exists m, arr_max Z = Ok m /\ 0 < m /\ np_div 1 m = Ok (1 / m) /\
    peak_scaling Z true = Ok (FloatMap (arr_map (fun v => v * (1 / m)) Z)) /\
    peak_scaling Z false
    = Ok (ByteMap (map (map (fun v => to_uint8 (v * 255)))
                     (arr_map (fun v => v * (1 / m)) Z))).
Proof.
  intros Hne Hpos. destruct (arr_max_positive Z Hne Hpos) as (m & Hm & Hm0).
  assert (Hdiv : np_div 1 m = Ok (1 / m)) by (apply np_div_ok; lra).
  exists m. unfold peak_scaling. rewrite Hm. cbn [bind]. rewrite Hdiv. cbn [bind].
  auto.
Qed.

Lemma density_grid_positive (radius : R) (mu : vec2) (pos : list (list vec2)) (v : R) :
  radius <> 0 -> In v (concat (map (map (density radius mu)) pos)) -> 0 < v.
Proof.
  intros Hr Hv. apply In_concat_map in Hv as (p & _ & ->). now apply density_pos.
Qed.

Lemma map_map_nonempty {A B : Type} (f : A -> B) (g : list (list A)) :
  concat g <> [] -> concat (map (map f) g) <> [].
Proof.
  intros Hne E. destruct (concat g) as [| p l] eqn:Eg; [congruence |].
  assert (Hp : In p (concat g)) by (rewrite Eg; simpl; auto).
  assert (H : In (f p) (concat (map (map f) g))) by (apply In_concat_map; eauto).
  rewrite E in H. exact H.
Qed.

(** ** Non-positive radius *)

(** C9 fails as stated: with the radius -1 the evaluator returns a value. *)
Lemma multivariate_gaussian_negative_radius_value :
  multivariate_gaussian [[(0, 0)]] (0, 0) (isotropic (-1)) = Ok [[1 / (2 * PI)]].
Proof.
  rewrite multivariate_gaussian_isotropic by lra. simpl. do 3 f_equal.
  unfold density. rewrite sqdist_self.
  replace (- (0 / -1) / 2) with 0 by field. rewrite exp_0.
  rewrite Rabs_left by lra. f_equal. ring.
Qed.

(** C9, as the code behaves: with [radius = 0] the evaluator fails
    ([np.linalg.inv] raises on the singular covariance); with a negative
    radius nothing is rejected and every grid point gets the positive value
    [exp (- (|p - mu|^2 / radius) / 2) / (2 * PI * |radius|)]. *)
Theorem multivariate_gaussian_nonpositive_radius
  (pos : list (list vec2)) (mu : vec2) (radius : R) :
  radius <= 0 ->
  (radius = 0 /\ multivariate_gaussian pos mu (isotropic radius) = Raise LinAlgError) \/
  (radius < 0 /\
   multivariate_gaussian pos mu (isotropic radius)
   = Ok (map (map (fun p => exp (- (sqdist p mu / radius) / 2) / (2 * PI * Rabs radius))) pos) /\
   forall p, 0 < exp (- (sqdist p mu / radius) / 2) / (2 * PI * Rabs radius)).
Proof.
  intros [Hneg | ->].
  - right. split; [assumption |]. split.
    + apply multivariate_gaussian_isotropic. lra.
    + intro p. apply (density_pos radius mu p). lra.
  - left. split; [reflexivity | apply multivariate_gaussian_singular].
Qed.

Lemma multivariate_gaussian_nonpositive_radius_witness :
  (-1 = 0 /\ multivariate_gaussian [[(3, 4)]] (0, 0) (isotropic (-1)) = Raise LinAlgError) \/
  (-1 < 0 /\
   multivariate_gaussian [[(3, 4)]] (0, 0) (isotropic (-1))
   = Ok (map (map (fun p => exp (- (sqdist p (0, 0) / -1) / 2) / (2 * PI * Rabs (-1))))
           [[(3, 4)]]) /\
   forall p, 0 < exp (- (sqdist p (0, 0) / -1) / 2) / (2 * PI * Rabs (-1))).
Proof.
  apply (multivariate_gaussian_nonpositive_radius [[(3, 4)]] (0, 0) (-1)). lra.
Defined.

(** ** get_midslice_average *)

Lemma numb_of_slice_interior (extent ind : Z) :
  (0 <= ind)%Z -> (ind + 3 < extent)%Z ->
  numb_of_slice extent ind = Z.min ind (extent - ind).
Proof.
  intros H0 H3. unfold numb_of_slice.
  destruct (Z.ltb_spec (ind + 3) extent) as [_ | ?]; [| lia].
  destruct (Z.ltb_spec (ind - (extent - ind)) 0); lia.
Qed.

Lemma numb_of_slice_at_zero (extent : Z) : numb_of_slice extent 0 = 0%Z.
Proof.
  unfold numb_of_slice.
  destruct (Z.ltb_spec (0 + 3) extent).
  - destruct (Z.ltb_spec (0 - (extent - 0)) 0); lia.
  - reflexivity.
Qed.

(** C3: the code's first test is [ind + 3 < arr.shape[0]], the opposite of
    the claim's "index + 3 exceeds the extent".  On ten slices and index 5
    the code takes the half-width 5 and averages all ten slices, where the
    claim's window has half-width 3 and averages [arr[2:8]]. *)
Theorem get_midslice_average_window_reversed :
  numb_of_slice 10 5 = 5%Z /\
  numb_of_slice_spec 10 5 = 3%Z /\
  get_midslice_average ten_slices 5 = Ok [[1]] /\
  get_midslice_average_spec ten_slices 5 = Ok [[0]].
Proof.
  split; [reflexivity | split; [reflexivity | split]].
  - unfold get_midslice_average, ten_slices. simpl. do 3 f_equal. lra.
  - unfold get_midslice_average_spec, ten_slices. simpl. do 3 f_equal. lra.
Qed.

(** C4: at index 0 the window is clamped to 0, the slice [arr[0:0]] is empty
    and its mean is not a number, for every volume: the result is never
    [volume[0,:,:]]. *)
Theorem get_midslice_average_at_zero (arr : array3) :
  get_midslice_average arr 0 = Raise NonFinite.
Proof.
  unfold get_midslice_average. rewrite numb_of_slice_at_zero.
  unfold py_slice. simpl (0 - 0)%Z. simpl (0 + 0)%Z.
  replace (slice_bound 0 (Z.of_nat (length arr))) with 0%Z
    by (unfold slice_bound; simpl; lia).
  reflexivity.
Qed.

(** ** The normal distribution on the non-negative half line *)

Lemma norm_pdf_pos (t : R) : 0 < norm_pdf t.
Proof.
  unfold norm_pdf. apply Rdiv_lt_0_compat; [apply exp_pos |].
  apply sqrt_lt_R0. pose proof PI_RGT_0. lra.
Qed.

Lemma norm_pdf_decreasing (s t : R) : 0 <= s < t -> norm_pdf t < norm_pdf s.
Proof.
  intros [Hs Hst]. unfold norm_pdf, Rdiv.
  apply Rmult_lt_compat_r.
  - apply Rinv_0_lt_compat, sqrt_lt_R0. pose proof PI_RGT_0. lra.
  - apply exp_increasing. nra.
Qed.

Lemma norm_pdf_decreasing_le (s t : R) : 0 <= s <= t -> norm_pdf t <= norm_pdf s.
Proof.
  intros [Hs [Hst | ->]]; [left; apply norm_pdf_decreasing; lra | right; reflexivity].
Qed.

Lemma norm_cdf_diff (a b : R) :
  norm_cdf b - norm_cdf a = RiemannInt (norm_pdf_integrable a b).
Proof.
  unfold norm_cdf.
  rewrite <- (RiemannInt_P26 (norm_pdf_integrable 0 a) (norm_pdf_integrable a b)
                 (norm_pdf_integrable 0 b)).
  ring.
Qed.

Lemma norm_pdf_integral_ge (a b c : R) :
  a <= b -> (forall x, a < x < b -> c <= norm_pdf x) ->
  c * (b - a) <= RiemannInt (norm_pdf_integrable a b).
Proof.
  intros Hab Hc. rewrite <- (RiemannInt_P15 (RiemannInt_P14 a b c)).
  apply RiemannInt_P19; [exact Hab | intros x Hx; unfold fct_cte; auto].
Qed.

Lemma norm_pdf_integral_le (a b c : R) :
  a <= b -> (forall x, a < x < b -> norm_pdf x <= c) ->
  RiemannInt (norm_pdf_integrable a b) <= c * (b - a).
Proof.
  intros Hab Hc. rewrite <- (RiemannInt_P15 (RiemannInt_P14 a b c)).
  apply RiemannInt_P19; [exact Hab | intros x Hx; unfold fct_cte; auto].
Qed.

Lemma norm_pdf_integral_split (a m b : R) :
  RiemannInt (norm_pdf_integrable a b)
  = RiemannInt (norm_pdf_integrable a m) + RiemannInt (norm_pdf_integrable m b).
Proof. symmetry. apply RiemannInt_P26. Qed.

(** The probability of an interval right of 0 lies strictly between the
    interval's length times the density at its two ends. *)
Lemma norm_cdf_diff_lower (a b : R) :
  0 <= a < b -> norm_pdf b * (b - a) < norm_cdf b - norm_cdf a.
Proof.
  intros [Ha Hab]. rewrite norm_cdf_diff.
  set (m := (a + b) / 2).
  rewrite (norm_pdf_integral_split a m b).
  assert (H1 : norm_pdf m * (m - a) <= RiemannInt (norm_pdf_integrable a m)).
  { apply norm_pdf_integral_ge; [unfold m; lra |].
    intros x Hx. apply norm_pdf_decreasing_le. lra. }
  assert (H2 : norm_pdf b * (b - m) <= RiemannInt (norm_pdf_integrable m b)).
  { apply norm_pdf_integral_ge; [unfold m; lra |].
    intros x Hx. apply norm_pdf_decreasing_le. unfold m in Hx. lra. }
  assert (H3 : norm_pdf b < norm_pdf m) by (apply norm_pdf_decreasing; unfold m; lra).
  assert (H4 : 0 < m - a) by (unfold m; lra).
  assert (norm_pdf b * (m - a) < norm_pdf m * (m - a))
    by (apply Rmult_lt_compat_r; assumption).
  replace (norm_pdf b * (b - a)) with (norm_pdf b * (m - a) + norm_pdf b * (b - m)) by ring.
  lra.
Qed.

Lemma norm_cdf_diff_upper (a b : R) :
  0 <= a < b -> norm_cdf b - norm_cdf a < norm_pdf a * (b - a).
Proof.
  intros [Ha Hab]. rewrite norm_cdf_diff.
  set (m := (a + b) / 2).
  rewrite (norm_pdf_integral_split a m b).
  assert (H1 : RiemannInt (norm_pdf_integrable a m) <= norm_pdf a * (m - a)).
  { apply norm_pdf_integral_le; [unfold m; lra |].
    intros x Hx. apply norm_pdf_decreasing_le. lra. }
  assert (H2 : RiemannInt (norm_pdf_integrable m b) <= norm_pdf m * (b - m)).
  { apply norm_pdf_integral_le; [unfold m; lra |].
    intros x Hx. apply norm_pdf_decreasing_le. unfold m in *. lra. }
  assert (H3 : norm_pdf m < norm_pdf a) by (apply norm_pdf_decreasing; unfold m; lra).
  assert (H4 : 0 < b - m) by (unfold m; lra).
  assert (norm_pdf m * (b - m) < norm_pdf a * (b - m))
    by (apply Rmult_lt_compat_r; assumption).
  replace (norm_pdf a * (b - a)) with (norm_pdf a * (m - a) + norm_pdf a * (b - m)) by ring.
  lra.
Qed.

Lemma norm_cdf_diff_pos (a b : R) : 0 <= a < b -> 0 < norm_cdf b - norm_cdf a.
Proof.
  intro H. pose proof (norm_cdf_diff_lower a b H). pose proof (norm_pdf_pos b).
  assert (0 < norm_pdf b * (b - a)) by (apply Rmult_lt_0_compat; lra). lra.
Qed.

(** Of two adjacent intervals of one length right of 0, the left one is the
    more probable. *)
Lemma norm_cdf_diff_decreasing (a b c : R) :
  0 <= a < b -> c - b = b - a ->
  norm_cdf c - norm_cdf b < norm_cdf b - norm_cdf a.
Proof.
  intros Hab Hc.
  pose proof (norm_cdf_diff_lower a b Hab).
  assert (Hbc : 0 <= b < c) by lra.
  pose proof (norm_cdf_diff_upper b c Hbc). rewrite Hc in *. lra.
Qed.

(** ** Tabulated arrays *)

Lemma grid_at_tabulate2 {A : Type} (h w : nat) (F : nat -> nat -> A) (i j : nat) :
  (i < h)%nat -> (j < w)%nat -> grid_at (tabulate2 h w F) i j = Some (F i j).
Proof.
  intros Hi Hj. unfold grid_at, tabulate2.
  rewrite nth_error_map, nth_error_seq.
  destruct (Nat.ltb_spec i h) as [_ | ?]; [| lia]. simpl.
  rewrite nth_error_map, nth_error_seq.
  destruct (Nat.ltb_spec j w) as [_ | ?]; [| lia]. reflexivity.
Qed.

Lemma get_tabulate2 (h w : nat) (F : nat -> nat -> R) (i j : nat) :
  (i < h)%nat -> (j < w)%nat -> get (tabulate2 h w F) i j = F i j.
Proof. intros Hi Hj. apply grid_at_get. now apply grid_at_tabulate2. Qed.

Lemma get_outside_rows (a : array2) (i j : nat) :
  (length a <= i)%nat -> get a i j = 0.
Proof.
  intro H. unfold get. rewrite (nth_overflow a [] H). now destruct j.
Qed.

Lemma get_tabulate2_outside (h w : nat) (F : nat -> nat -> R) (i j : nat) :
  (h <= i)%nat \/ (w <= j)%nat -> get (tabulate2 h w F) i j = 0.
Proof.
  intro H. destruct (Nat.lt_ge_cases i h) as [Hi | Hi].
  - destruct H as [H | H]; [lia |]. unfold get, tabulate2.
    rewrite (nth_indep _ [] (map (fun j0 => F 0%nat j0) (seq 0 w)))
      by (now rewrite length_map, length_seq).
    rewrite (map_nth (fun i0 => map (fun j0 => F i0 j0) (seq 0 w)) (seq 0 h) 0%nat i).
    apply nth_overflow. now rewrite length_map, length_seq.
  - apply get_outside_rows. unfold tabulate2. now rewrite length_map, length_seq.
Qed.

Lemma In_concat_tabulate2 {A : Type} (h w : nat) (F : nat -> nat -> A) (v : A) :
  In v (concat (tabulate2 h w F)) <-> exists i j, (i < h)%nat /\ (j < w)%nat /\ v = F i j.
Proof.
  unfold tabulate2. split.
  - intro H. apply in_concat in H as (row & Hrow & Hv).
    apply in_map_iff in Hrow as (i & <- & Hi). apply in_map_iff in Hv as (j & <- & Hj).
    apply in_seq in Hi, Hj. exists i, j. repeat split; lia.
  - intros (i & j & Hi & Hj & ->). apply in_concat.
    exists (map (fun j0 => F i j0) (seq 0 w)). split.
    + apply in_map_iff. exists i. split; [reflexivity | apply in_seq; lia].
    + apply in_map_iff. exists j. split; [reflexivity | apply in_seq; lia].
Qed.

Lemma shape2_tabulate2 (h w : nat) (F : nat -> nat -> R) : shape2 (tabulate2 h w F) h w.
Proof.
  unfold shape2, tabulate2. split.
  - now rewrite length_map, length_seq.
  - intros row Hrow. apply in_map_iff in Hrow as (i & <- & _).
    now rewrite length_map, length_seq.
Qed.

Lemma arr_map_tabulate2 (f : R -> R) (h w : nat) (F : nat -> nat -> R) :
  arr_map f (tabulate2 h w F) = tabulate2 h w (fun i j => f (F i j)).
Proof.
  unfold arr_map, tabulate2. rewrite map_map. apply map_ext; intro i.
  now rewrite map_map.
Qed.

Lemma tabulate2_ext {A : Type} (h w : nat) (F G : nat -> nat -> A) :
  (forall i j, (i < h)%nat -> (j < w)%nat -> F i j = G i j) ->
  tabulate2 h w F = tabulate2 h w G.
Proof.
  intro H. unfold tabulate2. apply map_ext_in; intros i Hi. apply in_seq in Hi.
  apply map_ext_in; intros j Hj. apply in_seq in Hj. apply H; lia.
Qed.

Lemma shape2_arr_map (f : R -> R) (a : array2) (h w : nat) :
  shape2 a h w -> shape2 (arr_map f a) h w.
Proof.
  unfold shape2, arr_map. intros [Hh Hw]. split.
  - now rewrite length_map.
  - intros row Hrow. apply in_map_iff in Hrow as (r & <- & Hr).
    rewrite length_map. auto.
Qed.

(** The maximum and the minimum of a tabulated array, from the position where
    they are attained. *)
Lemma arr_max_tabulate2 (h w : nat) (F : nat -> nat -> R) (i0 j0 : nat) :
  (i0 < h)%nat -> (j0 < w)%nat ->
  (forall i j, (i < h)%nat -> (j < w)%nat -> F i j <= F i0 j0) ->
  arr_max (tabulate2 h w F) = Ok (F i0 j0).
Proof.
  intros Hi Hj Hub. apply list_max_spec. split.
  - apply In_concat_tabulate2. eauto.
  - intros v Hv. apply In_concat_tabulate2 in Hv as (i & j & ? & ? & ->). auto.
Qed.

Lemma arr_min_tabulate2 (h w : nat) (F : nat -> nat -> R) (i0 j0 : nat) :
  (i0 < h)%nat -> (j0 < w)%nat ->
  (forall i j, (i < h)%nat -> (j < w)%nat -> F i0 j0 <= F i j) ->
  arr_min (tabulate2 h w F) = Ok (F i0 j0).
Proof.
  intros Hi Hj Hlb. apply list_min_spec. split.
  - apply In_concat_tabulate2. eauto.
  - intros v Hv. apply In_concat_tabulate2 in Hv as (i & j & ? & ? & ->). auto.
Qed.

Lemma map_map_tabulate2 {A B : Type} (f : A -> B) (h w : nat) (F : nat -> nat -> A) :
  map (map f) (tabulate2 h w F) = tabulate2 h w (fun i j => f (F i j)).
Proof.
  unfold tabulate2. rewrite map_map. apply map_ext; intro i. now rewrite map_map.
Qed.

(** ** The one-dimensional kernel of gkern *)

Lemma diff_map_seq (f : nat -> R) (s n : nat) :
  diff (map f (seq s (S n))) = map (fun i => f (S i) - f i) (seq s n).
Proof.
  revert s; induction n as [| n IH]; intro s; [reflexivity |].
  change (seq s (S (S n))) with (s :: seq (S s) (S n)).
  change (seq s (S n)) with (s :: seq (S s) n).
  cbn [map]. rewrite <- IH. reflexivity.
Qed.

Lemma kern1d_bins (k : nat) :
  diff (map norm_cdf (linspace 0 1 (k + 1))) = map (bin k) (seq 0 k).
Proof.
  unfold linspace. rewrite map_map. replace (k + 1)%nat with (S k) by lia.
  rewrite diff_map_seq. apply map_ext; intro i. unfold bin.
  replace (S k - 1)%nat with k by lia.
  f_equal; f_equal; unfold Rdiv; ring.
Qed.

Section Bins.
Variable k : nat.
Hypothesis k_pos : (1 <= k)%nat.

Lemma INR_k_pos : 0 < INR k.
Proof. apply lt_0_INR. lia. Qed.

Lemma grid_point_order (i : nat) : 0 <= INR i / INR k < INR (S i) / INR k.
Proof.
  pose proof INR_k_pos as Hk. pose proof (pos_INR i) as Hi.
  assert (Hinv : 0 < / INR k) by now apply Rinv_0_lt_compat.
  rewrite S_INR. unfold Rdiv. split.
  - apply Rmult_le_pos; lra.
  - apply Rmult_lt_compat_r; lra.
Qed.

Lemma bin_pos (i : nat) : 0 < bin k i.
Proof. unfold bin. apply norm_cdf_diff_pos, grid_point_order. Qed.

Lemma bin_step (i : nat) : bin k (S i) < bin k i.
Proof.
  unfold bin. apply norm_cdf_diff_decreasing; [apply grid_point_order |].
  rewrite !S_INR. pose proof INR_k_pos. field. lra.
Qed.

Lemma bin_decreasing (i j : nat) : (i < j)%nat -> bin k j < bin k i.
Proof.
  induction 1 as [| j Hij IH]; [apply bin_step |].
  pose proof (bin_step j). lra.
Qed.

Lemma bin_decreasing_le (i j : nat) : (i <= j)%nat -> bin k j <= bin k i.
Proof.
  intro H. destruct (Nat.eq_dec i j) as [-> | Hne]; [lra |].
  left. apply bin_decreasing. lia.
Qed.

Lemma bin_product_le (i j i' j' : nat) :
  (i <= i')%nat -> (j <= j')%nat -> bin k i' * bin k j' <= bin k i * bin k j.
Proof.
  intros Hi Hj. pose proof (bin_pos i'). pose proof (bin_pos j').
  pose proof (bin_decreasing_le _ _ Hi). pose proof (bin_decreasing_le _ _ Hj).
  apply Rmult_le_compat; lra.
Qed.

Lemma bin_product_lt (i j : nat) :
  (0 < i)%nat \/ (0 < j)%nat -> bin k i * bin k j < bin k 0 * bin k 0.
Proof.
  intro H. pose proof (bin_pos i). pose proof (bin_pos j). pose proof (bin_pos 0).
  pose proof (bin_decreasing_le 0 i ltac:(lia)).
  pose proof (bin_decreasing_le 0 j ltac:(lia)).
  destruct H as [H | H].
  - pose proof (bin_decreasing 0 i H).
    apply Rle_lt_trans with (bin k i * bin k 0).
    + apply Rmult_le_compat_l; lra.
    + apply Rmult_lt_compat_r; lra.
  - pose proof (bin_decreasing 0 j H).
    apply Rle_lt_trans with (bin k 0 * bin k j).
    + apply Rmult_le_compat_r; lra.
    + apply Rmult_lt_compat_l; lra.
Qed.
End Bins.

Lemma rsum_positive (l : list R) :
  l <> [] -> (forall v, In v l -> 0 < v) -> 0 < fold_right Rplus 0 l.
Proof.
  induction l as [| x l IH]; [congruence |]. intros _ Hpos. simpl.
  assert (0 < x) by (apply Hpos; simpl; auto).
  destruct l as [| y l'].
  - simpl. lra.
  - assert (0 < fold_right Rplus 0 (y :: l')).
    { apply IH; [congruence | intros v Hv; apply Hpos; simpl in *; tauto]. }
    lra.
Qed.

(** ** The kernel of gkern *)

Lemma outer_bins (k : nat) :
  outer (map (bin k) (seq 0 k)) (map (bin k) (seq 0 k))
  = tabulate2 k k (fun i j => bin k i * bin k j).
Proof.
  unfold outer, tabulate2. rewrite map_map. apply map_ext; intro i.
  now rewrite map_map.
Qed.

Lemma concat_nonempty_In {A : Type} (g : list (list A)) (v : A) :
  In v (concat g) -> concat g <> [].
Proof. intros H E. rewrite E in H. exact H. Qed.

Lemma arr_div_ok (a : array2) (s : R) :
  s <> 0 -> arr_div a s = Ok (arr_map (fun v => v / s) a).
Proof.
  intro Hs. unfold arr_div. destruct (concat a) as [| v l] eqn:E.
  - f_equal. unfold arr_map.
    assert (Hrows : forall row, In row a -> row = []).
    { intros row Hrow. destruct row as [| x r]; [reflexivity |].
      assert (Hx : In x (concat a)) by (apply in_concat; exists (x :: r); simpl; auto).
      rewrite E in Hx. destruct Hx. }
    clear E. induction a as [| row a IH]; [reflexivity |].
    simpl. rewrite <- IH by (intros; apply Hrows; simpl; auto).
    rewrite (Hrows row) by (simpl; auto). reflexivity.
  - destruct (Req_dec_T s 0); [contradiction | reflexivity].
Qed.

Lemma bin_extremes_apart (k : nat) :
  (2 <= k)%nat -> 0 < bin k 0 * bin k 0 - bin k (k - 1) * bin k (k - 1).
Proof.
  intro Hk. assert (H1 : (1 <= k)%nat) by lia.
  pose proof (bin_product_lt k H1 (k - 1) (k - 1) ltac:(lia)). lra.
Qed.

Lemma gkern_closed_form (k : nat) : (2 <= k)%nat -> gkern k = Ok (gkern_value k).
Proof.
  intro Hk. assert (H1 : (1 <= k)%nat) by lia.
  unfold gkern. rewrite kern1d_bins, outer_bins. cbv zeta.
  set (T := tabulate2 k k (fun i j => bin k i * bin k j)).
  assert (Hin : forall v, In v (concat T) -> 0 < v).
  { intros v Hv. apply In_concat_tabulate2 in Hv as (i & j & _ & _ & ->).
    apply Rmult_lt_0_compat; now apply bin_pos. }
  assert (HS : 0 < arr_sum T).
  { unfold arr_sum. apply rsum_positive; [| exact Hin].
    apply (concat_nonempty_In T (bin k 0 * bin k 0)).
    apply In_concat_tabulate2. exists 0%nat, 0%nat. repeat split; lia. }
  rewrite arr_div_ok by lra. cbn [bind].
  set (S := arr_sum T) in *. unfold T.
  rewrite arr_map_tabulate2. unfold normalize.
  rewrite (arr_max_tabulate2 k k _ 0 0); [| lia | lia |].
  2:{ intros i j _ _. unfold Rdiv. apply Rmult_le_compat_r;
        [left; now apply Rinv_0_lt_compat | apply bin_product_le; [assumption | lia | lia]]. }
  rewrite (arr_min_tabulate2 k k _ (k - 1) (k - 1)); [| lia | lia |].
  2:{ intros i j Hi Hj. unfold Rdiv. apply Rmult_le_compat_r;
        [left; now apply Rinv_0_lt_compat | apply bin_product_le; [assumption | lia | lia]]. }
  cbn [bind]. pose proof (bin_extremes_apart k Hk) as Hgap.
  destruct (Req_dec_T _ 0) as [E | _].
  { exfalso. apply (Rmult_eq_compat_r S) in E.
    unfold Rdiv in E. rewrite Rmult_minus_distr_r, !Rmult_assoc in E.
    rewrite Rinv_l, Rmult_0_l, !Rmult_1_r in E by lra. lra. }
  f_equal. rewrite arr_map_tabulate2. unfold gkern_value.
  apply tabulate2_ext. intros i j _ _. field. split; lra.
Qed.

Lemma gkern_value_shape (k : nat) : shape2 (gkern_value k) k k.
Proof. apply shape2_tabulate2. Qed.

Section KernelValues.
Variable k : nat.
Hypothesis k_ge_2 : (2 <= k)%nat.
Variables i j : nat.
Hypothesis i_lt : (i < k)%nat.
Hypothesis j_lt : (j < k)%nat.

Lemma gkern_value_get :
  get (gkern_value k) i j
  = (bin k i * bin k j - bin k (k - 1) * bin k (k - 1))
    / (bin k 0 * bin k 0 - bin k (k - 1) * bin k (k - 1)).
Proof. unfold gkern_value. now rewrite get_tabulate2. Qed.

Lemma gkern_value_range : 0 <= get (gkern_value k) i j <= 1.
Proof.
  rewrite gkern_value_get. pose proof (bin_extremes_apart k k_ge_2) as Hgap.
  assert (H1 : (1 <= k)%nat) by lia.
  pose proof (bin_product_le k H1 i j (k - 1) (k - 1) ltac:(lia) ltac:(lia)).
  pose proof (bin_product_le k H1 0 0 i j ltac:(lia) ltac:(lia)).
  split.
  - apply Rmult_le_pos; [lra | left; now apply Rinv_0_lt_compat].
  - apply Rmult_le_reg_r with (bin k 0 * bin k 0 - bin k (k - 1) * bin k (k - 1));
      [exact Hgap |].
    unfold Rdiv. rewrite Rmult_assoc, Rinv_l by lra. lra.
Qed.

Lemma gkern_value_symmetric : get (gkern_value k) i j = get (gkern_value k) j i.
Proof.
  unfold gkern_value. rewrite !get_tabulate2 by assumption.
  f_equal. ring.
Qed.

Lemma gkern_value_below_peak :
  (0 < i)%nat \/ (0 < j)%nat -> get (gkern_value k) i j < 1.
Proof.
  intro H. rewrite gkern_value_get.
  pose proof (bin_extremes_apart k k_ge_2) as Hgap.
  assert (H1 : (1 <= k)%nat) by lia.
  pose proof (bin_product_lt k H1 i j H).
  apply Rmult_lt_reg_r with (bin k 0 * bin k 0 - bin k (k - 1) * bin k (k - 1));
    [exact Hgap |].
  unfold Rdiv. rewrite Rmult_assoc, Rinv_l by lra. lra.
Qed.
End KernelValues.

Lemma gkern_value_peak (k : nat) : (2 <= k)%nat -> get (gkern_value k) 0 0 = 1.
Proof.
  intro Hk. rewrite gkern_value_get by lia.
  pose proof (bin_extremes_apart k Hk). field. lra.
Qed.

Lemma gkern_value_corner (k : nat) :
  (2 <= k)%nat -> get (gkern_value k) (k - 1) (k - 1) = 0.
Proof.
  intro Hk. rewrite gkern_value_get by lia.
  pose proof (bin_extremes_apart k Hk). field. lra.
Qed.

Lemma gkern_1_not_a_number : gkern 1 = Raise NonFinite.
Proof.
  unfold gkern. rewrite kern1d_bins, outer_bins. cbv zeta.
  pose proof (bin_pos 1 (le_n 1) 0) as Hb.
  assert (HS : 0 < arr_sum (tabulate2 1 1 (fun i j => bin 1 i * bin 1 j))).
  { unfold arr_sum, tabulate2. simpl. nra. }
  rewrite arr_div_ok by lra. cbn [bind].
  unfold normalize, arr_max, arr_min, tabulate2. simpl.
  destruct (Req_dec_T _ 0) as [_ | Hn]; [reflexivity | exfalso; apply Hn; ring].
Qed.

(** C1 fails as stated: [gkern 1] is not a number, and in [gkern 3] the centre
    entry is strictly below the entry at [(0, 0)]. *)
Lemma gkern_counterexample :
  gkern 1 = Raise NonFinite /\
  exists K, gkern 3 = Ok K /\ get K 1 1 < get K 0 0.
Proof.
  split; [apply gkern_1_not_a_number |].
  exists (gkern_value 3). split; [apply gkern_closed_form; lia |].
  rewrite (gkern_value_peak 3) by lia.
  apply gkern_value_below_peak; lia.
Qed.

(** C1, as the code behaves: for every kernel length [k >= 2], [gkern k] is a
    [k] x [k] array whose values lie between 0 and 1 and which is symmetric. *)
Theorem gkern_shape_range_symmetric (k : nat) :
  (2 <= k)%nat ->
  exists K,
    gkern k = Ok K /\
    shape2 K k k /\
    forall i j, (i < k)%nat -> (j < k)%nat ->
      0 <= get K i j <= 1 /\ get K i j = get K j i.
Proof.
  intro Hk. exists (gkern_value k).
  split; [now apply gkern_closed_form |].
  split; [apply gkern_value_shape |].
  intros i j Hi Hj. split.
  - now apply gkern_value_range.
  - now apply gkern_value_symmetric.
Qed.

Lemma gkern_shape_range_symmetric_witness :
  exists K,
    gkern 3 = Ok K /\
    shape2 K 3 3 /\
    forall i j, (i < 3)%nat -> (j < 3)%nat ->
      0 <= get K i j <= 1 /\ get K i j = get K j i.
Proof. apply (gkern_shape_range_symmetric 3). lia. Defined.

(** ** Full convolution *)

Lemma convolve_tabulate2 (image kernel : array2) :
  full_convolution image kernel
  = tabulate2 (length image + length kernel - 1)
      (length (hd [] image) + length (hd [] kernel) - 1)
      (fun i j =>
         rsum (map (fun a =>
           rsum (map (fun b => get image a b * kernel_at kernel i a j b)
                   (seq 0 (length (hd [] image)))))
           (seq 0 (length image)))).
Proof. reflexivity. Qed.

Lemma hd_length (a : array2) (h w : nat) :
  shape2 a h w -> (1 <= h)%nat -> length (hd [] a) = w.
Proof.
  intros [Hh Hw] H1. destruct a as [| row a]; simpl in *; [lia | auto].
Qed.

Lemma shape2_nonempty (a : array2) (h w : nat) :
  shape2 a h w -> (1 <= h)%nat -> (1 <= w)%nat -> concat a <> [].
Proof.
  intros [Hh Hw] H1 W1. destruct a as [| row a]; [simpl in Hh; lia |].
  assert (Hrow : length row = w) by (apply Hw; simpl; auto).
  destruct row as [| x row]; [simpl in Hrow; lia |]. discriminate.
Qed.

Lemma convolve_nonempty (image kernel : array2) (H W kh kw : nat) :
  shape2 image H W -> (1 <= H)%nat -> (1 <= W)%nat ->
  shape2 kernel kh kw -> (1 <= kh)%nat -> (1 <= kw)%nat ->
  convolve image kernel = Ok (full_convolution image kernel).
Proof.
  intros Hi H1 W1 Hk Hk1 Hk2. unfold convolve.
  pose proof (shape2_nonempty image H W Hi H1 W1).
  pose proof (shape2_nonempty kernel kh kw Hk Hk1 Hk2).
  destruct (concat image); [congruence |]. destruct (concat kernel); [congruence |].
  reflexivity.
Qed.

Lemma normalize_shape (a out : array2) (h w : nat) :
  shape2 a h w -> normalize a = Ok out -> shape2 out h w.
Proof.
  intros Hs H. unfold normalize in H.
  apply bind_Ok in H as (ma & _ & H). apply bind_Ok in H as (mi & _ & H).
  destruct (Req_dec_T (ma - mi) 0); [discriminate |].
  injection H as <-. now apply shape2_arr_map.
Qed.

Lemma gkern_shape (k : nat) (kernel : array2) :
  gkern k = Ok kernel -> shape2 kernel k k.
Proof.
  unfold gkern. rewrite kern1d_bins, outer_bins. cbv zeta. intro H.
  apply bind_Ok in H as (q & Hq & H).
  apply (normalize_shape q kernel k k); [| exact H].
  unfold arr_div in Hq. destruct (concat _).
  - injection Hq as <-. apply shape2_tabulate2.
  - destruct (Req_dec_T _ 0); [discriminate |]. injection Hq as <-.
    apply shape2_arr_map, shape2_tabulate2.
Qed.

Lemma convolve_shape (image kernel : array2) (H W kh kw : nat) :
  shape2 image H W -> shape2 kernel kh kw -> (1 <= H)%nat -> (1 <= kh)%nat ->
  shape2 (full_convolution image kernel) (H + kh - 1) (W + kw - 1).
Proof.
  intros Hi Hk H1 Hk1. rewrite convolve_tabulate2.
  rewrite (hd_length image H W), (hd_length kernel kh kw) by assumption.
  destruct Hi as [-> _], Hk as [-> _]. apply shape2_tabulate2.
Qed.

(** ** Convolution of a single point label *)

Lemma rsum_zero {A : Type} (f : A -> R) (l : list A) :
  (forall a, In a l -> f a = 0) -> rsum (map f l) = 0.
Proof.
  induction l as [| x l IH]; intro H; [reflexivity |].
  unfold rsum in *. simpl. rewrite IH by (intros; apply H; simpl; auto).
  rewrite (H x) by (simpl; auto). ring.
Qed.

Lemma rsum_single (f : nat -> R) (s n p : nat) :
  (s <= p < s + n)%nat ->
  (forall a, (s <= a < s + n)%nat -> a <> p -> f a = 0) ->
  rsum (map f (seq s n)) = f p.
Proof.
  revert s; induction n as [| n IH]; intros s Hp H0; [lia |].
  change (seq s (S n)) with (s :: seq (S s) n).
  change (rsum (map f (s :: seq (S s) n))) with (f s + rsum (map f (seq (S s) n))).
  destruct (Nat.eq_dec s p) as [-> | Hne].
  - rewrite rsum_zero; [ring |].
    intros a Ha. apply in_seq in Ha. apply H0; lia.
  - rewrite IH; [| lia | intros a Ha Hap; apply H0; lia].
    rewrite (H0 s) by lia. ring.
Qed.

Lemma point_image_shape (H W pi pj : nat) : shape2 (point_image H W pi pj) H W.
Proof. apply shape2_tabulate2. Qed.

Lemma point_image_get (H W pi pj a b : nat) :
  (a < H)%nat -> (b < W)%nat ->
  get (point_image H W pi pj) a b = if (a =? pi)%nat && (b =? pj)%nat then 1 else 0.
Proof. intros Ha Hb. unfold point_image. now rewrite get_tabulate2. Qed.

Lemma convolve_point_image (H W pi pj : nat) (kernel : array2) (kh kw : nat) :
  (pi < H)%nat -> (pj < W)%nat -> shape2 kernel kh kw -> (1 <= kh)%nat ->
  full_convolution (point_image H W pi pj) kernel
  = tabulate2 (H + kh - 1) (W + kw - 1) (fun i j => kernel_at kernel i pi j pj).
Proof.
  intros Hpi Hpj Hk Hkh. rewrite convolve_tabulate2.
  rewrite (hd_length _ H W (point_image_shape H W pi pj)) by lia.
  rewrite (hd_length kernel kh kw Hk Hkh).
  destruct (point_image_shape H W pi pj) as [-> _]. destruct Hk as [-> _].
  apply tabulate2_ext. intros i j _ _.
  rewrite (rsum_single _ 0 H pi); [| lia |].
  - rewrite (rsum_single _ 0 W pj); [| lia |].
    + rewrite point_image_get by assumption. rewrite !Nat.eqb_refl. simpl. ring.
    + intros b Hb Hne. rewrite point_image_get by lia.
      rewrite Nat.eqb_refl. destruct (Nat.eqb_spec b pj); [contradiction |].
      simpl. ring.
  - intros a Ha Hne. apply rsum_zero. intros b Hb. apply in_seq in Hb.
    rewrite point_image_get by lia.
    destruct (Nat.eqb_spec a pi); [contradiction |]. simpl. ring.
Qed.

Section KernelAt.
Variable k : nat.
Hypothesis k_ge_2 : (2 <= k)%nat.

Lemma kernel_at_range (i a j b : nat) :
  0 <= kernel_at (gkern_value k) i a j b <= 1.
Proof.
  unfold kernel_at. destruct ((a <=? i)%nat && (b <=? j)%nat); [| lra].
  destruct (Nat.lt_ge_cases (i - a) k) as [Hi | Hi];
    [destruct (Nat.lt_ge_cases (j - b) k) as [Hj | Hj] |].
  - now apply gkern_value_range.
  - unfold gkern_value. rewrite get_tabulate2_outside by auto. lra.
  - unfold gkern_value. rewrite get_tabulate2_outside by auto. lra.
Qed.

Lemma kernel_at_point (a b : nat) : kernel_at (gkern_value k) a a b b = 1.
Proof.
  unfold kernel_at. rewrite !Nat.leb_refl, !Nat.sub_diag. simpl.
  now apply gkern_value_peak.
Qed.

Lemma kernel_at_corner (a b : nat) :
  kernel_at (gkern_value k) (a + (k - 1)) a (b + (k - 1)) b = 0.
Proof.
  unfold kernel_at.
  destruct (Nat.leb_spec a (a + (k - 1))) as [_ | ?]; [| lia].
  destruct (Nat.leb_spec b (b + (k - 1))) as [_ | ?]; [| lia]. simpl.
  replace (a + (k - 1) - a)%nat with (k - 1)%nat by lia.
  replace (b + (k - 1) - b)%nat with (k - 1)%nat by lia.
  now apply gkern_value_corner.
Qed.

Lemma kernel_at_below_peak (i a j b : nat) :
  (i, j) <> (a, b) -> kernel_at (gkern_value k) i a j b < 1.
Proof.
  intro Hne. unfold kernel_at.
  destruct (Nat.leb_spec a i) as [Ha | Ha]; [| simpl; lra].
  destruct (Nat.leb_spec b j) as [Hb | Hb]; [| simpl; lra]. simpl.
  destruct (Nat.lt_ge_cases (i - a) k) as [Hi | Hi];
    [destruct (Nat.lt_ge_cases (j - b) k) as [Hj | Hj] |].
  - apply gkern_value_below_peak; try assumption.
    destruct (Nat.eq_dec i a) as [-> | ?]; [| lia].
    destruct (Nat.eq_dec j b) as [-> | ?]; [congruence | lia].
  - unfold gkern_value. rewrite get_tabulate2_outside by auto. lra.
  - unfold gkern_value. rewrite get_tabulate2_outside by auto. lra.
Qed.
End KernelAt.

Lemma heatmap_generation_point_image (H W pi pj k : nat) :
  (pi < H)%nat -> (pj < W)%nat -> (2 <= k)%nat ->
  heatmap_generation (point_image H W pi pj) k
  = Ok (tabulate2 (H + k - 1) (W + k - 1)
          (fun i j => (kernel_at (gkern_value k) i pi j pj - 0) / (1 - 0))).
Proof.
  intros Hpi Hpj Hk. unfold heatmap_generation.
  rewrite gkern_closed_form by assumption. cbn [bind].
  rewrite (convolve_nonempty (point_image H W pi pj) (gkern_value k) H W k k)
    by (try apply point_image_shape; try apply gkern_value_shape; lia).
  cbn [bind].
  rewrite (convolve_point_image H W pi pj (gkern_value k) k k)
    by (try apply gkern_value_shape; lia).
  unfold normalize.
  rewrite (arr_max_tabulate2 _ _ _ pi pj); [| lia | lia |].
  2:{ intros i j _ _. rewrite kernel_at_point by assumption.
      now apply kernel_at_range. }
  rewrite (arr_min_tabulate2 _ _ _ (pi + (k - 1)) (pj + (k - 1))); [| lia | lia |].
  2:{ intros i j _ _. rewrite kernel_at_corner by assumption.
      now apply kernel_at_range. }
  cbn [bind]. rewrite kernel_at_point, kernel_at_corner by assumption.
  destruct (Req_dec_T (1 - 0) 0) as [E | _]; [exfalso; lra |].
  now rewrite arr_map_tabulate2.
Qed.

(** C6: the heatmap of a single point label at [(pi, pj)], for a kernel
    length [k >= 2], has its only maximum, 1, at [(pi, pj)] itself: the peak
    is not moved by [(k - 1) / 2], and for [k >= 3] the value at
    [(pi + (k - 1) / 2, pj + (k - 1) / 2)] is strictly below the maximum. *)
Theorem heatmap_generation_peak_at_label (H W pi pj k : nat) :
  (pi < H)%nat -> (pj < W)%nat -> (2 <= k)%nat ->
  exists out,
    heatmap_generation (point_image H W pi pj) k = Ok out /\
    shape2 out (H + k - 1) (W + k - 1) /\
    arr_max out = Ok 1 /\
    get out pi pj = 1 /\
    (forall i j, (i, j) <> (pi, pj) -> get out i j < 1) /\
    ((3 <= k)%nat -> get out (pi + (k - 1) / 2) (pj + (k - 1) / 2) < 1).
Proof.
  intros Hpi Hpj Hk. eexists.
  split; [now apply heatmap_generation_point_image |].
  split; [apply shape2_tabulate2 |].
  assert (Hpeak : get (tabulate2 (H + k - 1) (W + k - 1)
            (fun i j => (kernel_at (gkern_value k) i pi j pj - 0) / (1 - 0))) pi pj = 1).
  { rewrite get_tabulate2 by lia. rewrite kernel_at_point by assumption. field. }
  assert (Hbelow : forall i j, (i, j) <> (pi, pj) ->
            get (tabulate2 (H + k - 1) (W + k - 1)
              (fun i j => (kernel_at (gkern_value k) i pi j pj - 0) / (1 - 0))) i j < 1).
  { intros i j Hne.
    destruct (Nat.lt_ge_cases i (H + k - 1)) as [Hi | Hi];
      [destruct (Nat.lt_ge_cases j (W + k - 1)) as [Hj | Hj] |].
    - rewrite get_tabulate2 by assumption.
      pose proof (kernel_at_below_peak k Hk i pi j pj Hne). lra.
    - rewrite get_tabulate2_outside by auto. lra.
    - rewrite get_tabulate2_outside by auto. lra. }
  split; [| split; [exact Hpeak | split; [exact Hbelow |]]].
  - rewrite (arr_max_tabulate2 _ _ _ pi pj); [| lia | lia |].
    + f_equal. rewrite kernel_at_point by assumption. field.
    + intros i j _ _. rewrite kernel_at_point by assumption.
      pose proof (kernel_at_range k Hk i pi j pj). lra.
  - intro H3. apply Hbelow. intro E.
    assert (E1 : (pi + (k - 1) / 2)%nat = pi) by exact (f_equal fst E).
    assert (Hhalf : (1 <= (k - 1) / 2)%nat).
    { apply (Nat.div_le_lower_bound (k - 1) 2 1); lia. }
    lia.
Qed.

Lemma heatmap_generation_peak_at_label_witness :
  exists out,
    heatmap_generation (point_image 3 3 1 1) 3 = Ok out /\
    shape2 out (3 + 3 - 1) (3 + 3 - 1) /\
    arr_max out = Ok 1 /\
    get out 1 1 = 1 /\
    (forall i j, (i, j) <> (1, 1)%nat -> get out i j < 1) /\
    ((3 <= 3)%nat -> get out (1 + (3 - 1) / 2) (1 + (3 - 1) / 2) < 1).
Proof.
  apply (heatmap_generation_peak_at_label 3 3 1 1 3); lia.
Defined.

(** ** Extremes of a normalized array *)

Lemma arr_min_map_mono (f : R -> R) (a : array2) (m : R) :
  (forall u v, u <= v -> f u <= f v) ->
  arr_min a = Ok m -> arr_min (arr_map f a) = Ok (f m).
Proof.
  unfold arr_min, arr_map. intros Hf H.
  apply list_min_spec in H as [Hin Hlb]. apply list_min_spec. split.
  - apply In_concat_map. eauto.
  - intros v Hv. apply In_concat_map in Hv as (u & Hu & ->). auto.
Qed.

Lemma arr_min_le_max (a : array2) (mi ma : R) :
  arr_min a = Ok mi -> arr_max a = Ok ma -> mi <= ma.
Proof.
  intros Hmi Hma. apply list_min_spec in Hmi as [Hin _].
  apply list_max_spec in Hma as [_ Hub]. auto.
Qed.

Lemma normalize_Ok_inv (a b : array2) :
  normalize a = Ok b ->
  exists mi ma, arr_min a = Ok mi /\ arr_max a = Ok ma /\ mi < ma /\
    b = arr_map (fun v => (v - mi) / (ma - mi)) a.
Proof.
  unfold normalize. intro H.
  apply bind_Ok in H as (ma & Hma & H). apply bind_Ok in H as (mi & Hmi & H).
  destruct (Req_dec_T (ma - mi) 0) as [| Hne]; [discriminate |].
  injection H as <-. exists mi, ma.
  pose proof (arr_min_le_max a mi ma Hmi Hma).
  repeat split; auto. lra.
Qed.

Lemma normalize_of_extremes (a : array2) (mi ma : R) :
  arr_min a = Ok mi -> arr_max a = Ok ma -> mi < ma ->
  normalize a = Ok (arr_map (fun v => (v - mi) / (ma - mi)) a).
Proof.
  intros Hmi Hma Hlt. unfold normalize. rewrite Hma, Hmi. cbn [bind].
  destruct (Req_dec_T (ma - mi) 0); [exfalso; lra | reflexivity].
Qed.

Lemma rescale_monotone (mi ma u v : R) :
  mi < ma -> u <= v -> (u - mi) / (ma - mi) <= (v - mi) / (ma - mi).
Proof.
  intros Hlt Huv. unfold Rdiv. apply Rmult_le_compat_r; [| lra].
  left. apply Rinv_0_lt_compat. lra.
Qed.

Lemma normalize_extremes (a b : array2) :
  normalize a = Ok b -> arr_min b = Ok 0 /\ arr_max b = Ok 1.
Proof.
  intro H. apply normalize_Ok_inv in H as (mi & ma & Hmi & Hma & Hlt & ->). split.
  - rewrite (arr_min_map_mono _ a mi); [f_equal; field; lra | | exact Hmi].
    intros u v. now apply rescale_monotone.
  - rewrite (arr_max_map_mono _ a ma); [f_equal; field; lra | | exact Hma].
    intros u v. now apply rescale_monotone.
Qed.

(** ** heatmap_generation on a binary image *)





Section BinaryImage.
Variables (image : array2) (k H W : nat).
Hypothesis image_shape : shape2 image H W.
Hypothesis H_pos : (1 <= H)%nat.
Hypothesis W_pos : (1 <= W)%nat.
Hypothesis k_ge_2 : (2 <= k)%nat.
Hypothesis binary : forall v, In v (concat image) -> v = 0 \/ v = 1.





End BinaryImage.



(** ** The heatmap of one point in extract_all *)

Lemma grid_at_nth {A : Type} (a : list (list A)) (i j : nat) (v d : A) :
  grid_at a i j = Some v -> nth j (nth i a []) d = v.
Proof.
  unfold grid_at. destruct (nth_error a i) as [row |] eqn:E; [| discriminate].
  intro H. rewrite (nth_error_nth _ _ _ E). now apply nth_error_nth.
Qed.

Lemma pixel_grid_tabulate2 (N M : nat) :
  pixel_grid N M = tabulate2 N M (fun r c => (INR c, INR r)).
Proof. reflexivity. Qed.

Section PointMask.
Variables s0 s1 : nat.
Hypothesis s0_pos : (1 <= s0)%nat.
Hypothesis s1_pos : (1 <= s1)%nat.
Variable x : list R.
Hypothesis x_len : (2 <= length x)%nat.

Let mu : vec2 := (fst (point_xy x) + 0, snd (point_xy x) + 0).
Let Z : array2 := map (map (density 10 mu)) (pixel_grid s0 s1).

Lemma point_mask_scaling :
  exists m, arr_max Z = Ok m /\ 0 < m /\
    (forall v, In v (concat Z) -> 0 < v <= m) /\
    label2maskmap_gt x [1%nat; s0; s1] 0 0 10 false
    = Ok (ByteMap (tabulate2 s0 s1 (fun r c =>
            to_uint8 (density 10 mu (INR c, INR r) * (1 / m) * 255)))).
Proof.
  assert (Hne : concat Z <> []).
  { apply map_map_nonempty, pixel_grid_nonempty; assumption. }
  assert (Hpos : forall v, In v (concat Z) -> 0 < v).
  { intros v Hv. apply (density_grid_positive 10 mu (pixel_grid s0 s1)); [lra | exact Hv]. }
  destruct (peak_scaling_positive Z Hne Hpos) as (m & Hm & Hm0 & _ & _ & Hf).
  exists m. split; [exact Hm |]. split; [exact Hm0 |]. split.
  - intros v Hv. split; [auto |]. apply list_max_spec in Hm as [_ Hub]. auto.
  - rewrite (label2maskmap_gt_unfold x [1%nat; s0; s1] 0 0 10 false s0 s1);
      [| assumption | reflexivity | reflexivity | lra].
    fold mu. fold Z. rewrite Hf. do 2 f_equal.
    unfold Z, arr_map. rewrite pixel_grid_tabulate2.
    unfold tabulate2. rewrite !map_map. apply map_ext; intro r.
    rewrite !map_map. reflexivity.
Qed.

Lemma point_mask_ok :
  label2maskmap_gt x [1%nat; s0; s1] 0 0 10 false = Ok (ByteMap (point_mask s0 s1 x)).
Proof.
  destruct point_mask_scaling as (m & _ & _ & _ & H).
  unfold point_mask. now rewrite H.
Qed.

Lemma mask_at_value (w h : nat) :
  (w < s0)%nat -> (h < s1)%nat ->
  exists m, arr_max Z = Ok m /\ 0 < m /\ 0 < density 10 mu (INR h, INR w) <= m /\
    mask_at s0 s1 x w h = IZR (to_uint8 (density 10 mu (INR h, INR w) * (1 / m) * 255)).
Proof.
  intros Hw Hh. destruct point_mask_scaling as (m & Hm & Hm0 & Hrange & H).
  exists m. split; [exact Hm |]. split; [exact Hm0 |]. split.
  - apply Hrange. unfold Z. apply In_concat_map. exists (INR h, INR w).
    split; [| reflexivity]. apply (grid_at_In _ w h). now apply grid_at_pixel.
  - unfold mask_at, point_mask. rewrite H. f_equal.
    apply grid_at_nth. now apply grid_at_tabulate2.
Qed.

Lemma mask_at_range (w h : nat) :
  (w < s0)%nat -> (h < s1)%nat -> 0 <= mask_at s0 s1 x w h <= 255.
Proof.
  intros Hw Hh. destruct (mask_at_value w h Hw Hh) as (m & _ & Hm0 & Hd & ->).
  assert (Hs : 0 <= density 10 mu (INR h, INR w) * (1 / m) <= 1).
  { assert (0 < 1 / m) by (apply Rdiv_lt_0_compat; lra). split.
    - apply Rmult_le_pos; lra.
    - apply Rle_trans with (m * (1 / m)); [apply Rmult_le_compat_r; lra |].
      right. field. lra. }
  pose proof (to_uint8_monotone_range _ Hs) as [H0 H255].
  split; apply IZR_le; assumption.
Qed.

Lemma mask_at_point (w h : nat) :
  (w < s0)%nat -> (h < s1)%nat -> point_xy x = (INR h, INR w) ->
  mask_at s0 s1 x w h = 255.
Proof.
  intros Hw Hh Hxy. destruct (mask_at_value w h Hw Hh) as (m & Hm & Hm0 & Hd & ->).
  assert (Hmu : mu = (INR h, INR w)).
  { unfold mu. rewrite Hxy. simpl. f_equal; ring. }
  assert (Hpeak : m = density 10 mu (INR h, INR w)).
  { apply Rle_antisym; [| apply Hd].
    apply list_max_spec in Hm as [Hin _]. unfold Z in Hin.
    apply In_concat_map in Hin as (p & _ & ->).
    rewrite <- Hmu. apply density_le_mean. lra. }
  rewrite <- Hpeak.
  replace (m * (1 / m) * 255) with (1 * 255) by (field; lra).
  now rewrite to_uint8_255.
Qed.
End PointMask.

(** ** The loop of extract_all *)

Lemma zeros_shape (h w : nat) : shape2 (zeros h w) h w.
Proof.
  unfold shape2, zeros. split; [apply repeat_length |].
  intros row Hrow. apply repeat_spec in Hrow as ->. apply repeat_length.
Qed.

Lemma zeros_get (h w i j : nat) : get (zeros h w) i j = 0.
Proof.
  unfold get, zeros. destruct (Nat.lt_ge_cases i h) as [Hi | Hi].
  - rewrite (nth_repeat_lt (repeat 0 w) [] Hi). apply nth_repeat.
  - rewrite (nth_overflow (repeat (repeat 0 w) h) [])
      by (now rewrite repeat_length).
    now destruct j.
Qed.

Lemma extract_step_ok (s0 s1 : nat) (final : array2) (x : list R) :
  (1 <= s0)%nat -> (1 <= s1)%nat -> (2 <= length x)%nat ->
  extract_step [1%nat; s0; s1] s0 s1 final x
  = Ok (tabulate2 s0 s1 (fun w h => Rmax (get final w h) (mask_at s0 s1 x w h))).
Proof.
  intros H0 H1 Hx. unfold extract_step.
  rewrite (point_mask_ok s0 s1 H0 H1 x Hx). reflexivity.
Qed.

Lemma for_each_extract_step (s0 s1 : nat) (pts : list (list R)) (final0 : array2) :
  (1 <= s0)%nat -> (1 <= s1)%nat ->
  (forall x, In x pts -> (2 <= length x)%nat) ->
  shape2 final0 s0 s1 ->
  exists final,
    for_each (extract_step [1%nat; s0; s1] s0 s1) pts final0 = Ok final /\
    shape2 final s0 s1 /\
    forall w h, (w < s0)%nat -> (h < s1)%nat ->
      get final w h
      = fold_left Rmax (map (fun x => mask_at s0 s1 x w h) pts) (get final0 w h).
Proof.
  intros H0 H1. revert final0.
  induction pts as [| x pts IH]; intros final0 Hlen Hshape.
  - exists final0. simpl. auto.
  - cbn [for_each]. rewrite extract_step_ok by (try apply Hlen; simpl; auto).
    cbn [bind].
    destruct (IH (tabulate2 s0 s1
                    (fun w h => Rmax (get final0 w h) (mask_at s0 s1 x w h))))
      as (final & Hrun & Hs & Hget).
    + intros y Hy. apply Hlen. simpl; auto.
    + apply shape2_tabulate2.
    + exists final. split; [exact Hrun |]. split; [exact Hs |].
      intros w h Hw Hh. rewrite (Hget w h Hw Hh).
      rewrite get_tabulate2 by assumption. reflexivity.
Qed.

Lemma fold_left_Rmax_bounds (l : list R) (x lo hi : R) :
  lo <= x <= hi -> (forall v, In v l -> lo <= v <= hi) ->
  lo <= fold_left Rmax l x <= hi.
Proof.
  intros Hx Hl.
  destruct (fold_left_Rmax_in l x) as [-> | Hin]; [exact Hx | now apply Hl].
Qed.

Lemma extract_all_entries (pts : list (list R)) (shape_im : list nat) (s0 s1 : nat) :
  index shape_im 0 = Ok s0 -> index shape_im 1 = Ok s1 ->
  (1 <= s0)%nat -> (1 <= s1)%nat ->
  (forall x, In x pts -> (2 <= length x)%nat) ->
  exists final,
    extract_all pts shape_im = Ok [final] /\
    shape2 final s0 s1 /\
    forall w h, (w < s0)%nat -> (h < s1)%nat ->
      get final w h = fold_left Rmax (map (fun x => mask_at s0 s1 x w h) pts) 0.
Proof.
  intros E0 E1 H0 H1 Hlen. unfold extract_all. rewrite E0, E1. cbn [bind].
  destruct (for_each_extract_step s0 s1 pts (zeros s0 s1) H0 H1 Hlen (zeros_shape s0 s1))
    as (final & Hrun & Hs & Hget).
  exists final. rewrite Hrun. cbn [bind]. split; [reflexivity |]. split; [exact Hs |].
  intros w h Hw Hh. rewrite (Hget w h Hw Hh), zeros_get. reflexivity.
Qed.

Lemma merged_at_point (s0 s1 : nat) (pts : list (list R)) (x : list R) (w h : nat) :
  (1 <= s0)%nat -> (1 <= s1)%nat ->
  (forall y, In y pts -> (2 <= length y)%nat) ->
  (w < s0)%nat -> (h < s1)%nat ->
  In x pts -> point_xy x = (INR h, INR w) ->
  fold_left Rmax (map (fun y => mask_at s0 s1 y w h) pts) 0 = 255.
Proof.
  intros H0 H1 Hlen Hw Hh Hx Hxy. apply Rle_antisym.
  - apply (fold_left_Rmax_bounds _ 0 0 255); [lra |].
    intros v Hv. apply in_map_iff in Hv as (y & <- & Hy).
    apply mask_at_range; auto.
  - rewrite <- (mask_at_point s0 s1 H0 H1 x (Hlen x Hx) w h Hw Hh Hxy).
    apply fold_left_Rmax_ge. apply in_map_iff. eauto.
Qed.

(** C2 fails as stated: on the 150 x 200 canvas with the points (0,10,10)
    and (0,100,100), the merged image is 255, not 1.0, at both points. *)
Lemma extract_all_counterexample :
  exists final,
    extract_all [[0; 10; 10]; [0; 100; 100]] [150; 200]%nat = Ok [final] /\
    get final 10 10 = 255 /\ get final 100 100 = 255 /\
    get final 10 10 <> 1 /\ get final 100 100 <> 1.
Proof.
  assert (Hlen : forall x, In x [[0; 10; 10]; [0; 100; 100]] -> (2 <= length x)%nat).
  { intros x [<- | [<- | []]]; simpl; lia. }
  destruct (extract_all_entries [[0; 10; 10]; [0; 100; 100]] [150; 200]%nat 150 200)
    as (final & Hrun & _ & Hget); [reflexivity | reflexivity | lia | lia | exact Hlen |].
  exists final. split; [exact Hrun |].
  assert (H10 : get final 10 10 = 255).
  { rewrite Hget by lia.
    apply (merged_at_point 150 200 _ [0; 10; 10]); try lia; [exact Hlen | simpl; auto |].
    unfold point_xy. simpl. f_equal; lra. }
  assert (H100 : get final 100 100 = 255).
  { rewrite Hget by lia.
    apply (merged_at_point 150 200 _ [0; 100; 100]); try lia; [exact Hlen | simpl; auto |].
    unfold point_xy. cbn [length Nat.leb nth]. rewrite !INR_IZR_INZ. reflexivity. }
  rewrite H10, H100. repeat split; lra.
Qed.

(** C2, as the code behaves: for points of at least two components and an
    output shape with positive extents, [extract_all] builds each point's
    heatmap with [label2maskmap_gt] at its defaults (no shift, radius 10,
    [normalize=False]: 8-bit values) and merges them by the maximum at each
    pixel; every merged value lies between 0 and 255, for two points it is
    the maximum of the two heatmaps at that pixel, and at the pixel of each
    point it is 255. *)
Theorem extract_all_byte_max_merge
  (pts : list (list R)) (shape_im : list nat) (s0 s1 : nat) :
  index shape_im 0 = Ok s0 -> index shape_im 1 = Ok s1 ->
  (1 <= s0)%nat -> (1 <= s1)%nat ->
  (forall x, In x pts -> (2 <= length x)%nat) ->
  exists final,
    extract_all pts shape_im = Ok [final] /\
    shape2 final s0 s1 /\
    (forall x, In x pts ->
       label2maskmap_gt x [1%nat; s0; s1] 0 0 10 false = Ok (ByteMap (point_mask s0 s1 x))) /\
    forall w h, (w < s0)%nat -> (h < s1)%nat ->
      get final w h = fold_left Rmax (map (fun x => mask_at s0 s1 x w h) pts) 0 /\
      0 <= get final w h <= 255 /\
      (forall a b, pts = [a; b] ->
         get final w h = Rmax (mask_at s0 s1 a w h) (mask_at s0 s1 b w h)) /\
      (forall x, In x pts -> point_xy x = (INR h, INR w) -> get final w h = 255).
Proof.
  intros E0 E1 H0 H1 Hlen.
  destruct (extract_all_entries pts shape_im s0 s1 E0 E1 H0 H1 Hlen)
    as (final & Hrun & Hs & Hget).
  exists final. split; [exact Hrun |]. split; [exact Hs |]. split.
  { intros x Hx. apply point_mask_ok; auto. }
  intros w h Hw Hh. rewrite (Hget w h Hw Hh).
  split; [reflexivity |]. split; [| split].
  - apply fold_left_Rmax_bounds; [lra |].
    intros v Hv. apply in_map_iff in Hv as (y & <- & Hy). apply mask_at_range; auto.
  - intros a b ->. simpl.
    assert (0 <= mask_at s0 s1 a w h <= 255)
      by (apply mask_at_range; try apply Hlen; simpl; auto).
    f_equal. apply Rmax_right. lra.
  - intros x Hx Hxy. now apply (merged_at_point s0 s1 pts x).
Qed.

Lemma extract_all_byte_max_merge_witness :
  exists final,
    extract_all [[0; 1; 1]; [2; 0]] [2; 3]%nat = Ok [final] /\
    shape2 final 2 3 /\
    (forall x, In x [[0; 1; 1]; [2; 0]] ->
       label2maskmap_gt x [1; 2; 3]%nat 0 0 10 false = Ok (ByteMap (point_mask 2 3 x))) /\
    forall w h, (w < 2)%nat -> (h < 3)%nat ->
      get final w h
      = fold_left Rmax (map (fun x => mask_at 2 3 x w h) [[0; 1; 1]; [2; 0]]) 0 /\
      0 <= get final w h <= 255 /\
      (forall a b, [[0; 1; 1]; [2; 0]] = [a; b] ->
         get final w h = Rmax (mask_at 2 3 a w h) (mask_at 2 3 b w h)) /\
      (forall x, In x [[0; 1; 1]; [2; 0]] -> point_xy x = (INR h, INR w) ->
         get final w h = 255).
Proof.
  apply (extract_all_byte_max_merge [[0; 1; 1]; [2; 0]] [2; 3]%nat 2 3);
    [reflexivity | reflexivity | lia | lia |].
  intros x [<- | [<- | []]]; simpl; lia.
Defined.

(** ** Underflow and overflow *)

Lemma tiny_pos : 0 < / 2 ^ 1075.
Proof. apply Rinv_0_lt_compat, pow_lt. lra. Qed.

Lemma underflow_small (x : R) : Rabs x <= / 2 ^ 1075 -> underflow x = 0.
Proof. intro H. unfold underflow. destruct (Rle_dec _ _); [reflexivity | contradiction]. Qed.

Lemma underflow_large (x : R) : / 2 ^ 1075 < x -> underflow x = x.
Proof.
  intro H. unfold underflow. destruct (Rle_dec _ _) as [Hle | _]; [| reflexivity].
  exfalso. pose proof (Rle_abs x). lra.
Qed.

Lemma underflow_0 : underflow 0 = 0.
Proof.
  apply underflow_small. rewrite Rabs_R0. left. exact tiny_pos.
Qed.

Lemma underflow_nonneg (x : R) : 0 <= x -> 0 <= underflow x.
Proof. intro H. unfold underflow. destruct (Rle_dec _ _); lra. Qed.

Lemma underflow_monotone (x y : R) : 0 <= x -> x <= y -> underflow x <= underflow y.
Proof.
  intros Hx Hxy. unfold underflow.
  rewrite (Rabs_pos_eq x), (Rabs_pos_eq y) by lra.
  destruct (Rle_dec x _), (Rle_dec y _); lra.
Qed.

Lemma exp_ge_pow2 (n : nat) : 2 ^ n <= exp (INR n).
Proof.
  assert (H1 : 2 <= exp 1) by (left; apply exp_ineq1; lra).
  induction n as [| n IH]; [simpl; rewrite exp_0; lra |].
  rewrite S_INR, exp_plus. simpl pow. rewrite Rmult_comm.
  apply Rmult_le_compat; try lra. apply pow_le. lra.
Qed.

Lemma exp_underflows (x : R) : 1075 <= x -> underflow (exp (- x)) = 0.
Proof.
  intro H. apply underflow_small. rewrite Rabs_pos_eq by (left; apply exp_pos).
  rewrite exp_Ropp. apply Rinv_le_contravar; [apply pow_lt; lra |].
  apply Rle_trans with (exp (INR 1075)); [apply exp_ge_pow2 |].
  assert (E : INR 1075 = 1075) by (rewrite INR_IZR_INZ; reflexivity).
  rewrite E. destruct H as [H | <-]; [left; now apply exp_increasing | right; reflexivity].
Qed.

Lemma tiny_lt_1 : / 2 ^ 1075 < 1.
Proof.
  rewrite <- Rinv_1. apply Rinv_lt_contravar.
  - rewrite Rmult_1_l. apply pow_lt. lra.
  - apply Rlt_pow_R1; [lra | lia].
Qed.

Lemma huge_bound : 2 ^ 1023 <= 2 ^ 1024 - 2 ^ 970.
Proof.
  assert (H : 2 ^ 970 <= 2 ^ 1023) by (apply Rle_pow; [lra | lia]).
  change (2 ^ 1024) with (2 * 2 ^ 1023). lra.
Qed.

(** ** multivariate_gaussian_underflow on an isotropic covariance *)

Lemma multivariate_gaussian_underflow_isotropic
  (pos : list (list vec2)) (mu : vec2) (radius : R) :
  radius <> 0 ->
  multivariate_gaussian_underflow pos mu (isotropic radius)
  = Ok (map (map (density_underflow radius mu)) pos).
Proof.
  intro Hr. unfold multivariate_gaussian_underflow.
  assert (Hd : det (isotropic radius) <> 0) by (unfold isotropic, det; nra).
  unfold inv. unfold isotropic at 1. cbv iota beta.
  destruct (Req_dec_T (det (isotropic radius)) 0) as [E | _]; [contradiction |].
  cbn [bind]. unfold np_sqrt.
  destruct (Rlt_dec ((2 * PI) ^ 2 * det (isotropic radius)) 0) as [Hneg | _].
  { exfalso. unfold isotropic, det in Hneg. pose proof PI_RGT_0. nra. }
  cbn [bind]. f_equal. apply map_ext; intro row. apply map_ext; intro p.
  rewrite isotropic_norm. unfold density_underflow. do 4 f_equal.
  unfold einsum, vsub, sqdist, isotropic, det in *. cbn [fst snd].
  field. auto.
Qed.

Lemma multivariate_gaussian_underflow_singular (pos : list (list vec2)) (mu : vec2) :
  multivariate_gaussian_underflow pos mu (isotropic 0) = Raise LinAlgError.
Proof.
  unfold multivariate_gaussian_underflow, inv. unfold isotropic at 1. cbv iota beta.
  destruct (Req_dec_T (det (isotropic 0)) 0) as [_ | H]; [reflexivity |].
  exfalso. apply H. unfold isotropic, det. ring.
Qed.

Lemma density_underflow_nonneg (radius : R) (mu p : vec2) :
  radius <> 0 -> 0 <= density_underflow radius mu p.
Proof.
  intro Hr. unfold density_underflow. apply underflow_nonneg.
  apply Rmult_le_pos.
  - apply underflow_nonneg. left. apply exp_pos.
  - left. apply Rinv_0_lt_compat. now apply isotropic_norm_pos.
Qed.

Lemma exp_monotone (x y : R) : x <= y -> exp x <= exp y.
Proof.
  intros [H | ->]; [left; now apply exp_increasing | right; reflexivity].
Qed.

Lemma density_underflow_monotone (radius : R) (mu p q : vec2) :
  0 < radius -> sqdist p mu <= sqdist q mu ->
  density_underflow radius mu q <= density_underflow radius mu p.
Proof.
  intros Hr Hpq. unfold density_underflow.
  assert (HN : 0 < / (2 * PI * Rabs radius)).
  { apply Rinv_0_lt_compat, isotropic_norm_pos; lra. }
  assert (He : exp (- (sqdist q mu / radius) / 2) <= exp (- (sqdist p mu / radius) / 2)).
  { apply exp_monotone.
    assert (sqdist p mu / radius <= sqdist q mu / radius).
    { unfold Rdiv. apply Rmult_le_compat_r; [left; apply Rinv_0_lt_compat; lra | lra]. }
    lra. }
  pose proof (exp_pos (- (sqdist q mu / radius) / 2)) as Hq.
  apply underflow_monotone.
  - apply Rmult_le_pos; [apply underflow_nonneg | ]; lra.
  - unfold Rdiv. apply Rmult_le_compat_r; [lra |].
    apply underflow_monotone; lra.
Qed.

Lemma density_underflow_far (radius : R) (mu p : vec2) :
  0 < radius -> 2150 * radius <= sqdist p mu -> density_underflow radius mu p = 0.
Proof.
  intros Hr Hfar. unfold density_underflow.
  replace (- (sqdist p mu / radius) / 2) with (- (sqdist p mu / radius / 2)) by lra.
  rewrite exp_underflows.
  - unfold Rdiv. rewrite Rmult_0_l. apply underflow_0.
  - assert (2150 <= sqdist p mu / radius); [| lra].
    apply Rmult_le_reg_r with radius; [exact Hr |].
    unfold Rdiv. rewrite Rmult_assoc, Rinv_l by lra. lra.
Qed.

Lemma moderate_pos (radius : R) : moderate radius -> 0 < radius.
Proof.
  intros [H _]. apply Rlt_le_trans with (/ 2 ^ 500); [| exact H].
  apply Rinv_0_lt_compat, pow_lt. lra.
Qed.

Lemma moderate_norm (radius : R) :
  moderate radius -> 0 < 2 * PI * radius <= 2 ^ 503.
Proof.
  intro H. pose proof (moderate_pos radius H) as Hr. destruct H as [_ H].
  pose proof PI_RGT_0. pose proof PI_4.
  split; [nra |].
  change (2 ^ 503) with (2 * (2 * (2 * 2 ^ 500))).
  assert (0 < 2 ^ 500) by (apply pow_lt; lra).
  nra.
Qed.

Lemma moderate_10 : moderate 10.
Proof.
  split.
  - apply Rle_trans with 1; [| lra]. left. rewrite <- Rinv_1.
    apply Rinv_lt_contravar; [rewrite Rmult_1_l; apply pow_lt; lra |].
    apply Rlt_pow_R1; [lra | lia].
  - apply Rle_trans with (2 ^ 4); [simpl; lra | apply Rle_pow; [lra | lia]].
Qed.

Lemma radius_10_small : 10 <= 2 ^ 20.
Proof. apply Rle_trans with (2 ^ 4); [simpl; lra | apply Rle_pow; [lra | lia]]. Qed.

Lemma density_underflow_mean (radius : R) (mu : vec2) :
  moderate radius ->
  density_underflow radius mu mu = 1 / (2 * PI * radius) /\
  / 2 ^ 1075 < 1 / (2 * PI * radius).
Proof.
  intro H. pose proof (moderate_pos radius H) as Hr.
  destruct (moderate_norm radius H) as [HN0 HN].
  assert (Ht : / 2 ^ 1075 < 1 / (2 * PI * radius)).
  { unfold Rdiv. rewrite Rmult_1_l. apply Rinv_lt_contravar.
    - apply Rmult_lt_0_compat; [exact HN0 | apply pow_lt; lra].
    - apply Rle_lt_trans with (2 ^ 503); [exact HN |]. apply Rlt_pow; [lra | lia]. }
  split; [| exact Ht].
  unfold density_underflow. rewrite sqdist_self.
  replace (- (0 / radius) / 2) with 0 by (field; lra). rewrite exp_0.
  rewrite (underflow_large 1) by exact tiny_lt_1.
  rewrite (Rabs_pos_eq radius) by lra. now apply underflow_large.
Qed.

Lemma density_underflow_le_mean (radius : R) (mu p : vec2) :
  0 < radius -> density_underflow radius mu p <= density_underflow radius mu mu.
Proof.
  intro Hr. apply density_underflow_monotone; [exact Hr |].
  rewrite sqdist_self. apply sqdist_nonneg.
Qed.

Lemma exp_le_pow3 (n : nat) : exp (INR n) <= 3 ^ n.
Proof.
  induction n as [| n IH]; [simpl; rewrite exp_0; lra |].
  rewrite S_INR, exp_plus. simpl pow. rewrite Rmult_comm.
  apply Rmult_le_compat; [left; apply exp_pos | left; apply exp_pos | apply exp_le_3 | exact IH].
Qed.

Lemma pow3_500 : 3 ^ 500 <= 2 ^ 800.
Proof.
  rewrite !pow_IZR. apply IZR_le. apply Z.leb_le. vm_compute. reflexivity.
Qed.

Lemma exp_500 : / 2 ^ 800 <= exp (- INR 500).
Proof.
  rewrite exp_Ropp. apply Rinv_le_contravar; [apply exp_pos |].
  apply Rle_trans with (3 ^ 500); [apply exp_le_pow3 | apply pow3_500].
Qed.

(** Within a squared distance of [1000 * radius] of the mean, and for a
    radius up to [2^20], nothing underflows. *)
Lemma density_underflow_near (radius : R) (mu p : vec2) :
  moderate radius -> radius <= 2 ^ 20 -> sqdist p mu <= 1000 * radius ->
  density_underflow radius mu p = density radius mu p.
Proof.
  intros Hmod H20 Hnear. pose proof (moderate_pos radius Hmod) as Hr.
  unfold density_underflow, density.
  set (x := - (sqdist p mu / radius) / 2).
  assert (E : INR 500 = 500) by (rewrite INR_IZR_INZ; reflexivity).
  assert (Hx : - INR 500 <= x).
  { rewrite E. unfold x. assert (sqdist p mu / radius <= 1000); [| lra].
    apply Rmult_le_reg_r with radius; [exact Hr |].
    unfold Rdiv. rewrite Rmult_assoc, Rinv_l by lra. lra. }
  assert (He : / 2 ^ 800 <= exp x).
  { apply Rle_trans with (exp (- INR 500)); [apply exp_500 | now apply exp_monotone]. }
  assert (H800 : / 2 ^ 1075 < / 2 ^ 823).
  { apply Rinv_lt_contravar; [apply Rmult_lt_0_compat; apply pow_lt; lra |].
    apply Rlt_pow; [lra | lia]. }
  assert (H823 : / 2 ^ 823 <= / 2 ^ 800).
  { apply Rinv_le_contravar; [apply pow_lt; lra | apply Rle_pow; [lra | lia]]. }
  rewrite (underflow_large (exp x)) by lra.
  apply underflow_large.
  rewrite (Rabs_pos_eq radius) by lra.
  assert (HN : 0 < 2 * PI * radius <= 2 ^ 23).
  { pose proof PI_RGT_0. pose proof PI_4. split; [nra |].
    change (2 ^ 23) with (2 * (2 * (2 * 2 ^ 20))).
    assert (0 < 2 ^ 20) by (apply pow_lt; lra). nra. }
  apply Rlt_le_trans with (/ 2 ^ 823); [exact H800 |].
  replace (2 ^ 823) with (2 ^ 800 * 2 ^ 23) by (rewrite <- pow_add; reflexivity).
  rewrite Rinv_mult. unfold Rdiv.
  apply Rmult_le_compat; [left; apply Rinv_0_lt_compat, pow_lt; lra
                         | left; apply Rinv_0_lt_compat, pow_lt; lra
                         | exact He |].
  apply Rinv_le_contravar; lra.
Qed.

Lemma density_underflow_get (pos : list (list vec2)) (radius : R) (mu p : vec2) (i j : nat) :
  grid_at pos i j = Some p ->
  get (map (map (density_underflow radius mu)) pos) i j = density_underflow radius mu p.
Proof. intro H. apply grid_at_get. now rewrite grid_at_map, H. Qed.

(** C5 fails as stated: two grid points far from the mean, at different
    distances, both get the value 0. *)
Lemma multivariate_gaussian_far_points_tie :
  exists Z,
    multivariate_gaussian_underflow [[(0, 0); (150, 0); (151, 0)]] (0, 0) (isotropic 10)
    = Ok Z /\
    dist (150, 0) (0, 0) < dist (151, 0) (0, 0) /\
    get Z 0 1 = 0 /\ get Z 0 2 = 0.
Proof.
  eexists. split; [apply multivariate_gaussian_underflow_isotropic; lra |].
  split.
  - unfold dist. apply sqrt_lt_1_alt. split; [apply sqdist_nonneg |].
    unfold sqdist. cbn [fst snd]. lra.
  - split.
    + rewrite (density_underflow_get _ 10 (0, 0) (150, 0)) by reflexivity.
      apply density_underflow_far; [lra |]. unfold sqdist. cbn [fst snd]. lra.
    + rewrite (density_underflow_get _ 10 (0, 0) (151, 0)) by reflexivity.
      apply density_underflow_far; [lra |]. unfold sqdist. cbn [fst snd]. lra.
Qed.

(** C5, as the code behaves: on a grid that contains the mean [mu], with
    covariance [diag(radius, radius)] for a moderate [radius], the maximum of
    the array is the entry at the mean, which is positive; of two grid points
    the one at the larger Euclidean distance from the mean never has the
    larger value; and the value is 0 at every grid point whose squared
    distance from the mean is [2150 * radius] or more, so that the decrease
    is not strict.  It is strict, for a radius up to [2^20], between grid
    points within a squared distance of [1000 * radius] of the mean whose
    squared distances differ by 1 or more, as those of the pixels around a
    label on a pixel do. *)
Theorem multivariate_gaussian_peak_nonincreasing
  (pos : list (list vec2)) (mu : vec2) (radius : R) (i0 j0 : nat) :
  moderate radius ->
  grid_at pos i0 j0 = Some mu ->
  exists Z,
    multivariate_gaussian_underflow pos mu (isotropic radius) = Ok Z /\
    arr_max Z = Ok (get Z i0 j0) /\
    0 < get Z i0 j0 /\
    (forall i j i' j' p q,
       grid_at pos i j = Some p -> grid_at pos i' j' = Some q ->
       dist p mu < dist q mu -> get Z i' j' <= get Z i j) /\
    (forall i j p,
       grid_at pos i j = Some p -> 2150 * radius <= sqdist p mu -> get Z i j = 0) /\
    (radius <= 2 ^ 20 ->
     forall i j i' j' p q,
       grid_at pos i j = Some p -> grid_at pos i' j' = Some q ->
       sqdist p mu + 1 <= sqdist q mu -> sqdist q mu <= 1000 * radius ->
       get Z i' j' < get Z i j).
Proof.
  intros Hmod Hmu. pose proof (moderate_pos radius Hmod) as Hr. eexists.
  split; [apply multivariate_gaussian_underflow_isotropic; lra |].
  split; [| split; [| split; [| split]]].
  - rewrite (density_underflow_get _ _ _ _ _ _ Hmu). apply list_max_spec. split.
    + apply In_concat_map. exists mu. split; [eapply grid_at_In; eauto | reflexivity].
    + intros v Hv. apply In_concat_map in Hv as (p & _ & ->).
      now apply density_underflow_le_mean.
  - rewrite (density_underflow_get _ _ _ _ _ _ Hmu).
    destruct (density_underflow_mean radius mu Hmod) as [-> Ht].
    pose proof tiny_pos. lra.
  - intros i j i' j' p q Hp Hq Hd.
    rewrite (density_underflow_get _ _ _ _ _ _ Hp), (density_underflow_get _ _ _ _ _ _ Hq).
    apply density_underflow_monotone; [exact Hr | apply dist_le_sqdist; lra].
  - intros i j p Hp Hfar. rewrite (density_underflow_get _ _ _ _ _ _ Hp).
    now apply density_underflow_far.
  - intros H20 i j i' j' p q Hp Hq Hsep Hnear.
    rewrite (density_underflow_get _ _ _ _ _ _ Hp), (density_underflow_get _ _ _ _ _ _ Hq).
    rewrite !density_underflow_near by (assumption || lra).
    apply density_decreasing; lra.
Qed.

Lemma multivariate_gaussian_peak_nonincreasing_witness :
  exists Z,
    multivariate_gaussian_underflow [[(0, 0); (1, 0)]; [(0, 1); (1, 1)]] (1, 0) (isotropic 10)
    = Ok Z /\
    arr_max Z = Ok (get Z 0 1) /\
    0 < get Z 0 1 /\
    (forall i j i' j' p q,
       grid_at [[(0, 0); (1, 0)]; [(0, 1); (1, 1)]] i j = Some p ->
       grid_at [[(0, 0); (1, 0)]; [(0, 1); (1, 1)]] i' j' = Some q ->
       dist p (1, 0) < dist q (1, 0) -> get Z i' j' <= get Z i j) /\
    (forall i j p,
       grid_at [[(0, 0); (1, 0)]; [(0, 1); (1, 1)]] i j = Some p ->
       2150 * 10 <= sqdist p (1, 0) -> get Z i j = 0) /\
    get Z 1 0 < get Z 0 0.
Proof.
  destruct (multivariate_gaussian_peak_nonincreasing
              [[(0, 0); (1, 0)]; [(0, 1); (1, 1)]] (1, 0) 10 0 1)
    as (Z & HZ & Hmax & Hpeak & Hmono & Hfar & Hstrict);
    [exact moderate_10 | reflexivity |].
  exists Z. repeat (split; [assumption |]).
  apply (Hstrict radius_10_small 0%nat 0%nat 1%nat 0%nat (0, 0) (0, 1));
    [reflexivity | reflexivity | |]; unfold sqdist; cbn [fst snd]; lra.
Defined.

(** ** Peak scaling within the float64 range *)

Lemma label2maskmap_gt_underflow_unfold (data : list R) (shape : list nat)
  (c_dx c_dy radius : R) (normalize : bool) (N M : nat) :
  (2 <= length data)%nat -> index shape 2 = Ok M -> index shape 1 = Ok N ->
  radius <> 0 ->
  label2maskmap_gt_underflow data shape c_dx c_dy radius normalize
  = peak_scaling_underflow
      (map (map (density_underflow radius
                   (fst (point_xy data) + c_dx, snd (point_xy data) + c_dy)))
         (pixel_grid N M))
      normalize.
Proof.
  intros Hlen HM HN Hr. unfold label2maskmap_gt_underflow, point_xy.
  rewrite HM, HN. cbn [bind].
  destruct (Nat.leb_spec (length data) 2) as [Hle | Hgt].
  - rewrite (index_nth data 0), (index_nth data 1) by lia. cbn [bind].
    change (index [0; nth 0 data 0; nth 1 data 0] 2) with (Ok (nth 1 data 0)).
    change (index [0; nth 0 data 0; nth 1 data 0] 1) with (Ok (nth 0 data 0)).
    cbn [bind fst snd].
    rewrite meshgrid_pixels.
    change ((radius, 0), (0, radius)) with (isotropic radius).
    rewrite multivariate_gaussian_underflow_isotropic by assumption. reflexivity.
  - cbn [bind]. rewrite (index_nth data 2), (index_nth data 1) by lia.
    cbn [bind fst snd].
    rewrite meshgrid_pixels.
    change ((radius, 0), (0, radius)) with (isotropic radius).
    rewrite multivariate_gaussian_underflow_isotropic by assumption. reflexivity.
Qed.

Lemma huge_pos : 0 < 2 ^ 1024 - 2 ^ 970.
Proof.
  apply Rlt_le_trans with (2 ^ 1023); [apply pow_lt; lra | apply huge_bound].
Qed.

(** The scale [1 / m] for a maximum [m >= 0]: it is a float64 number when
    [m] is above the reciprocal of the overflow threshold, and infinite
    otherwise. *)
Lemma scale_of_maximum (m : R) :
  0 <= m ->
  (/ (2 ^ 1024 - 2 ^ 970) < m /\ (q <- np_div 1 m ;; overflow q) = Ok (1 / m)) \/
  (m <= / (2 ^ 1024 - 2 ^ 970) /\ (q <- np_div 1 m ;; overflow q) = Raise NonFinite).
Proof.
  intro Hm. pose proof huge_pos as HT.
  assert (HiT : 0 < / (2 ^ 1024 - 2 ^ 970)) by now apply Rinv_0_lt_compat.
  unfold np_div. destruct (Req_dec_T m 0) as [-> | Hne].
  { right. split; [lra | reflexivity]. }
  assert (Hm0 : 0 < m) by lra. cbn [bind]. unfold overflow.
  assert (Hq : 0 < 1 / m) by (apply Rdiv_lt_0_compat; lra).
  rewrite Rabs_pos_eq by lra.
  destruct (Rlt_dec (1 / m) (2 ^ 1024 - 2 ^ 970)) as [Hlt | Hge].
  - left. split; [| reflexivity].
    replace m with (/ (1 / m)) by (field; lra).
    apply Rinv_lt_contravar; [apply Rmult_lt_0_compat; lra | exact Hlt].
  - right. split; [| reflexivity]. apply Rnot_lt_le in Hge.
    replace m with (/ (1 / m)) by (field; lra).
    apply Rinv_le_contravar; lra.
Qed.

Lemma peak_scaling_underflow_of_scale (Z : array2) (m : R) :
  arr_max Z = Ok m -> / (2 ^ 1024 - 2 ^ 970) < m ->
  peak_scaling_underflow Z true
  = Ok (FloatMap (arr_map (fun v => underflow (v * (1 / m))) Z)) /\
  peak_scaling_underflow Z false
  = Ok (ByteMap (map (map (fun v => to_uint8 (v * 255)))
                   (arr_map (fun v => underflow (v * (1 / m))) Z))).
Proof.
  intros Hmax Hm. pose proof huge_pos.
  assert (0 < / (2 ^ 1024 - 2 ^ 970)) by now apply Rinv_0_lt_compat.
  destruct (scale_of_maximum m) as [[_ E] | [Hle _]]; [lra | | lra].
  unfold peak_scaling_underflow. rewrite Hmax. cbn [bind]. rewrite E. cbn [bind].
  split; reflexivity.
Qed.

Lemma peak_scaling_underflow_no_scale (Z : array2) (normalize : bool) (m : R) :
  arr_max Z = Ok m -> 0 <= m -> m <= / (2 ^ 1024 - 2 ^ 970) ->
  peak_scaling_underflow Z normalize = Raise NonFinite.
Proof.
  intros Hmax Hm0 Hm.
  destruct (scale_of_maximum m Hm0) as [[Hlt _] | [_ E]]; [lra |].
  unfold peak_scaling_underflow. rewrite Hmax. cbn [bind]. rewrite E.
  now destruct normalize.
Qed.

Lemma moderate_scale (radius : R) :
  moderate radius -> / (2 ^ 1024 - 2 ^ 970) < 1 / (2 * PI * radius).
Proof.
  intro H. destruct (moderate_norm radius H) as [HN0 HN].
  pose proof huge_pos. pose proof huge_bound.
  unfold Rdiv. rewrite Rmult_1_l. apply Rinv_lt_contravar.
  - apply Rmult_lt_0_compat; assumption.
  - apply Rle_lt_trans with (2 ^ 503); [exact HN |].
    apply Rlt_le_trans with (2 ^ 1023); [apply Rlt_pow; [lra | lia] | assumption].
Qed.

Lemma density_grid_underflow (radius : R) (mu : vec2) (N M : nat) :
  map (map (density_underflow radius mu)) (pixel_grid N M)
  = tabulate2 N M (fun r c => density_underflow radius mu (INR c, INR r)).
Proof. now rewrite pixel_grid_tabulate2, map_map_tabulate2. Qed.

(** A label on a pixel of the canvas: the largest density is the one at the
    label and its reciprocal is a float64 number. *)
Lemma label2maskmap_gt_underflow_on_canvas
  (data : list R) (shape : list nat) (c_dx c_dy radius : R) (N M r0 c0 : nat) :
  moderate radius -> (2 <= length data)%nat ->
  index shape 1 = Ok N -> index shape 2 = Ok M ->
  (r0 < N)%nat -> (c0 < M)%nat ->
  fst (point_xy data) + c_dx = INR c0 -> snd (point_xy data) + c_dy = INR r0 ->
  let Z := tabulate2 N M (fun r c =>
             underflow (density_underflow radius (INR c0, INR r0) (INR c, INR r)
                        * (1 / (1 / (2 * PI * radius))))) in
  label2maskmap_gt_underflow data shape c_dx c_dy radius true = Ok (FloatMap Z) /\
  label2maskmap_gt_underflow data shape c_dx c_dy radius false
  = Ok (ByteMap (map (map (fun v => to_uint8 (v * 255))) Z)).
Proof.
  intros Hmod Hlen HN HM Hr0 Hc0 Hx Hy Z.
  pose proof (moderate_pos radius Hmod) as Hrad.
  rewrite !(label2maskmap_gt_underflow_unfold data shape c_dx c_dy radius _ N M)
    by (assumption || lra).
  rewrite Hx, Hy. set (mu := (INR c0, INR r0)).
  rewrite density_grid_underflow.
  assert (Hmax : arr_max (tabulate2 N M (fun r c => density_underflow radius mu (INR c, INR r)))
                 = Ok (1 / (2 * PI * radius))).
  { destruct (density_underflow_mean radius mu Hmod) as [<- _].
    apply (arr_max_tabulate2 N M
             (fun r c => density_underflow radius mu (INR c, INR r)) r0 c0);
      [assumption | assumption |].
    intros i j _ _. now apply density_underflow_le_mean. }
  destruct (peak_scaling_underflow_of_scale _ _ Hmax (moderate_scale radius Hmod))
    as [Ht Hf].
  rewrite Ht, Hf, arr_map_tabulate2. split; reflexivity.
Qed.






(** ** The peak in float64 arithmetic *)

Section PeakRounding.
Import PrimFloat.
Local Open Scope float_scope.

(** C7: with the radius 13 the largest entry of the heatmap of
    [label2maskmap_gt], the one at the label, is not 1: the product of the
    largest density and its reciprocal is rounded to 0.9999999999999999, the
    float64 just below 1, and its 8-bit value lies between 254 and 255, which
    the cast to [np.uint8] takes to 254.  Dividing by the largest density
    gives 1; with the radius 10 the product is 1 and the 8-bit value 255. *)
Theorem label2maskmap_gt_peak_rounding :
  Float64.scaled_peak 13 = 0x1.fffffffffffffp-1 /\
  (Float64.scaled_peak 13 <? 1) = true /\
  (254 <=? Float64.byte_peak 13) = true /\
  (Float64.byte_peak 13 <? 255) = true /\
  Float64.divided_peak 13 = 1 /\
  Float64.scaled_peak 10 = 1 /\
  Float64.byte_peak 10 = 255.
Proof. vm_compute. repeat split. Qed.
End PeakRounding.

(** * Further properties of the code *)

(** ** normalize *)

(** X1: on an array with two different entries [normalize] succeeds; the
    result has the shape of the argument, its minimum is 0, its maximum is 1
    and every entry lies between them. *)
Theorem normalize_unit_range (a : array2) (u v : R) :
  In u (concat a) -> In v (concat a) -> u <> v ->
  exists b,
    normalize a = Ok b /\
    arr_min b = Ok 0 /\ arr_max b = Ok 1 /\
    (forall x, In x (concat b) -> 0 <= x <= 1) /\
    (forall h w, shape2 a h w -> shape2 b h w).
Proof.
  intros Hu Hv Hne.
  assert (Hnonempty : concat a <> []) by (eapply concat_nonempty_In; eauto).
  destruct (list_min_nonempty _ Hnonempty) as [mi Hmi].
  destruct (list_max_nonempty _ Hnonempty) as [ma Hma].
  assert (Hlt : mi < ma).
  { pose proof Hmi as Hmi'. pose proof Hma as Hma'.
    apply list_min_spec in Hmi' as [_ Hlb]. apply list_max_spec in Hma' as [_ Hub].
    pose proof (Hlb u Hu). pose proof (Hlb v Hv).
    pose proof (Hub u Hu). pose proof (Hub v Hv).
    destruct (Rtotal_order u v) as [? | [? | ?]]; [lra | contradiction | lra]. }
  pose proof (normalize_of_extremes a mi ma Hmi Hma Hlt) as Hn.
  eexists. split; [exact Hn |].
  destruct (normalize_extremes _ _ Hn) as [H0 H1].
  split; [exact H0 |]. split; [exact H1 |]. split.
  - intros x Hx. apply list_min_spec in H0 as [_ Hlb].
    apply list_max_spec in H1 as [_ Hub]. split; auto.
  - intros h w Hs. now apply shape2_arr_map.
Qed.

Lemma normalize_unit_range_witness :
  exists b,
    normalize [[1; 2]; [3; 4]] = Ok b /\
    arr_min b = Ok 0 /\ arr_max b = Ok 1 /\
    (forall x, In x (concat b) -> 0 <= x <= 1) /\
    (forall h w, shape2 [[1; 2]; [3; 4]] h w -> shape2 b h w).
Proof.
  apply (normalize_unit_range [[1; 2]; [3; 4]] 1 2);
    [simpl; auto | simpl; auto | lra].
Defined.

Lemma normalize_constant (a : array2) :
  concat a <> [] ->
  (forall u v, In u (concat a) -> In v (concat a) -> u = v) ->
  normalize a = Raise NonFinite.
Proof.
  intros Hne Hall. unfold normalize.
  destruct (list_max_nonempty _ Hne) as [ma Hma].
  destruct (list_min_nonempty _ Hne) as [mi Hmi].
  unfold arr_max, arr_min. rewrite Hma, Hmi. cbn [bind].
  apply list_max_spec in Hma as [Hma _]. apply list_min_spec in Hmi as [Hmi _].
  rewrite (Hall ma mi Hma Hmi).
  destruct (Req_dec_T (mi - mi) 0) as [_ | Hn]; [reflexivity | exfalso; lra].
Qed.

(** X2: [normalize] gives no array when all entries are equal: a ValueError
    on a zero-size array, and 0/0 on every other constant array. *)
Theorem normalize_constant_fails (a : array2) :
  (forall u v, In u (concat a) -> In v (concat a) -> u = v) ->
  normalize a = Raise (match concat a with [] => ValueError | _ :: _ => NonFinite end).
Proof.
  intro Hall. destruct (concat a) as [| x l] eqn:E.
  - unfold normalize, arr_max. now rewrite E.
  - apply normalize_constant; [rewrite E; discriminate |].
    rewrite E. exact Hall.
Qed.

Lemma normalize_constant_fails_witness :
  normalize [[7; 7]; [7; 7]]
  = Raise (match concat [[7; 7]; [7; 7]] with [] => ValueError | _ :: _ => NonFinite end).
Proof.
  apply (normalize_constant_fails [[7; 7]; [7; 7]]).
  intros u v Hu Hv. simpl in Hu, Hv.
  destruct Hu as [<- | [<- | [<- | [<- | []]]]];
    destruct Hv as [<- | [<- | [<- | [<- | []]]]]; reflexivity.
Defined.

Lemma arr_map_id (f : R -> R) (a : array2) :
  (forall x, In x (concat a) -> f x = x) -> arr_map f a = a.
Proof.
  intro H. unfold arr_map.
  rewrite <- (map_id a) at 2. apply map_ext_in; intros row Hrow.
  rewrite <- (map_id row) at 2. apply map_ext_in; intros x Hx.
  apply H. apply in_concat. eauto.
Qed.

(** X3: [normalize] is idempotent: a normalized array is its own
    normalization. *)
Theorem normalize_idempotent (a b : array2) :
  normalize a = Ok b -> normalize b = Ok b.
Proof.
  intro H. destruct (normalize_extremes a b H) as [H0 H1].
  rewrite (normalize_of_extremes b 0 1 H0 H1) by lra.
  f_equal. apply arr_map_id. intros x _. field.
Qed.

Lemma normalize_two_values :
  normalize [[1; 3]] = Ok (arr_map (fun v => (v - 1) / (3 - 1)) [[1; 3]]).
Proof.
  apply normalize_of_extremes; [| | lra].
  - apply list_min_spec. simpl. split; [auto |]. intros v [<- | [<- | []]]; lra.
  - apply list_max_spec. simpl. split; [auto |]. intros v [<- | [<- | []]]; lra.
Qed.

Lemma normalize_idempotent_witness :
  normalize (arr_map (fun v => (v - 1) / (3 - 1)) [[1; 3]])
  = Ok (arr_map (fun v => (v - 1) / (3 - 1)) [[1; 3]]).
Proof.
  apply (normalize_idempotent [[1; 3]]). exact normalize_two_values.
Defined.

Lemma arr_map_nonempty (f : R -> R) (a : array2) :
  concat a = [] <-> concat (arr_map f a) = [].
Proof.
  unfold arr_map. split; intro E.
  - destruct (concat (map (map f) a)) as [| y l] eqn:Ey; [reflexivity |].
    assert (Hy : In y (concat (map (map f) a))) by (rewrite Ey; simpl; auto).
    apply In_concat_map in Hy as (p & Hp & _). rewrite E in Hp. destruct Hp.
  - destruct (concat a) as [| x l] eqn:Ex; [reflexivity |].
    exfalso. apply (map_map_nonempty f a); [rewrite Ex; discriminate | exact E].
Qed.

Lemma arr_map_arr_map (f g : R -> R) (a : array2) :
  arr_map g (arr_map f a) = arr_map (fun v => g (f v)) a.
Proof.
  unfold arr_map. rewrite map_map. apply map_ext; intro row. apply map_map.
Qed.

Lemma arr_map_ext (f g : R -> R) (a : array2) :
  (forall v, f v = g v) -> arr_map f a = arr_map g a.
Proof.
  intro H. unfold arr_map. apply map_ext; intro row. now apply map_ext.
Qed.

Lemma normalize_affine (a : array2) (s t : R) :
  0 < s -> concat a <> [] ->
  normalize (arr_map (fun v => s * v + t) a) = normalize a.
Proof.
  intros Hs Hne.
  destruct (list_min_nonempty _ Hne) as [mi Hmi].
  destruct (list_max_nonempty _ Hne) as [ma Hma].
  assert (Hmono : forall u v, u <= v -> s * u + t <= s * v + t) by (intros; nra).
  pose proof (arr_min_map_mono _ a mi Hmono Hmi) as Hmi'.
  pose proof (arr_max_map_mono _ a ma Hmono Hma) as Hma'.
  unfold normalize. fold (arr_max a) in Hma. fold (arr_min a) in Hmi.
  rewrite Hma', Hmi', Hma, Hmi. cbn [bind].
  destruct (Req_dec_T (ma - mi) 0) as [E0 | Hd];
    destruct (Req_dec_T (s * ma + t - (s * mi + t)) 0) as [E1 | Hd1].
  - reflexivity.
  - exfalso. apply Hd1. replace ma with mi by lra. ring.
  - exfalso. assert (s * (ma - mi) = 0) by lra.
    apply Rmult_integral in H. lra.
  - f_equal. rewrite arr_map_arr_map. apply arr_map_ext. intro v.
    field. split; [exact Hd | lra].
Qed.

(** X4: [normalize] does not see a positive rescaling or a shift of its
    argument: [normalize (s * arr + t)] is [normalize arr], failures
    included. *)
Theorem normalize_affine_invariant (a : array2) (s t : R) :
  0 < s -> normalize (arr_map (fun v => s * v + t) a) = normalize a.
Proof.
  intro Hs. destruct (list_eq_dec Req_dec_T (concat a) []) as [E | Hne].
  - unfold normalize, arr_max.
    rewrite (proj1 (arr_map_nonempty (fun v => s * v + t) a) E), E. reflexivity.
  - now apply normalize_affine.
Qed.

Lemma normalize_affine_invariant_witness :
  normalize (arr_map (fun v => 2 * v + 5) [[1; 3]]) = normalize [[1; 3]].
Proof. apply (normalize_affine_invariant [[1; 3]] 2 5). lra. Defined.

(** ** gkern *)

(** X5: the division by [kern2d.sum()] in [gkern] has no effect on what
    [gkern] returns, for every kernel length: the result is the normalized
    outer product. *)
Theorem gkern_sum_division_moot (kernlen : nat) :
  gkern kernlen
  = normalize (outer (diff (map norm_cdf (linspace 0 1 (kernlen + 1))))
                 (diff (map norm_cdf (linspace 0 1 (kernlen + 1))))).
Proof.
  unfold gkern. cbv zeta. rewrite kern1d_bins, outer_bins.
  set (T := tabulate2 kernlen kernlen (fun i j => bin kernlen i * bin kernlen j)).
  destruct kernlen as [| k'].
  - reflexivity.
  - assert (H1 : (1 <= S k')%nat) by lia.
    assert (HS : 0 < arr_sum T).
    { unfold arr_sum. apply rsum_positive.
      - apply (concat_nonempty_In T (bin (S k') 0 * bin (S k') 0)).
        apply In_concat_tabulate2. exists 0%nat, 0%nat. repeat split; lia.
      - intros v Hv. apply In_concat_tabulate2 in Hv as (i & j & _ & _ & ->).
        apply Rmult_lt_0_compat; now apply bin_pos. }
    rewrite arr_div_ok by lra. cbn [bind].
    rewrite <- (normalize_affine T (/ arr_sum T) 0).
    2:{ now apply Rinv_0_lt_compat. }
    2:{ apply (concat_nonempty_In T (bin (S k') 0 * bin (S k') 0)).
        apply In_concat_tabulate2. exists 0%nat, 0%nat. repeat split; lia. }
    f_equal. apply arr_map_ext. intro v. unfold Rdiv. ring.
Qed.

Lemma bin_product_strict (k i j i' j' : nat) :
  (1 <= k)%nat -> (i <= i')%nat -> (j <= j')%nat -> (i, j) <> (i', j') ->
  bin k i' * bin k j' < bin k i * bin k j.
Proof.
  intros Hk Hi Hj Hne.
  pose proof (bin_pos k Hk i'). pose proof (bin_pos k Hk j').
  pose proof (bin_decreasing_le k Hk _ _ Hi). pose proof (bin_decreasing_le k Hk _ _ Hj).
  destruct (Nat.eq_dec i i') as [-> | Hii].
  - assert (Hjj : (j < j')%nat).
    { destruct (Nat.eq_dec j j') as [-> | ?]; [congruence | lia]. }
    pose proof (bin_decreasing k Hk _ _ Hjj).
    apply Rmult_lt_compat_l; lra.
  - assert (Hlt : (i < i')%nat) by lia.
    pose proof (bin_decreasing k Hk _ _ Hlt).
    apply Rle_lt_trans with (bin k i' * bin k j).
    + apply Rmult_le_compat_l; lra.
    + apply Rmult_lt_compat_r; lra.
Qed.

(** X6: for a kernel length [k >= 2] the kernel of [gkern] is 1 at entry
    [(0, 0)], 0 at entry [(k-1, k-1)], and strictly decreasing down every
    column and along every row: it is the corner of a bell, not a bell
    around the centre. *)
Theorem gkern_decreasing_from_corner (k : nat) :
  (2 <= k)%nat ->
  exists K,
    gkern k = Ok K /\
    get K 0 0 = 1 /\
    get K (k - 1) (k - 1) = 0 /\
    forall i j i' j',
      (i <= i' < k)%nat -> (j <= j' < k)%nat -> (i, j) <> (i', j') ->
      get K i' j' < get K i j.
Proof.
  intro Hk. exists (gkern_value k).
  split; [now apply gkern_closed_form |].
  split; [now apply gkern_value_peak |].
  split; [now apply gkern_value_corner |].
  intros i j i' j' Hi Hj Hne.
  rewrite !gkern_value_get by lia.
  pose proof (bin_extremes_apart k Hk) as Hgap.
  pose proof (bin_product_strict k i j i' j' ltac:(lia) ltac:(lia) ltac:(lia) Hne).
  unfold Rdiv. apply Rmult_lt_compat_r; [now apply Rinv_0_lt_compat | lra].
Qed.

Lemma gkern_decreasing_from_corner_witness :
  exists K,
    gkern 10 = Ok K /\
    get K 0 0 = 1 /\
    get K (10 - 1) (10 - 1) = 0 /\
    forall i j i' j',
      (i <= i' < 10)%nat -> (j <= j' < 10)%nat -> (i, j) <> (i', j') ->
      get K i' j' < get K i j.
Proof. apply (gkern_decreasing_from_corner 10). lia. Defined.

(** ** heatmap_generation *)

Lemma gkern_0_value_error : gkern 0 = Raise ValueError.
Proof. reflexivity. Qed.

(** X7: a kernel size below 2 never gives a heatmap, whatever the image: size
    0 ends in the ValueError of an empty maximum, size 1 in 0/0. *)
Theorem heatmap_generation_small_kernel (image : array2) :
  heatmap_generation image 0 = Raise ValueError /\
  heatmap_generation image 1 = Raise NonFinite.
Proof.
  unfold heatmap_generation.
  rewrite gkern_0_value_error, gkern_1_not_a_number. split; reflexivity.
Qed.

Lemma get_all_zero (a : array2) (i j : nat) :
  (forall v, In v (concat a) -> v = 0) -> get a i j = 0.
Proof.
  intro H. unfold get.
  destruct (nth_in_or_default i a []) as [Hrow | ->]; [| now destruct j].
  destruct (nth_in_or_default j (nth i a []) 0) as [Hv | ->]; [| reflexivity].
  apply H. apply in_concat. eauto.
Qed.

(** X8: an image without any label (all entries 0) has no heatmap: for a
    kernel size [k >= 2] the convolution is constant and [normalize] ends in
    0/0. *)
Theorem heatmap_generation_without_label (image : array2) (k H W : nat) :
  shape2 image H W -> (1 <= H)%nat -> (1 <= W)%nat -> (2 <= k)%nat ->
  (forall v, In v (concat image) -> v = 0) ->
  heatmap_generation image k = Raise NonFinite.
Proof.
  intros Hs H1 W1 Hk Hzero. unfold heatmap_generation.
  rewrite gkern_closed_form by assumption. cbn [bind].
  rewrite (convolve_nonempty image (gkern_value k) H W k k)
    by (try apply gkern_value_shape; assumption || lia).
  cbn [bind]. rewrite convolve_tabulate2.
  rewrite (hd_length image H W Hs H1),
    (hd_length (gkern_value k) k k (gkern_value_shape k)) by lia.
  destruct Hs as [Hlen _]. rewrite Hlen.
  destruct (gkern_value_shape k) as [Hklen _]. rewrite Hklen.
  rewrite (tabulate2_ext _ _ _ (fun _ _ => 0)).
  - apply normalize_constant.
    + apply (concat_nonempty_In (tabulate2 (H + k - 1) (W + k - 1) (fun _ _ => 0)) 0).
      apply In_concat_tabulate2. exists 0%nat, 0%nat. repeat split; lia.
    + intros u v Hu Hv.
      apply In_concat_tabulate2 in Hu as (? & ? & _ & _ & ->).
      apply In_concat_tabulate2 in Hv as (? & ? & _ & _ & ->). reflexivity.
  - intros i j _ _. apply rsum_zero. intros a _. apply rsum_zero. intros b _.
    rewrite get_all_zero by assumption. ring.
Qed.

Lemma heatmap_generation_without_label_witness :
  heatmap_generation [[0; 0]; [0; 0]] 10 = Raise NonFinite.
Proof.
  apply (heatmap_generation_without_label [[0; 0]; [0; 0]] 10 2 2);
    [split; [reflexivity | intros row [<- | [<- | []]]; reflexivity]
    | lia | lia | lia |].
  intros v Hv. simpl in Hv. destruct Hv as [<- | [<- | [<- | [<- | []]]]]; reflexivity.
Defined.

(** X9: whenever [heatmap_generation] returns a heatmap, its minimum is 0,
    its maximum is 1 and all its values lie between them. *)
Theorem heatmap_generation_unit_range (image : array2) (k : nat) (out : array2) :
  heatmap_generation image k = Ok out ->
  arr_min out = Ok 0 /\ arr_max out = Ok 1 /\
  forall x, In x (concat out) -> 0 <= x <= 1.
Proof.
  unfold heatmap_generation. intro H. apply bind_Ok in H as (kernel & _ & H).
  apply bind_Ok in H as (conv & _ & H).
  destruct (normalize_extremes _ _ H) as [H0 H1].
  split; [exact H0 |]. split; [exact H1 |].
  intros x Hx. apply list_min_spec in H0 as [_ Hlb].
  apply list_max_spec in H1 as [_ Hub]. split; auto.
Qed.

Lemma heatmap_generation_unit_range_witness :
  arr_min (tabulate2 (3 + 3 - 1) (3 + 3 - 1)
             (fun i j => (kernel_at (gkern_value 3) i 1 j 1 - 0) / (1 - 0))) = Ok 0 /\
  arr_max (tabulate2 (3 + 3 - 1) (3 + 3 - 1)
             (fun i j => (kernel_at (gkern_value 3) i 1 j 1 - 0) / (1 - 0))) = Ok 1 /\
  forall x,
    In x (concat (tabulate2 (3 + 3 - 1) (3 + 3 - 1)
                    (fun i j => (kernel_at (gkern_value 3) i 1 j 1 - 0) / (1 - 0)))) ->
    0 <= x <= 1.
Proof.
  apply (heatmap_generation_unit_range (point_image 3 3 1 1) 3).
  apply heatmap_generation_point_image; lia.
Defined.

Lemma kernel_at_shift (K : array2) (i a j b di dj : nat) :
  kernel_at K (i + di) (a + di) (j + dj) (b + dj) = kernel_at K i a j b.
Proof.
  unfold kernel_at.
  replace (a + di <=? i + di)%nat with (a <=? i)%nat
    by (destruct (Nat.leb_spec a i), (Nat.leb_spec (a + di) (i + di)); lia || reflexivity).
  replace (b + dj <=? j + dj)%nat with (b <=? j)%nat
    by (destruct (Nat.leb_spec b j), (Nat.leb_spec (b + dj) (j + dj)); lia || reflexivity).
  replace (i + di - (a + di))%nat with (i - a)%nat by lia.
  replace (j + dj - (b + dj))%nat with (j - b)%nat by lia.
  reflexivity.
Qed.

(** X10: moving a single label by [(di, dj)] inside the image moves its
    heatmap by the same amount. *)
Theorem heatmap_generation_follows_label (H W pi pj di dj k : nat) :
  (pi + di < H)%nat -> (pj + dj < W)%nat -> (2 <= k)%nat ->
  exists out out',
    heatmap_generation (point_image H W pi pj) k = Ok out /\
    heatmap_generation (point_image H W (pi + di) (pj + dj)) k = Ok out' /\
    forall i j, (i + di < H + k - 1)%nat -> (j + dj < W + k - 1)%nat ->
      get out' (i + di) (j + dj) = get out i j.
Proof.
  intros Hpi Hpj Hk. eexists. eexists.
  split; [apply heatmap_generation_point_image; lia |].
  split; [apply heatmap_generation_point_image; lia |].
  intros i j Hi Hj. rewrite !get_tabulate2 by lia.
  now rewrite kernel_at_shift.
Qed.

Lemma heatmap_generation_follows_label_witness :
  exists out out',
    heatmap_generation (point_image 5 5 1 1) 3 = Ok out /\
    heatmap_generation (point_image 5 5 (1 + 2) (1 + 1)) 3 = Ok out' /\
    forall i j, (i + 2 < 5 + 3 - 1)%nat -> (j + 1 < 5 + 3 - 1)%nat ->
      get out' (i + 2) (j + 1) = get out i j.
Proof. apply (heatmap_generation_follows_label 5 5 1 1 2 1 3); lia. Defined.

(** ** multivariate_gaussian, any covariance *)

(** X11: the determinant of the covariance decides what
    [multivariate_gaussian] does, whatever the grid and the mean: a positive
    determinant gives an array of the grid's shape whose values are
    non-negative, a zero determinant the LinAlgError of the inversion, a
    negative determinant the square root of a negative number. *)
Theorem multivariate_gaussian_by_determinant
  (pos : list (list vec2)) (mu : vec2) (Sigma : mat2) :
  (0 < det Sigma /\
   exists Z, multivariate_gaussian_underflow pos mu Sigma = Ok Z /\
     length Z = length pos /\
     (forall i, length (nth i Z []) = length (nth i pos [])) /\
     (forall v, In v (concat Z) -> 0 <= v)) \/
  (det Sigma = 0 /\ multivariate_gaussian_underflow pos mu Sigma = Raise LinAlgError) \/
  (det Sigma < 0 /\ multivariate_gaussian_underflow pos mu Sigma = Raise NonFinite).
Proof.
  assert (H2pi : 0 < (2 * PI) ^ 2).
  { pose proof PI_RGT_0. simpl. nra. }
  assert (Hinv : forall S : mat2, det S <> 0 -> exists Si, inv S = Ok Si).
  { intros [[a b] [c d]] Hne. unfold inv.
    destruct (Req_dec_T _ 0); [contradiction | eauto]. }
  assert (Hsing : forall S : mat2, det S = 0 -> inv S = Raise LinAlgError).
  { intros [[a b] [c d]] E. unfold inv.
    destruct (Req_dec_T _ 0); [reflexivity | contradiction]. }
  unfold multivariate_gaussian_underflow.
  destruct (Req_dec_T (det Sigma) 0) as [E | Hne].
  - right. left. split; [exact E |]. now rewrite (Hsing Sigma E).
  - destruct (Hinv Sigma Hne) as [Si HSi]. rewrite HSi. cbn [bind]. unfold np_sqrt.
    destruct (Rlt_dec ((2 * PI) ^ 2 * det Sigma) 0) as [Hneg | Hpos].
    + right. right. split; [nra | reflexivity].
    + left. assert (Hdet : 0 < det Sigma) by nra. split; [exact Hdet |].
      cbn [bind]. eexists. split; [reflexivity |].
      split; [now rewrite length_map |]. split.
      * intro i. destruct (Nat.lt_ge_cases i (length pos)) as [Hi | Hi].
        -- rewrite (nth_indep _ [] (map
              (fun p => underflow
                 (underflow (exp (- einsum (vsub p mu) Si (vsub p mu) / 2))
                  / sqrt ((2 * PI) ^ 2 * det Sigma))) []))
             by (now rewrite length_map).
           rewrite map_nth. apply length_map.
        -- rewrite !nth_overflow by (rewrite ?length_map; lia). reflexivity.
      * intros v Hv. apply In_concat_map in Hv as (p & _ & ->).
        apply underflow_nonneg. apply Rmult_le_pos.
        -- apply underflow_nonneg. left. apply exp_pos.
        -- left. apply Rinv_0_lt_compat, sqrt_lt_R0. nra.
Qed.

(** ** label2maskmap_gt *)

Lemma index_short {A : Type} (l : list A) (i : nat) :
  (length l <= i)%nat -> index l i = Raise IndexError.
Proof.
  intro H. unfold index. apply nth_error_None in H. now rewrite H.
Qed.

Lemma index_nat_nth (l : list nat) (i : nat) :
  (i < length l)%nat -> index l i = Ok (nth i l 0%nat).
Proof.
  intro H. unfold index.
  destruct (nth_error l i) as [v |] eqn:E.
  - now rewrite (nth_error_nth _ _ _ E).
  - apply nth_error_None in E. lia.
Qed.

Lemma pixel_grid_empty (N M : nat) :
  N = 0%nat \/ M = 0%nat -> concat (pixel_grid N M) = [].
Proof.
  intro H. destruct (concat (pixel_grid N M)) as [| p l] eqn:E; [reflexivity |].
  assert (Hp : In p (concat (pixel_grid N M))) by (rewrite E; simpl; auto).
  rewrite pixel_grid_tabulate2 in Hp.
  apply In_concat_tabulate2 in Hp as (i & j & Hi & Hj & _). lia.
Qed.

Lemma concat_map_map_empty {A B : Type} (f : A -> B) (g : list (list A)) :
  concat g = [] -> concat (map (map f) g) = [].
Proof.
  intro E. destruct (concat (map (map f) g)) as [| y l] eqn:Ey; [reflexivity |].
  assert (Hy : In y (concat (map (map f) g))) by (rewrite Ey; simpl; auto).
  apply In_concat_map in Hy as (p & Hp & _). rewrite E in Hp. destruct Hp.
Qed.

(** X12: for the radius 0 or a moderate radius, what [label2maskmap_gt]
    returns is decided in this order: an IndexError for a shape of fewer than
    3 entries, then for a point of fewer than 2 components; a LinAlgError for
    the radius 0; a ValueError for an empty grid.  In every other case the
    largest density [m] decides: a heatmap when [1 / m] is a float64 number,
    and a non-finite result when [m] is 0 or so small that [1 / m]
    overflows. *)
Theorem label2maskmap_gt_outcomes
  (data : list R) (shape : list nat) (c_dx c_dy radius : R) (normalize : bool) :
  radius = 0 \/ moderate radius ->
  ((length shape < 3)%nat /\
   label2maskmap_gt_underflow data shape c_dx c_dy radius normalize = Raise IndexError) \/
  ((3 <= length shape)%nat /\ (length data < 2)%nat /\
   label2maskmap_gt_underflow data shape c_dx c_dy radius normalize = Raise IndexError) \/
  ((3 <= length shape)%nat /\ (2 <= length data)%nat /\ radius = 0 /\
   label2maskmap_gt_underflow data shape c_dx c_dy radius normalize = Raise LinAlgError) \/
  ((3 <= length shape)%nat /\ (2 <= length data)%nat /\ moderate radius /\
   (nth 1 shape 0%nat = 0%nat \/ nth 2 shape 0%nat = 0%nat) /\
   label2maskmap_gt_underflow data shape c_dx c_dy radius normalize = Raise ValueError) \/
  ((3 <= length shape)%nat /\ (2 <= length data)%nat /\ moderate radius /\
   (1 <= nth 1 shape 0)%nat /\ (1 <= nth 2 shape 0)%nat /\
   exists m,
     arr_max (map (map (density_underflow radius
                          (fst (point_xy data) + c_dx, snd (point_xy data) + c_dy)))
                (pixel_grid (nth 1 shape 0%nat) (nth 2 shape 0%nat))) = Ok m /\
     0 <= m /\
     ((/ (2 ^ 1024 - 2 ^ 970) < m /\
       exists h, label2maskmap_gt_underflow data shape c_dx c_dy radius normalize = Ok h) \/
      (m <= / (2 ^ 1024 - 2 ^ 970) /\
       label2maskmap_gt_underflow data shape c_dx c_dy radius normalize
       = Raise NonFinite))).
Proof.
  intro Hradius.
  destruct (Nat.lt_ge_cases (length shape) 3) as [Hs | Hs].
  { left. split; [exact Hs |]. unfold label2maskmap_gt_underflow.
    now rewrite (index_short shape 2) by lia. }
  right. destruct (Nat.lt_ge_cases (length data) 2) as [Hd | Hd].
  { left. split; [exact Hs |]. split; [exact Hd |]. unfold label2maskmap_gt_underflow.
    rewrite (index_nat_nth shape 2), (index_nat_nth shape 1) by lia. cbn [bind].
    destruct (Nat.leb_spec (length data) 2) as [_ | ?]; [| lia].
    destruct (index data 0) as [d0 | e] eqn:E0; cbn [bind];
      [| apply index_raise in E0; now subst].
    now rewrite (index_short data 1) by lia. }
  right. destruct Hradius as [-> | Hmod].
  { left. split; [exact Hs |]. split; [exact Hd |]. split; [reflexivity |].
    unfold label2maskmap_gt_underflow.
    rewrite (index_nat_nth shape 2), (index_nat_nth shape 1) by lia. cbn [bind].
    destruct (Nat.leb_spec (length data) 2) as [Hle | Hgt].
    - rewrite (index_nth data 0), (index_nth data 1) by lia. cbn [bind].
      change (index [0; nth 0 data 0; nth 1 data 0] 2) with (Ok (nth 1 data 0)).
      change (index [0; nth 0 data 0; nth 1 data 0] 1) with (Ok (nth 0 data 0)).
      cbn [bind]. change ((0, 0), (0, 0)) with (isotropic 0).
      now rewrite multivariate_gaussian_underflow_singular.
    - cbn [bind]. rewrite (index_nth data 2), (index_nth data 1) by lia.
      cbn [bind]. change ((0, 0), (0, 0)) with (isotropic 0).
      now rewrite multivariate_gaussian_underflow_singular. }
  right. pose proof (moderate_pos radius Hmod) as Hr.
  rewrite (label2maskmap_gt_underflow_unfold data shape c_dx c_dy radius normalize
             (nth 1 shape 0%nat) (nth 2 shape 0%nat))
    by (try apply index_nat_nth; try assumption; lia || lra).
  set (mu := (fst (point_xy data) + c_dx, snd (point_xy data) + c_dy)).
  destruct (Nat.eq_dec (nth 1 shape 0%nat) 0) as [E1 | E1];
    [| destruct (Nat.eq_dec (nth 2 shape 0%nat) 0) as [E2 | E2]].
  - left. repeat (split; [assumption || auto |]).
    unfold peak_scaling_underflow, arr_max.
    rewrite (concat_map_map_empty _ _ (pixel_grid_empty _ _ (or_introl E1))).
    now destruct normalize.
  - left. repeat (split; [assumption || auto |]).
    unfold peak_scaling_underflow, arr_max.
    rewrite (concat_map_map_empty _ _ (pixel_grid_empty _ _ (or_intror E2))).
    now destruct normalize.
  - right. repeat (split; [assumption || lia |]).
    set (Z := map (map (density_underflow radius mu))
                (pixel_grid (nth 1 shape 0%nat) (nth 2 shape 0%nat))).
    destruct (list_max_nonempty (concat Z)) as [m Hm].
    { apply map_map_nonempty, pixel_grid_nonempty; lia. }
    fold (arr_max Z) in Hm.
    assert (Hm0 : 0 <= m).
    { apply list_max_spec in Hm as [Hin _].
      apply In_concat_map in Hin as (p & _ & ->). apply density_underflow_nonneg. lra. }
    exists m. split; [exact Hm |]. split; [exact Hm0 |].
    destruct (Rlt_dec (/ (2 ^ 1024 - 2 ^ 970)) m) as [Hlt | Hge].
    + left. split; [exact Hlt |].
      destruct (peak_scaling_underflow_of_scale Z m Hm Hlt) as [Ht Hf].
      destruct normalize; eauto.
    + right. apply Rnot_lt_le in Hge. split; [exact Hge |].
      now apply (peak_scaling_underflow_no_scale Z normalize m).
Qed.

Lemma label2maskmap_gt_outcomes_witness :
  ((length [1; 3; 3]%nat < 3)%nat /\
   label2maskmap_gt_underflow [0; 1000; 1000] [1; 3; 3]%nat 0 0 10 false = Raise IndexError) \/
  ((3 <= length [1; 3; 3]%nat)%nat /\ (length [0; 1000; 1000] < 2)%nat /\
   label2maskmap_gt_underflow [0; 1000; 1000] [1; 3; 3]%nat 0 0 10 false = Raise IndexError) \/
  ((3 <= length [1; 3; 3]%nat)%nat /\ (2 <= length [0; 1000; 1000])%nat /\ 10 = 0 /\
   label2maskmap_gt_underflow [0; 1000; 1000] [1; 3; 3]%nat 0 0 10 false = Raise LinAlgError) \/
  ((3 <= length [1; 3; 3]%nat)%nat /\ (2 <= length [0; 1000; 1000])%nat /\ moderate 10 /\
   (nth 1 [1; 3; 3]%nat 0%nat = 0%nat \/ nth 2 [1; 3; 3]%nat 0%nat = 0%nat) /\
   label2maskmap_gt_underflow [0; 1000; 1000] [1; 3; 3]%nat 0 0 10 false = Raise ValueError) \/
  ((3 <= length [1; 3; 3]%nat)%nat /\ (2 <= length [0; 1000; 1000])%nat /\ moderate 10 /\
   (1 <= nth 1 [1; 3; 3]%nat 0)%nat /\ (1 <= nth 2 [1; 3; 3]%nat 0)%nat /\
   exists m,
     arr_max (map (map (density_underflow 10
                          (fst (point_xy [0; 1000; 1000]) + 0,
                           snd (point_xy [0; 1000; 1000]) + 0)))
                (pixel_grid (nth 1 [1; 3; 3]%nat 0%nat) (nth 2 [1; 3; 3]%nat 0%nat))) = Ok m /\
     0 <= m /\
     ((/ (2 ^ 1024 - 2 ^ 970) < m /\
       exists h, label2maskmap_gt_underflow [0; 1000; 1000] [1; 3; 3]%nat 0 0 10 false = Ok h) \/
      (m <= / (2 ^ 1024 - 2 ^ 970) /\
       label2maskmap_gt_underflow [0; 1000; 1000] [1; 3; 3]%nat 0 0 10 false
       = Raise NonFinite))).
Proof.
  apply (label2maskmap_gt_outcomes [0; 1000; 1000] [1; 3; 3]%nat 0 0 10 false).
  right. exact moderate_10.
Defined.

(** X13: of a point only the components 1 and 2 are read, and a point of two
    components [[a, b]] is the point [[z, a, b, ...]] for any [z] and any
    further components. *)
Theorem label2maskmap_gt_two_components
  (a b z : R) (rest : list R) (shape : list nat) (c_dx c_dy radius : R)
  (normalize : bool) :
  label2maskmap_gt [a; b] shape c_dx c_dy radius normalize
  = label2maskmap_gt (z :: a :: b :: rest) shape c_dx c_dy radius normalize.
Proof.
  unfold label2maskmap_gt.
  destruct (index shape 2) as [M | e]; [| reflexivity]. cbn [bind].
  destruct (index shape 1) as [N | e]; reflexivity.
Qed.

(** X14: the shift [(c_dx, c_dy)] is the same as moving the point: component
    2 by [c_dx] and component 1 by [c_dy]. *)
Theorem label2maskmap_gt_shift
  (z y x : R) (rest : list R) (shape : list nat) (c_dx c_dy radius : R)
  (normalize : bool) :
  label2maskmap_gt (z :: y :: x :: rest) shape c_dx c_dy radius normalize
  = label2maskmap_gt [z; y + c_dy; x + c_dx] shape 0 0 radius normalize.
Proof.
  unfold label2maskmap_gt.
  destruct (index shape 2) as [M | e]; [| reflexivity]. cbn [bind].
  destruct (index shape 1) as [N | e]; [| reflexivity]. cbn [bind].
  change (Nat.leb (length (z :: y :: x :: rest)) 2) with false.
  change (Nat.leb (length [z; y + c_dy; x + c_dx]) 2) with false.
  cbn [bind]. change (index (z :: y :: x :: rest) 2) with (Ok x).
  change (index (z :: y :: x :: rest) 1) with (Ok y).
  change (index [z; y + c_dy; x + c_dx] 2) with (Ok (x + c_dx)).
  change (index [z; y + c_dy; x + c_dx] 1) with (Ok (y + c_dy)).
  cbn [bind]. now rewrite !Rplus_0_r.
Qed.

(** X15: for a point that falls, after the shift, on the pixel of row [r0]
    and column [c0] of the canvas, and a moderate radius, the float heatmap
    of [label2maskmap_gt] has the canvas's shape and values between 0 and 1;
    its maximum is the entry at the point, which is positive; of two pixels
    the one farther from the point never has the larger value; and the value
    is 0 at every pixel whose squared distance from the point is
    [2150 * radius] or more. *)
Theorem label2maskmap_gt_peak_at_point
  (data : list R) (shape : list nat) (c_dx c_dy radius : R) (N M r0 c0 : nat) :
  (2 <= length data)%nat ->
  index shape 1 = Ok N -> index shape 2 = Ok M ->
  (r0 < N)%nat -> (c0 < M)%nat -> moderate radius ->
  fst (point_xy data) + c_dx = INR c0 -> snd (point_xy data) + c_dy = INR r0 ->
  exists Zf,
    label2maskmap_gt_underflow data shape c_dx c_dy radius true = Ok (FloatMap Zf) /\
    shape2 Zf N M /\
    arr_max Zf = Ok (get Zf r0 c0) /\
    0 < get Zf r0 c0 <= 1 /\
    (forall i j, (i < N)%nat -> (j < M)%nat -> 0 <= get Zf i j) /\
    (forall i j i' j', (i < N)%nat -> (j < M)%nat -> (i' < N)%nat -> (j' < M)%nat ->
       sqdist (INR j, INR i) (INR c0, INR r0) < sqdist (INR j', INR i') (INR c0, INR r0) ->
       get Zf i' j' <= get Zf i j) /\
    (forall i j, (i < N)%nat -> (j < M)%nat ->
       2150 * radius <= sqdist (INR j, INR i) (INR c0, INR r0) -> get Zf i j = 0).
Proof.
  intros Hlen HN HM Hr0 Hc0 Hmod Hx Hy.
  pose proof (moderate_pos radius Hmod) as Hrad.
  destruct (label2maskmap_gt_underflow_on_canvas data shape c_dx c_dy radius N M r0 c0
              Hmod Hlen HN HM Hr0 Hc0 Hx Hy) as [Ht _].
  set (mu := (INR c0, INR r0)) in *.
  destruct (moderate_norm radius Hmod) as [HN0 _].
  set (s := 1 / (1 / (2 * PI * radius))) in *.
  assert (Hs : 0 < s).
  { unfold s. apply Rdiv_lt_0_compat; [lra |]. apply Rdiv_lt_0_compat; lra. }
  set (F := fun r c => underflow (density_underflow radius mu (INR c, INR r) * s)) in *.
  assert (Hmono : forall p q, sqdist p mu <= sqdist q mu ->
            underflow (density_underflow radius mu q * s)
            <= underflow (density_underflow radius mu p * s)).
  { intros p q Hpq. apply underflow_monotone.
    - apply Rmult_le_pos; [apply density_underflow_nonneg |]; lra.
    - apply Rmult_le_compat_r; [lra |]. now apply density_underflow_monotone. }
  assert (Hpeak : F r0 c0 = 1).
  { unfold F. fold mu. destruct (density_underflow_mean radius mu Hmod) as [-> _].
    replace (1 / (2 * PI * radius) * s) with 1
      by (unfold s; field; pose proof PI_RGT_0; repeat split; lra).
    apply underflow_large, tiny_lt_1. }
  exists (tabulate2 N M F). split; [exact Ht |].
  split; [apply shape2_tabulate2 |].
  split; [| split; [| split; [| split]]].
  - rewrite get_tabulate2 by assumption.
    apply (arr_max_tabulate2 N M F r0 c0); [assumption | assumption |].
    intros i j _ _. unfold F. apply Hmono. fold mu. rewrite sqdist_self.
    apply sqdist_nonneg.
  - rewrite get_tabulate2 by assumption. rewrite Hpeak. lra.
  - intros i j Hi Hj. rewrite get_tabulate2 by assumption. unfold F.
    apply underflow_nonneg. apply Rmult_le_pos; [apply density_underflow_nonneg |]; lra.
  - intros i j i' j' Hi Hj Hi' Hj' Hd. rewrite !get_tabulate2 by assumption.
    unfold F. apply Hmono. lra.
  - intros i j Hi Hj Hfar. rewrite get_tabulate2 by assumption. unfold F.
    rewrite density_underflow_far by assumption. rewrite Rmult_0_l. apply underflow_0.
Qed.

Lemma label2maskmap_gt_peak_at_point_witness :
  exists Zf,
    label2maskmap_gt_underflow [0; 1; 2] [1; 3; 4]%nat 0 0 10 true = Ok (FloatMap Zf) /\
    shape2 Zf 3 4 /\
    arr_max Zf = Ok (get Zf 1 2) /\
    0 < get Zf 1 2 <= 1 /\
    (forall i j, (i < 3)%nat -> (j < 4)%nat -> 0 <= get Zf i j) /\
    (forall i j i' j', (i < 3)%nat -> (j < 4)%nat -> (i' < 3)%nat -> (j' < 4)%nat ->
       sqdist (INR j, INR i) (INR 2, INR 1) < sqdist (INR j', INR i') (INR 2, INR 1) ->
       get Zf i' j' <= get Zf i j) /\
    (forall i j, (i < 3)%nat -> (j < 4)%nat ->
       2150 * 10 <= sqdist (INR j, INR i) (INR 2, INR 1) -> get Zf i j = 0).
Proof.
  apply (label2maskmap_gt_peak_at_point [0; 1; 2] [1; 3; 4]%nat 0 0 10 3 4 1 2);
    [simpl; lia | reflexivity | reflexivity | lia | lia | exact moderate_10
    | unfold point_xy; simpl; lra | unfold point_xy; simpl; lra].
Defined.

(** ** get_midslice_average away from index 0 *)

Lemma slice_bound_inside (i n : Z) : (0 <= i)%Z -> slice_bound i n = Z.min i n.
Proof. intro H. unfold slice_bound. destruct (Z.ltb_spec i 0); [lia | reflexivity]. Qed.

Lemma py_slice_prefix {A : Type} (l : list A) (b : nat) :
  py_slice l 0 (Z.of_nat b) = firstn b l.
Proof.
  unfold py_slice. rewrite !slice_bound_inside by lia.
  rewrite (Z.min_l 0) by lia. simpl skipn.
  destruct (Nat.le_gt_cases b (length l)) as [Hb | Hb].
  - rewrite Z.min_l by lia. f_equal. lia.
  - rewrite Z.min_r by lia. rewrite Z.sub_0_r, Nat2Z.id.
    rewrite !firstn_all2 by lia. reflexivity.
Qed.

Lemma py_slice_suffix {A : Type} (l : list A) (a : nat) (b : Z) :
  (Z.of_nat (length l) <= b)%Z -> py_slice l (Z.of_nat a) b = skipn a l.
Proof.
  intro Hb. unfold py_slice. rewrite !slice_bound_inside by lia.
  rewrite (Z.min_r b) by lia.
  destruct (Nat.le_gt_cases a (length l)) as [Ha | Ha].
  - rewrite Z.min_l by lia. rewrite Nat2Z.id.
    apply firstn_all2. rewrite length_skipn. lia.
  - rewrite Z.min_r by lia. rewrite Nat2Z.id.
    rewrite !skipn_all2 by lia. now destruct (Z.to_nat _).
Qed.

Lemma midslice_interior (arr : array3) (ind : nat) :
  (ind + 3 < length arr)%nat ->
  py_slice arr
    (Z.of_nat ind - numb_of_slice (Z.of_nat (length arr)) (Z.of_nat ind))
    (Z.of_nat ind + numb_of_slice (Z.of_nat (length arr)) (Z.of_nat ind))
  = if (2 * ind <=? length arr)%nat
    then firstn (2 * ind) arr
    else skipn (2 * ind - length arr) arr.
Proof.
  intro H. rewrite numb_of_slice_interior by lia.
  destruct (Nat.leb_spec (2 * ind) (length arr)) as [Hle | Hgt].
  - rewrite Z.min_l by lia.
    replace (Z.of_nat ind - Z.of_nat ind)%Z with 0%Z by lia.
    replace (Z.of_nat ind + Z.of_nat ind)%Z with (Z.of_nat (2 * ind)) by lia.
    apply py_slice_prefix.
  - rewrite Z.min_r by lia.
    replace (Z.of_nat ind - (Z.of_nat (length arr) - Z.of_nat ind))%Z
      with (Z.of_nat (2 * ind - length arr)) by lia.
    apply py_slice_suffix. lia.
Qed.

(** X16: for every index more than three slices before the end the window
    is not of half-width 3: it reaches a boundary of the volume.  Averaged
    are the first [2 * ind] slices, or, past the middle, the last
    [2 * (extent - ind)] slices. *)
Theorem get_midslice_average_interior (arr : array3) (ind : nat) :
  (ind + 3 < length arr)%nat ->
  get_midslice_average arr (Z.of_nat ind)
  = mean_axis0 (if (2 * ind <=? length arr)%nat
                then firstn (2 * ind) arr
                else skipn (2 * ind - length arr) arr).
Proof.
  intro H. unfold get_midslice_average. cbv zeta.
  now rewrite midslice_interior.
Qed.

Lemma get_midslice_average_interior_witness :
  get_midslice_average ten_slices (Z.of_nat 2)
  = mean_axis0 (if (2 * 2 <=? length ten_slices)%nat
                then firstn (2 * 2) ten_slices
                else skipn (2 * 2 - length ten_slices) ten_slices).
Proof. apply (get_midslice_average_interior ten_slices 2). simpl. lia. Defined.

Lemma midslice_tail (arr : array3) (ind : nat) :
  (3 <= ind)%nat -> (length arr <= ind + 3)%nat ->
  py_slice arr
    (Z.of_nat ind - numb_of_slice (Z.of_nat (length arr)) (Z.of_nat ind))
    (Z.of_nat ind + numb_of_slice (Z.of_nat (length arr)) (Z.of_nat ind))
  = skipn (ind - 3) arr.
Proof.
  intros H3 Hn.
  assert (Hw : numb_of_slice (Z.of_nat (length arr)) (Z.of_nat ind) = 3%Z).
  { unfold numb_of_slice.
    destruct (Z.ltb_spec (Z.of_nat ind + 3) (Z.of_nat (length arr))) as [? | _]; [lia |].
    destruct (Z.ltb_spec (Z.of_nat ind - 3) 0); [lia | reflexivity]. }
  rewrite Hw.
  replace (Z.of_nat ind - 3)%Z with (Z.of_nat (ind - 3)) by lia.
  apply py_slice_suffix. lia.
Qed.

(** X17: an index at most three slices before the end, or past the end, never
    raises: averaged are the slices from [ind - 3] to the end of the volume,
    and when there is none the result is not a number. *)
Theorem get_midslice_average_tail (arr : array3) (ind : nat) :
  (3 <= ind)%nat -> (length arr <= ind + 3)%nat ->
  get_midslice_average arr (Z.of_nat ind) = mean_axis0 (skipn (ind - 3) arr) /\
  ((length arr + 3 <= ind)%nat ->
     get_midslice_average arr (Z.of_nat ind) = Raise NonFinite).
Proof.
  intros H3 Hn. unfold get_midslice_average. cbv zeta.
  rewrite midslice_tail by assumption. split; [reflexivity |].
  intro Hpast. now rewrite skipn_all2 by lia.
Qed.

Lemma get_midslice_average_tail_witness :
  get_midslice_average ten_slices (Z.of_nat 9) = mean_axis0 (skipn (9 - 3) ten_slices) /\
  ((length ten_slices + 3 <= 9)%nat ->
     get_midslice_average ten_slices (Z.of_nat 9) = Raise NonFinite).
Proof. apply (get_midslice_average_tail ten_slices 9); simpl; lia. Defined.

Lemma zip_with_rows_shape (a b : list R) (w : nat) :
  length a = w -> length b = w -> length (zip_with Rplus a b) = w.
Proof.
  revert b w; induction a as [| x a IH]; intros [| y b] w Ha Hb; simpl in *;
    try congruence.
  destruct w; [discriminate |]. f_equal. apply IH; congruence.
Qed.

Lemma zip_with_shape (a b : array2) (h w : nat) :
  shape2 a h w -> shape2 b h w -> shape2 (zip_with (zip_with Rplus) a b) h w.
Proof.
  revert b h; induction a as [| ra a IH]; intros [| rb b] h [Hah Haw] [Hbh Hbw];
    simpl in *; try (subst; discriminate); try (split; [assumption | tauto]).
  destruct h as [| h]; [discriminate |].
  destruct (IH b h) as [Hl Hr].
  - split; [congruence | intros; apply Haw; auto].
  - split; [congruence | intros; apply Hbw; auto].
  - split; [simpl; congruence |].
    intros row [<- | Hrow]; [| auto].
    apply zip_with_rows_shape; [apply Haw | apply Hbw]; auto.
Qed.

Lemma mean_axis0_ok (sub : array3) (h w : nat) :
  sub <> [] -> (forall s, In s sub -> shape2 s h w) ->
  exists out, mean_axis0 sub = Ok out /\ shape2 out h w.
Proof.
  destruct sub as [| s0 rest]; [congruence |]. intros _ Hall.
  eexists. split; [reflexivity |]. apply shape2_arr_map.
  assert (Hs0 : shape2 s0 h w) by (apply Hall; simpl; auto).
  assert (Hrest : forall s, In s rest -> shape2 s h w)
    by (intros; apply Hall; simpl; auto).
  clear Hall. revert s0 Hs0. induction rest as [| s rest IH]; intros s0 Hs0.
  - exact Hs0.
  - simpl. apply IH.
    + intros; apply Hrest; simpl; auto.
    + apply zip_with_shape; [exact Hs0 | apply Hrest; simpl; auto].
Qed.

Lemma In_firstn_list {A : Type} (n : nat) (l : list A) (x : A) :
  In x (firstn n l) -> In x l.
Proof.
  intro H. rewrite <- (firstn_skipn n l). apply in_or_app. now left.
Qed.

Lemma In_skipn_list {A : Type} (n : nat) (l : list A) (x : A) :
  In x (skipn n l) -> In x l.
Proof.
  intro H. rewrite <- (firstn_skipn n l). apply in_or_app. now right.
Qed.

(** X18: for every index strictly inside the volume, [0 < ind < extent],
    [get_midslice_average] returns an image, and on a volume of [h] x [w]
    slices the image is [h] x [w]. *)
Theorem get_midslice_average_inside (arr : array3) (ind h w : nat) :
  (0 < ind < length arr)%nat ->
  (forall s, In s arr -> shape2 s h w) ->
  exists out, get_midslice_average arr (Z.of_nat ind) = Ok out /\ shape2 out h w.
Proof.
  intros [H0 Hn] Hall.
  assert (Hsub : forall l : array3, (forall s, In s l -> In s arr) -> l <> [] ->
            exists out, mean_axis0 l = Ok out /\ shape2 out h w).
  { intros l Hl Hne. apply mean_axis0_ok; [exact Hne | auto]. }
  assert (Hlen : forall l : array3, (0 < length l)%nat -> l <> []).
  { intros l Hl E. rewrite E in Hl. simpl in Hl. lia. }
  unfold get_midslice_average. cbv zeta.
  destruct (Nat.lt_ge_cases (ind + 3) (length arr)) as [Hint | Hend].
  - rewrite midslice_interior by exact Hint.
    destruct (Nat.leb_spec (2 * ind) (length arr)).
    + apply Hsub; [intros s Hs; eapply In_firstn_list; eauto |].
      apply Hlen. rewrite length_firstn. lia.
    + apply Hsub; [intros s Hs; eapply In_skipn_list; eauto |].
      apply Hlen. rewrite length_skipn. lia.
  - destruct (Nat.lt_ge_cases ind 3) as [Hlow | Hhigh].
    + assert (Hw : numb_of_slice (Z.of_nat (length arr)) (Z.of_nat ind) = Z.of_nat ind).
      { unfold numb_of_slice.
        destruct (Z.ltb_spec (Z.of_nat ind + 3) (Z.of_nat (length arr))); [lia |].
        destruct (Z.ltb_spec (Z.of_nat ind - 3) 0); [reflexivity | lia]. }
      rewrite Hw.
      replace (Z.of_nat ind - Z.of_nat ind)%Z with 0%Z by lia.
      replace (Z.of_nat ind + Z.of_nat ind)%Z with (Z.of_nat (2 * ind)) by lia.
      rewrite py_slice_prefix.
      apply Hsub; [intros s Hs; eapply In_firstn_list; eauto |].
      apply Hlen. rewrite length_firstn. lia.
    + rewrite midslice_tail by assumption.
      apply Hsub; [intros s Hs; eapply In_skipn_list; eauto |].
      apply Hlen. rewrite length_skipn. lia.
Qed.

Lemma get_midslice_average_inside_witness :
  exists out, get_midslice_average ten_slices (Z.of_nat 5) = Ok out /\ shape2 out 1 1.
Proof.
  apply (get_midslice_average_inside ten_slices 5 1 1); [simpl; lia |].
  intros s Hs. simpl in Hs.
  repeat (destruct Hs as [<- | Hs];
          [split; [reflexivity | intros row [<- | []]; reflexivity] |]).
  destruct Hs.
Defined.

(** ** extract_all: failures, order of the points, one more point *)

Lemma array2_ext (a b : array2) (h w : nat) :
  shape2 a h w -> shape2 b h w ->
  (forall i j, (i < h)%nat -> (j < w)%nat -> get a i j = get b i j) ->
  a = b.
Proof.
  intros [Hah Haw] [Hbh Hbw] Hget.
  apply (nth_ext a b [] []); [congruence |].
  intros i Hi.
  assert (Hra : length (nth i a []) = w) by (apply Haw, nth_In; lia).
  assert (Hrb : length (nth i b []) = w) by (apply Hbw, nth_In; lia).
  apply (nth_ext _ _ 0 0); [congruence |].
  intros j Hj. apply (Hget i j); lia.
Qed.

Lemma Rmax_swap (x a b : R) : Rmax (Rmax x a) b = Rmax (Rmax x b) a.
Proof. rewrite <- !Rmax_assoc. f_equal. apply Rmax_comm. Qed.

Lemma fold_left_Rmax_perm (l l' : list R) (x : R) :
  Permutation l l' -> fold_left Rmax l x = fold_left Rmax l' x.
Proof.
  intro P. revert x. induction P; intro x0; simpl.
  - reflexivity.
  - apply IHP.
  - now rewrite Rmax_swap.
  - now rewrite IHP1.
Qed.

Lemma extract_step_short_point (s0 s1 : nat) (final : array2) (x : list R) :
  (length x < 2)%nat ->
  extract_step [1%nat; s0; s1] s0 s1 final x = Raise IndexError.
Proof.
  intro Hx. unfold extract_step, label2maskmap_gt. cbn [index nth_error bind].
  destruct (Nat.leb_spec (length x) 2) as [_ | ?]; [| lia].
  destruct (index x 0) as [d0 | e] eqn:E0; cbn [bind];
    [| apply index_raise in E0; now subst].
  now rewrite (index_short x 1) by lia.
Qed.

Lemma for_each_short_point (s0 s1 : nat) (pts : list (list R)) (final : array2) :
  (1 <= s0)%nat -> (1 <= s1)%nat ->
  (exists x, In x pts /\ (length x < 2)%nat) ->
  for_each (extract_step [1%nat; s0; s1] s0 s1) pts final = Raise IndexError.
Proof.
  intros H0 H1. revert final. induction pts as [| x0 pts IH]; intros final (x & Hx & Hlen).
  - destruct Hx.
  - cbn [for_each]. destruct (Nat.lt_ge_cases (length x0) 2) as [Hs | Hl].
    + now rewrite extract_step_short_point.
    + rewrite extract_step_ok by assumption. cbn [bind]. apply IH.
      destruct Hx as [-> | Hx]; [lia | eauto].
Qed.

Lemma extract_step_empty_canvas (s0 s1 : nat) (final : array2) (x : list R) :
  (2 <= length x)%nat -> s0 = 0%nat \/ s1 = 0%nat ->
  extract_step [1%nat; s0; s1] s0 s1 final x = Raise ValueError.
Proof.
  intros Hx Hs. unfold extract_step.
  rewrite (label2maskmap_gt_unfold x [1%nat; s0; s1] 0 0 10 false s0 s1);
    [| assumption | reflexivity | reflexivity | lra].
  unfold peak_scaling, arr_max.
  now rewrite (concat_map_map_empty _ _ (pixel_grid_empty _ _ Hs)).
Qed.

Lemma short_point_dec (pts : list (list R)) :
  (exists x, In x pts /\ (length x < 2)%nat) \/
  (forall x, In x pts -> (2 <= length x)%nat).
Proof.
  induction pts as [| x pts [(y & Hy & Hlen) | Hall]].
  - right. intros x [].
  - left. exists y. simpl. auto.
  - destruct (Nat.lt_ge_cases (length x) 2) as [Hs | Hl].
    + left. exists x. simpl. auto.
    + right. intros y [<- | Hy]; auto.
Qed.

(** X19: what [extract_all] returns: an IndexError for a shape of fewer than
    2 entries; the zero image for no point at all; otherwise an IndexError if
    the first point has fewer than 2 components, a ValueError if it has them
    and the canvas is empty; and on a non-empty canvas an image if every point
    has 2 components, an IndexError if one has not. *)
Theorem extract_all_outcomes (pts : list (list R)) (shape_im : list nat) :
  ((length shape_im < 2)%nat /\ extract_all pts shape_im = Raise IndexError) \/
  ((2 <= length shape_im)%nat /\ pts = [] /\
   extract_all pts shape_im
   = Ok [zeros (nth 0 shape_im 0%nat) (nth 1 shape_im 0%nat)]) \/
  ((2 <= length shape_im)%nat /\ (length (hd [] pts) < 2)%nat /\ pts <> [] /\
   extract_all pts shape_im = Raise IndexError) \/
  ((2 <= length shape_im)%nat /\ (2 <= length (hd [] pts))%nat /\
   (nth 0 shape_im 0%nat = 0%nat \/ nth 1 shape_im 0%nat = 0%nat) /\
   extract_all pts shape_im = Raise ValueError) \/
  ((2 <= length shape_im)%nat /\
   (1 <= nth 0 shape_im 0)%nat /\ (1 <= nth 1 shape_im 0)%nat /\
   (exists x, In x pts /\ (length x < 2)%nat) /\
   extract_all pts shape_im = Raise IndexError) \/
  ((2 <= length shape_im)%nat /\
   (1 <= nth 0 shape_im 0)%nat /\ (1 <= nth 1 shape_im 0)%nat /\
   (forall x, In x pts -> (2 <= length x)%nat) /\
   exists final, extract_all pts shape_im = Ok [final]).
Proof.
  destruct (Nat.lt_ge_cases (length shape_im) 2) as [Hs | Hs].
  { left. split; [exact Hs |]. unfold extract_all.
    destruct (index shape_im 0) as [s0 | e] eqn:E0; cbn [bind];
      [| apply index_raise in E0; now subst].
    now rewrite (index_short shape_im 1) by lia. }
  right.
  assert (E0 : index shape_im 0 = Ok (nth 0 shape_im 0%nat)) by (apply index_nat_nth; lia).
  assert (E1 : index shape_im 1 = Ok (nth 1 shape_im 0%nat)) by (apply index_nat_nth; lia).
  set (s0 := nth 0 shape_im 0%nat) in *. set (s1 := nth 1 shape_im 0%nat) in *.
  destruct pts as [| x pts].
  { left. split; [exact Hs |]. split; [reflexivity |].
    unfold extract_all. rewrite E0, E1. reflexivity. }
  right. destruct (Nat.lt_ge_cases (length x) 2) as [Hx | Hx].
  { left. split; [exact Hs |]. split; [exact Hx |]. split; [discriminate |].
    unfold extract_all. rewrite E0, E1. cbn [bind for_each].
    now rewrite extract_step_short_point. }
  right.
  destruct (Nat.eq_dec s0 0) as [Z0 | Z0]; [| destruct (Nat.eq_dec s1 0) as [Z1 | Z1]].
  - left. split; [exact Hs |]. split; [exact Hx |]. split; [now left |].
    unfold extract_all. rewrite E0, E1. cbn [bind for_each].
    now rewrite extract_step_empty_canvas by auto.
  - left. split; [exact Hs |]. split; [exact Hx |]. split; [now right |].
    unfold extract_all. rewrite E0, E1. cbn [bind for_each].
    now rewrite extract_step_empty_canvas by auto.
  - right. destruct (short_point_dec (x :: pts)) as [Hshort | Hall].
    + left. split; [exact Hs |]. split; [lia |]. split; [lia |].
      split; [exact Hshort |].
      unfold extract_all. rewrite E0, E1. cbn [bind].
      now rewrite for_each_short_point by (assumption || lia).
    + right. split; [exact Hs |]. split; [lia |]. split; [lia |].
      split; [exact Hall |].
      destruct (extract_all_entries (x :: pts) shape_im s0 s1 E0 E1
                  ltac:(lia) ltac:(lia) Hall) as (final & Hrun & _).
      eauto.
Qed.

(** X20: on a non-empty canvas the result of [extract_all] does not depend
    on the order of the points. *)
Theorem extract_all_order_independent
  (pts pts' : list (list R)) (shape_im : list nat) (s0 s1 : nat) :
  index shape_im 0 = Ok s0 -> index shape_im 1 = Ok s1 ->
  (1 <= s0)%nat -> (1 <= s1)%nat ->
  Permutation pts pts' ->
  extract_all pts shape_im = extract_all pts' shape_im.
Proof.
  intros E0 E1 H0 H1 P.
  destruct (short_point_dec pts) as [(x & Hx & Hlen) | Hall].
  - unfold extract_all. rewrite E0, E1. cbn [bind].
    rewrite !for_each_short_point; try assumption; [reflexivity | | eauto].
    exists x. split; [eapply Permutation_in; eauto | exact Hlen].
  - assert (Hall' : forall x, In x pts' -> (2 <= length x)%nat).
    { intros x Hx. apply Hall. eapply Permutation_in; [apply Permutation_sym |]; eauto. }
    destruct (extract_all_entries pts shape_im s0 s1 E0 E1 H0 H1 Hall)
      as (final & -> & Hs & Hget).
    destruct (extract_all_entries pts' shape_im s0 s1 E0 E1 H0 H1 Hall')
      as (final' & -> & Hs' & Hget').
    do 2 f_equal. apply (array2_ext final final' s0 s1 Hs Hs').
    intros w h Hw Hh. rewrite Hget, Hget' by assumption.
    apply fold_left_Rmax_perm. now apply Permutation_map.
Qed.

Lemma extract_all_order_independent_witness :
  extract_all [[0; 1; 1]; [2; 0]] [2; 3]%nat = extract_all [[2; 0]; [0; 1; 1]] [2; 3]%nat.
Proof.
  apply (extract_all_order_independent [[0; 1; 1]; [2; 0]] [[2; 0]; [0; 1; 1]]
           [2; 3]%nat 2 3); [reflexivity | reflexivity | lia | lia | apply perm_swap].
Defined.

(** X21: one more point changes the merged image by the maximum, at every
    pixel, with the heatmap of that point: no pixel gets darker. *)
Theorem extract_all_one_more_point
  (pts : list (list R)) (x : list R) (shape_im : list nat) (s0 s1 : nat) :
  index shape_im 0 = Ok s0 -> index shape_im 1 = Ok s1 ->
  (1 <= s0)%nat -> (1 <= s1)%nat ->
  (forall y, In y pts -> (2 <= length y)%nat) -> (2 <= length x)%nat ->
  exists final final',
    extract_all pts shape_im = Ok [final] /\
    extract_all (pts ++ [x]) shape_im = Ok [final'] /\
    forall w h, (w < s0)%nat -> (h < s1)%nat ->
      get final' w h = Rmax (get final w h) (mask_at s0 s1 x w h) /\
      get final w h <= get final' w h.
Proof.
  intros E0 E1 H0 H1 Hall Hx.
  assert (Hall' : forall y, In y (pts ++ [x]) -> (2 <= length y)%nat).
  { intros y Hy. apply in_app_or in Hy as [Hy | [<- | []]]; auto. }
  destruct (extract_all_entries pts shape_im s0 s1 E0 E1 H0 H1 Hall)
    as (final & Hrun & _ & Hget).
  destruct (extract_all_entries (pts ++ [x]) shape_im s0 s1 E0 E1 H0 H1 Hall')
    as (final' & Hrun' & _ & Hget').
  exists final, final'. split; [exact Hrun |]. split; [exact Hrun' |].
  intros w h Hw Hh. rewrite Hget, Hget' by assumption.
  rewrite map_app, fold_left_app. simpl. split; [reflexivity | apply Rmax_l].
Qed.

Lemma extract_all_one_more_point_witness :
  exists final final',
    extract_all [[0; 1; 1]] [2; 3]%nat = Ok [final] /\
    extract_all ([[0; 1; 1]] ++ [[2; 0]]) [2; 3]%nat = Ok [final'] /\
    forall w h, (w < 2)%nat -> (h < 3)%nat ->
      get final' w h = Rmax (get final w h) (mask_at 2 3 [2; 0] w h) /\
      get final w h <= get final' w h.
Proof.
  apply (extract_all_one_more_point [[0; 1; 1]] [2; 0] [2; 3]%nat 2 3);
    [reflexivity | reflexivity | lia | lia | | simpl; lia].
  intros y [<- | []]; simpl; lia.
Defined.

(** ** add_zero_padding *)

Lemma map_result_ok {A B : Type} (f : A -> result B) (g : A -> B) (l : list A) :
  (forall x, In x l -> f x = Ok (g x)) -> map_result f l = Ok (map g l).
Proof.
  induction l as [| x l IH]; intro H; [reflexivity |].
  cbn [map_result map]. rewrite (H x) by (simpl; auto). cbn [bind].
  rewrite IH by (intros; apply H; simpl; auto). reflexivity.
Qed.

Lemma map_result_raise {A B : Type} (f : A -> result B) (l : list A) (e : error) :
  (forall x, In x l -> f x = Raise e \/ exists y, f x = Ok y) ->
  (exists x, In x l /\ f x = Raise e) ->
  map_result f l = Raise e.
Proof.
  induction l as [| x l IH]; intros Hall (x0 & Hin & Hx0); [destruct Hin |].
  cbn [map_result]. destruct (Hall x (or_introl eq_refl)) as [-> | [y Hy]];
    [reflexivity |].
  rewrite Hy. cbn [bind]. rewrite IH; [reflexivity | |].
  - intros z Hz. apply Hall. simpl; auto.
  - destruct Hin as [<- | Hin]; [congruence | eauto].
Qed.

Lemma pad_image_fits (x_val y_val : nat) (img : array2) :
  (rows img <= x_val)%nat -> (cols img <= y_val)%nat ->
  pad_image x_val y_val img = Ok (padded x_val y_val img).
Proof.
  intros Hr Hc. unfold pad_image, padded.
  rewrite !Nat.min_l by assumption. rewrite !Nat.eqb_refl. reflexivity.
Qed.

Lemma pad_image_outcomes (x_val y_val : nat) (img : array2) :
  pad_image x_val y_val img = Raise ValueError \/
  exists y, pad_image x_val y_val img = Ok y.
Proof. unfold pad_image. destruct (_ && _); eauto. Qed.

Lemma padded_cell (x_val y_val : nat) (img : array2) (i j : nat) :
  (i < x_val)%nat -> (j < y_val)%nat ->
  cell (padded x_val y_val img) i j
  = if (i <? rows img)%nat && (j <? cols img)%nat then get img i j else 0.
Proof.
  intros Hi Hj. unfold cell.
  assert (E : nth j (nth i (padded x_val y_val img) []) []
              = [if (i <? rows img)%nat && (j <? cols img)%nat then get img i j else 0]).
  { apply grid_at_nth. unfold padded.
    exact (grid_at_tabulate2 x_val y_val
             (fun i0 j0 =>
                [if (i0 <? rows img)%nat && (j0 <? cols img)%nat
                 then get img i0 j0 else 0]) i j Hi Hj). }
  now rewrite E.
Qed.

Lemma padded_has_shape (x_val y_val : nat) (img : array2) :
  padded_shape (padded x_val y_val img) x_val y_val.
Proof.
  unfold padded_shape, padded, tabulate2. split.
  - now rewrite length_map, length_seq.
  - intros row Hrow. apply in_map_iff in Hrow as (i & <- & _). split.
    + now rewrite length_map, length_seq.
    + intros c Hc. apply in_map_iff in Hc as (j & <- & _). reflexivity.
Qed.

(** X22: when no image is larger than [x_val] x [y_val],
    [add_zero_padding] returns one padded image for each image, in order;
    each has [x_val] rows of [y_val] cells, holds the image in its top left
    corner and 0 everywhere else. *)
Theorem add_zero_padding_fits (img_list : img_arg) (x_val y_val : nat) :
  (forall img, In img (as_list img_list) ->
     (rows img <= x_val)%nat /\ (cols img <= y_val)%nat) ->
  exists out,
    add_zero_padding img_list x_val y_val = Ok out /\
    Forall2 (fun img a =>
      padded_shape a x_val y_val /\
      forall i j, (i < x_val)%nat -> (j < y_val)%nat ->
        cell a i j
        = if (i <? rows img)%nat && (j <? cols img)%nat then get img i j else 0)
      (as_list img_list) out.
Proof.
  intro Hfit. exists (map (padded x_val y_val) (as_list img_list)). split.
  - unfold add_zero_padding. apply map_result_ok.
    intros img Himg. apply pad_image_fits; now apply Hfit.
  - clear Hfit. induction (as_list img_list) as [| img l IH]; simpl; constructor.
    + split; [apply padded_has_shape | intros; now apply padded_cell].
    + exact IH.
Qed.

Lemma add_zero_padding_fits_witness :
  exists out,
    add_zero_padding (OneImage [[1; 2]; [3; 4]]) 3 4 = Ok out /\
    Forall2 (fun img a =>
      padded_shape a 3 4 /\
      forall i j, (i < 3)%nat -> (j < 4)%nat ->
        cell a i j
        = if (i <? rows img)%nat && (j <? cols img)%nat then get img i j else 0)
      (as_list (OneImage [[1; 2]; [3; 4]])) out.
Proof.
  apply (add_zero_padding_fits (OneImage [[1; 2]; [3; 4]]) 3 4).
  intros img [<- | []]. unfold rows, cols. simpl. lia.
Defined.

(** X23: when some image has more rows than [x_val] or more columns than
    [y_val], nothing is cropped: [add_zero_padding] raises a ValueError (an
    extent of 1 against a target extent of 0 apart, which numpy broadcasts). *)
Theorem add_zero_padding_too_large (img_list : img_arg) (x_val y_val : nat)
  (img : array2) :
  In img (as_list img_list) ->
  ((x_val < rows img)%nat /\ rows img <> 1%nat) \/
  ((y_val < cols img)%nat /\ cols img <> 1%nat) ->
  add_zero_padding img_list x_val y_val = Raise ValueError.
Proof.
  intros Hin Hlarge. unfold add_zero_padding. apply map_result_raise.
  - intros x _. apply pad_image_outcomes.
  - exists img. split; [exact Hin |]. unfold pad_image.
    destruct Hlarge as [[Hr H1] | [Hc H1]].
    + rewrite (Nat.min_r (rows img) x_val) by lia.
      destruct (Nat.eqb_spec (rows img) x_val); [lia |].
      destruct (Nat.eqb_spec (rows img) 1); [contradiction | reflexivity].
    + rewrite (Nat.min_r (cols img) y_val) by lia.
      destruct (Nat.eqb_spec (cols img) y_val) as [? | _]; [lia |].
      destruct (Nat.eqb_spec (cols img) 1) as [? | _]; [contradiction |].
      now rewrite andb_false_r.
Qed.

Lemma add_zero_padding_too_large_witness :
  add_zero_padding (ImageList [[[1]]; [[1; 2; 3]; [4; 5; 6]]]) 2 2 = Raise ValueError.
Proof.
  apply (add_zero_padding_too_large
           (ImageList [[[1]]; [[1; 2; 3]; [4; 5; 6]]]) 2 2 [[1; 2; 3]; [4; 5; 6]]).
  - simpl. auto.
  - right. unfold cols. simpl. lia.
Defined.

(** ** mask2label *)

Lemma In_combine_seq {A : Type} (l : list A) (s i : nat) (a : A) :
  In (i, a) (combine (seq s (length l)) l) <->
  (s <= i)%nat /\ nth_error l (i - s) = Some a.
Proof.
  revert s. induction l as [| x l IH]; intro s; simpl.
  - split; [tauto |]. intros [_ H]. now destruct (i - s)%nat.
  - rewrite IH. split.
    + intros [E | [Hle Hn]].
      * injection E as <- <-. rewrite Nat.sub_diag. split; [lia | reflexivity].
      * split; [lia |]. replace (i - s)%nat with (S (i - S s)) by lia. exact Hn.
    + intros [Hle Hn]. destruct (Nat.eq_dec i s) as [-> | Hne].
      * rewrite Nat.sub_diag in Hn. left. simpl in Hn. congruence.
      * right. split; [lia |].
        replace (i - s)%nat with (S (i - S s)) in Hn by lia. exact Hn.
Qed.

Lemma In_enumerate {A : Type} (l : list A) (i : nat) (a : A) :
  In (i, a) (enumerate l) <-> nth_error l i = Some a.
Proof.
  unfold enumerate. rewrite In_combine_seq, Nat.sub_0_r.
  split; [tauto | split; [lia | assumption]].
Qed.

Lemma nth_error_default {A : Type} (l : list A) (i : nat) (d : A) :
  nth_error l i = None -> nth i l d = d.
Proof. intro H. apply nth_overflow. now apply nth_error_None. Qed.

Lemma In_nonzero (arr : volume) (x y z : nat) :
  In (x, y, z) (nonzero arr) <-> voxel arr x y z <> 0%Z.
Proof.
  unfold nonzero, voxel. split.
  - intro H. apply in_flat_map in H as ([x' plane] & Hx & H).
    apply in_flat_map in H as ([y' row] & Hy & H).
    apply in_flat_map in H as ([z' v] & Hz & H).
    cbn [fst snd] in *.
    destruct (Z.eqb_spec v 0) as [| Hv]; [destruct H |].
    destruct H as [E | []]. injection E as -> -> ->.
    apply In_enumerate in Hx, Hy, Hz.
    rewrite (nth_error_nth _ _ _ Hx), (nth_error_nth _ _ _ Hy), (nth_error_nth _ _ _ Hz).
    exact Hv.
  - intro Hv.
    destruct (nth_error arr x) as [plane |] eqn:Ex.
    2:{ exfalso. apply Hv. rewrite (nth_error_default _ _ _ Ex).
        destruct y, z; reflexivity. }
    rewrite (nth_error_nth _ _ _ Ex) in Hv.
    destruct (nth_error plane y) as [row |] eqn:Ey.
    2:{ exfalso. apply Hv. rewrite (nth_error_default _ _ _ Ey). now destruct z. }
    rewrite (nth_error_nth _ _ _ Ey) in Hv.
    destruct (nth_error row z) as [v |] eqn:Ez.
    2:{ exfalso. apply Hv. now rewrite (nth_error_default _ _ _ Ez). }
    rewrite (nth_error_nth _ _ _ Ez) in Hv.
    apply in_flat_map. exists (x, plane). split; [now apply In_enumerate |].
    apply in_flat_map. exists (y, row). split; [now apply In_enumerate |].
    apply in_flat_map. exists (z, v). split; [now apply In_enumerate |].
    cbn [fst snd]. destruct (Z.eqb_spec v 0); [contradiction | simpl; auto].
Qed.

Lemma In_selected (arr : volume) (aim : string) (x y z : nat) (p : list Z) :
  In p (selected arr aim (x, y, z)) <->
  p = [Z.of_nat x; Z.of_nat y; Z.of_nat z; voxel arr x y z] /\
  keeps aim (voxel arr x y z).
Proof.
  unfold selected, keeps. set (v := voxel arr x y z).
  assert (Hone : forall q : list Z, In p [q] <-> p = q).
  { intro q. simpl. split; [intros [E | []]; now symmetry | intros ->; now left]. }
  destruct (String.eqb_spec aim "full") as [-> | Hfull].
  - destruct (Z.ltb_spec v 30) as [Hlt | Hge].
    + destruct (Z.eqb_spec v 1) as [H1 | H1]; cbn [andb negb].
      * split; [intros [] |].
        intros [_ [(_ & _ & ?) | (? & _)]]; [contradiction | discriminate].
      * rewrite Hone. split; [intros ->; split; [reflexivity | left; auto] | tauto].
    + cbn [andb]. split; [intros [] |].
      intros [_ [(_ & ? & _) | (? & _)]]; [lia | discriminate].
  - destruct (String.eqb_spec aim "c2") as [-> | Hc2].
    + destruct (Z.eqb_spec v 3) as [H3 | H3].
      * rewrite Hone. split; [intros ->; split; [reflexivity | right; auto] | tauto].
      * split; [intros [] |].
        intros [_ [(? & _) | (_ & ?)]]; [discriminate | contradiction].
    + split; [intros [] |].
      intros [_ [(? & _) | (? & _)]]; contradiction.
Qed.

Lemma insert_by_value_perm (p : list Z) (l : list (list Z)) :
  Permutation (insert_by_value p l) (p :: l).
Proof.
  induction l as [| q l IH]; simpl; [reflexivity |].
  destruct (label_value p <=? label_value q)%Z; [reflexivity |].
  rewrite IH. apply perm_swap.
Qed.

Lemma sort_by_value_perm (l : list (list Z)) : Permutation (sort_by_value l) l.
Proof.
  induction l as [| p l IH]; simpl; [reflexivity |].
  rewrite insert_by_value_perm. now constructor.
Qed.

Lemma insert_by_value_sorted (p : list Z) (l : list (list Z)) :
  StronglySorted value_le l -> StronglySorted value_le (insert_by_value p l).
Proof.
  induction 1 as [| q l Hs IH Hq]; simpl.
  - repeat constructor.
  - destruct (Z.leb_spec (label_value p) (label_value q)) as [Hle | Hgt].
    + constructor; [now constructor |]. constructor; [exact Hle |].
      eapply Forall_impl; [| exact Hq]. unfold value_le. intros; lia.
    + constructor; [exact IH |].
      apply (Permutation_Forall (Permutation_sym (insert_by_value_perm p l))).
      constructor; [unfold value_le; lia | exact Hq].
Qed.

Lemma sort_by_value_sorted (l : list (list Z)) :
  StronglySorted value_le (sort_by_value l).
Proof.
  induction l as [| p l IH]; simpl; [constructor | now apply insert_by_value_sorted].
Qed.

Lemma insert_by_value_stable (v : Z) (p : list Z) (l : list (list Z)) :
  filter (fun q => (label_value q =? v)%Z) (insert_by_value p l)
  = filter (fun q => (label_value q =? v)%Z) (p :: l).
Proof.
  induction l as [| q l IH]; [reflexivity |]. cbn [insert_by_value].
  destruct (Z.leb_spec (label_value p) (label_value q)) as [Hle | Hgt]; [reflexivity |].
  cbn [filter] in *. rewrite IH.
  destruct (Z.eqb_spec (label_value p) v), (Z.eqb_spec (label_value q) v);
    try reflexivity. lia.
Qed.

Lemma sort_by_value_stable (v : Z) (l : list (list Z)) :
  filter (fun q => (label_value q =? v)%Z) (sort_by_value l)
  = filter (fun q => (label_value q =? v)%Z) l.
Proof.
  induction l as [| p l IH]; [reflexivity |]. cbn [sort_by_value fold_right].
  fold (sort_by_value l). rewrite insert_by_value_stable. cbn [filter].
  now rewrite IH.
Qed.

Lemma sort_by_value_ties (l : list (list Z)) (v : Z) :
  (forall p, In p l -> label_value p = v) -> sort_by_value l = l.
Proof.
  induction l as [| p l IH]; intro H; [reflexivity |].
  cbn [sort_by_value fold_right]. fold (sort_by_value l).
  rewrite IH by (intros; apply H; simpl; auto).
  destruct l as [| q l]; [reflexivity |]. cbn [insert_by_value].
  rewrite (H p), (H q) by (simpl; auto). now rewrite Z.leb_refl.
Qed.

(** X24: the points [mask2label] returns are sorted by label value: the
    value of a point is at most the value of every point after it. *)
Theorem mask2label_sorted (arr : volume) (aim : string) :
  StronglySorted (fun p q => (label_value p <= label_value q)%Z) (mask2label arr aim).
Proof. apply sort_by_value_sorted. Qed.

Lemma In_mask2label (arr : volume) (aim : string) (p : list Z) :
  In p (mask2label arr aim) <-> In p (flat_map (selected arr aim) (nonzero arr)).
Proof.
  unfold mask2label. split; apply Permutation_in;
    [| apply Permutation_sym]; apply sort_by_value_perm.
Qed.

(** X25: [mask2label] returns exactly the points [[x, y, z, v]] of the
    non-zero voxels, [v = arr[x, y, z]], that its policy keeps: for ['full']
    the values below 30 other than 1 (negative values included), for ['c2']
    the value 3, for any other [aim] none. *)
Theorem mask2label_selection (arr : volume) (aim : string) (p : list Z) :
  In p (mask2label arr aim) <->
  exists x y z,
    p = [Z.of_nat x; Z.of_nat y; Z.of_nat z; voxel arr x y z] /\
    voxel arr x y z <> 0%Z /\
    ((aim = "full"%string /\ (voxel arr x y z < 30)%Z /\ voxel arr x y z <> 1%Z) \/
     (aim = "c2"%string /\ voxel arr x y z = 3%Z)).
Proof.
  rewrite In_mask2label. split.
  - intro H. apply in_flat_map in H as ([[x y] z] & Hnz & Hsel).
    apply In_nonzero in Hnz. apply In_selected in Hsel as [-> Hk].
    exists x, y, z. auto.
  - intros (x & y & z & -> & Hnz & Hk).
    apply in_flat_map. exists (x, y, z). split; [now apply In_nonzero |].
    now apply In_selected.
Qed.

(** X26: the sort of [mask2label] is stable: the points of one label value
    come in the order of the scan of the volume, and for ['c2'] the result is
    the scan itself. *)
Theorem mask2label_stable (arr : volume) (aim : string) (v : Z) :
  filter (fun p => (label_value p =? v)%Z) (mask2label arr aim)
  = filter (fun p => (label_value p =? v)%Z) (flat_map (selected arr aim) (nonzero arr)) /\
  mask2label arr "c2" = flat_map (selected arr "c2") (nonzero arr).
Proof.
  split; [apply sort_by_value_stable |].
  unfold mask2label. apply (sort_by_value_ties _ 3%Z).
  intros p Hp. apply in_flat_map in Hp as ([[x y] z] & _ & Hsel).
  apply In_selected in Hsel as [-> [(E & _) | (_ & E)]]; [discriminate |].
  exact E.
Qed.

(** ** From mask2label to extract_all *)

Lemma point_data_xy (x y z : nat) (v : Z) :
  point_xy (point_data [Z.of_nat x; Z.of_nat y; Z.of_nat z; v]) = (INR z, INR y).
Proof. unfold point_xy, point_data. simpl. now rewrite !INR_IZR_INZ. Qed.

(** X27: the points of [mask2label], read as floats, are points
    [extract_all] accepts: on a non-empty canvas it returns an image, and for
    every selected voxel [(x, y, z)] with [y] and [z] on the canvas the image
    is 255 at row [y], column [z]; the slice index [x] and the label value
    play no part. *)
Theorem mask2label_extract_all
  (arr : volume) (aim : string) (shape_im : list nat) (s0 s1 : nat) :
  index shape_im 0 = Ok s0 -> index shape_im 1 = Ok s1 ->
  (1 <= s0)%nat -> (1 <= s1)%nat ->
  exists final,
    extract_all (map point_data (mask2label arr aim)) shape_im = Ok [final] /\
    shape2 final s0 s1 /\
    forall x y z,
      In [Z.of_nat x; Z.of_nat y; Z.of_nat z; voxel arr x y z] (mask2label arr aim) ->
      (y < s0)%nat -> (z < s1)%nat -> get final y z = 255.
Proof.
  intros E0 E1 H0 H1.
  assert (Hlen : forall d, In d (map point_data (mask2label arr aim)) ->
            (2 <= length d)%nat).
  { intros d Hd. apply in_map_iff in Hd as (p & <- & Hp).
    apply In_mask2label in Hp. apply in_flat_map in Hp as ([[x y] z] & _ & Hsel).
    apply In_selected in Hsel as [-> _]. simpl. lia. }
  destruct (extract_all_entries _ shape_im s0 s1 E0 E1 H0 H1 Hlen)
    as (final & Hrun & Hs & Hget).
  exists final. split; [exact Hrun |]. split; [exact Hs |].
  intros x y z Hin Hy Hz. rewrite Hget by assumption.
  apply (merged_at_point s0 s1 _
           (point_data [Z.of_nat x; Z.of_nat y; Z.of_nat z; voxel arr x y z]));
    try assumption.
  - now apply in_map.
  - apply point_data_xy.
Qed.

Lemma mask2label_extract_all_witness :
  exists final,
    extract_all (map point_data (mask2label [[[0; 3]%Z; [5; 0]%Z]] "full")) [2; 2]%nat
    = Ok [final] /\
    shape2 final 2 2 /\
    forall x y z,
      In [Z.of_nat x; Z.of_nat y; Z.of_nat z; voxel [[[0; 3]%Z; [5; 0]%Z]] x y z]
        (mask2label [[[0; 3]%Z; [5; 0]%Z]] "full") ->
      (y < 2)%nat -> (z < 2)%nat -> get final y z = 255.
Proof.
  apply (mask2label_extract_all [[[0; 3]%Z; [5; 0]%Z]] "full" [2; 2]%nat 2 2);
    [reflexivity | reflexivity | lia | lia].
Defined.

(** ** images_normalization *)

Lemma rsum_affine (c d : R) (l : list R) :
  fold_right Rplus 0 (map (fun v => c * v + d) l)
  = c * fold_right Rplus 0 l + d * INR (length l).
Proof.
  induction l as [| x l IH]; [simpl; ring |].
  cbn [map fold_right length]. rewrite IH, S_INR. ring.
Qed.

Lemma arr_sum_affine (c d : R) (a : array2) :
  arr_sum (arr_map (fun v => c * v + d) a)
  = c * arr_sum a + d * INR (length (concat a)).
Proof.
  unfold arr_sum, arr_map. rewrite <- concat_map. apply rsum_affine.
Qed.

Lemma arr_map_ext_in (f g : R -> R) (a : array2) :
  (forall v, In v (concat a) -> f v = g v) -> arr_map f a = arr_map g a.
Proof.
  intro H. unfold arr_map. apply map_ext_in; intros row Hrow.
  apply map_ext_in; intros v Hv. apply H. apply in_concat. eauto.
Qed.

Lemma centered_sum (a : array2) :
  arr_sum (arr_map (fun v => v - np_mean a) a) = 0.
Proof.
  rewrite (arr_map_ext _ (fun v => 1 * v + - np_mean a)) by (intro; ring).
  rewrite arr_sum_affine. unfold np_mean.
  destruct (concat a) as [| x l] eqn:E.
  - unfold arr_sum. rewrite E. simpl. ring.
  - assert (0 < INR (length (x :: l))) by (apply lt_0_INR; simpl; lia).
    field. lra.
Qed.

(** X28: without the division by the standard deviation ([std=False]) every
    image [images_normalization] returns is zero-centred: its values sum
    to 0. *)
Theorem images_normalization_zero_mean (img_list : img_arg) (out : array2) :
  In out (images_normalization img_list false) -> arr_sum out = 0.
Proof.
  unfold images_normalization. intro H.
  apply in_map_iff in H as (img & <- & _). apply centered_sum.
Qed.

Lemma images_normalization_zero_mean_witness :
  arr_sum (normalize_image false [[1; 2]; [3; 6]]) = 0.
Proof.
  apply (images_normalization_zero_mean (OneImage [[1; 2]; [3; 6]])).
  simpl. auto.
Defined.

Lemma np_mean_shift (t : R) (a : array2) :
  concat a <> [] -> np_mean (arr_map (fun v => v + t) a) = np_mean a + t.
Proof.
  intro Hne. unfold np_mean.
  rewrite (arr_map_ext _ (fun v => 1 * v + t)) by (intro; ring).
  rewrite arr_sum_affine.
  replace (length (concat (arr_map (fun v => 1 * v + t) a))) with (length (concat a)).
  - assert (0 < INR (length (concat a))).
    { apply lt_0_INR. destruct (concat a); [congruence | simpl; lia]. }
    field. lra.
  - unfold arr_map. rewrite <- concat_map. now rewrite length_map.
Qed.

(** X30: without the division by the standard deviation ([std=False])
    [images_normalization] does not see a constant added to an image: the
    image and the image plus [t] have the same normalization. *)
Theorem images_normalization_shift (img : array2) (t : R) :
  images_normalization (OneImage (arr_map (fun v => v + t) img)) false
  = images_normalization (OneImage img) false.
Proof.
  unfold images_normalization. cbn [as_list map]. f_equal.
  unfold normalize_image.
  rewrite arr_map_arr_map. apply arr_map_ext_in. intros v Hv.
  rewrite np_mean_shift by (eapply concat_nonempty_In; eauto). ring.
Qed.
